(** * LexAI research pipeline: source registry, citation rewriting, refinement loop

    A shallow embedding of [app/agent.py]: the two agent callbacks
    ([collect_research_sources_callback], [citation_replacement_callback]),
    the [EscalationChecker] agent and the [iterative_refinement_loop] of
    [research_pipeline], with the properties of the specification proved
    or refuted on them. *)

From Stdlib Require Import Ascii String List Floats ZArith NArith Lia.
From Stdlib Require Import DecimalString DecimalNat.
From stdpp Require Import gmap strings list fin_maps.

(** ** Python text and values

    A Python [str] is a sequence of Unicode code points: a character is
    its code point, a number, and a text is a list of them.  Literals
    of the source are ASCII and are written with [txt].  A field that
    holds a [str] or [None] is a [value]. *)

Abbreviation char := N (only parsing).

Abbreviation str := (list N) (only parsing).

(** The text of an ASCII literal. *)
Definition txt (s : string) : str := map N_of_ascii (list_ascii_of_string s).

(** A [str], or [None]. *)
Abbreviation value := (option (list N)) (only parsing).

(** [f"{v}"]: a text as it is, [None] as the text None. *)
Definition fmt (v : value) : str :=
  match v with
  | Some s => s
  | None => txt "None"
  end.

(** ** Python results

    A call either returns or raises; the only exception the modelled code
    can raise is [KeyError] (subscripting a dict with a missing key). *)

Inductive exn : Type :=
| KeyError (key : str).

Inductive result (A : Type) : Type :=
| Ok (a : A)
| Raise (e : exn).
Arguments Ok {A} a.
Arguments Raise {A} e.

#[global] Instance result_ret : MRet result := fun A a => Ok a.

#[global] Instance result_bind : MBind result := fun A B f r =>
  match r with
  | Ok a => f a
  | Raise e => Raise e
  end.

#[global] Instance result_fmap : FMap result := fun A B f r =>
  match r with
  | Ok a => Ok (f a)
  | Raise e => Raise e
  end.

(** The double quote, and a text between double quotes. *)
Definition dquote : str := [34%N].

Definition quoted (s : str) : str := dquote ++ s ++ dquote.

(** ** Regular expressions ([re])

    The two patterns of [citation_replacement_callback] are sequences of
    single-character atoms, each under one of the greedy quantifiers
    (none, [?], [*], [+]), with one capturing group around a run of
    atoms.  The matcher below is the backtracking matcher of [re] on that
    fragment: atoms are tried left to right, a greedy quantifier takes as
    many characters as it can and gives them back one at a time when the
    rest of the pattern fails.

    The patterns are [str] patterns compiled without flags, so the
    classes [\s] and [\d] are the Unicode ones: [\s] takes the
    characters for which [str.isspace] holds, [\d] the decimal digits
    (category Nd).  The two tables are those of the Unicode database of
    CPython 3.11 (Unicode 14.0), as ranges of code points. *)

Module Re.

Inductive cclass : Type :=
| CChar (c : char)          (* a literal character *)
| CSpace                    (* \s *)
| CDigit                    (* \d *)
| CSet (cs : list char).    (* [...] *)

Inductive quant : Type := One | Opt | Star | Plus.

Record atom : Type := Atom { cls : cclass; qt : quant }.

Definition in_ranges (rs : list (N * N)) (c : char) : bool :=
  existsb (fun r : N * N => (r.1 <=? c)%N && (c <=? r.2)%N) rs.

(** Whitespace: tab to carriage return, the separators [\x1c]-[\x1f],
    space, NEL, no-break space, and the Unicode spaces and line and
    paragraph separators. *)
Definition space_ranges : list (N * N) :=
  [ (9, 13); (28, 32); (133, 133); (160, 160); (5760, 5760); (8192, 8202); (8232, 8233);
    (8239, 8239); (8287, 8287); (12288, 12288) ]%N.

(** Decimal digits: [0]-[9] and the digits of the other scripts. *)
Definition digit_ranges : list (N * N) :=
  [ (48, 57); (1632, 1641); (1776, 1785); (1984, 1993); (2406, 2415); (2534, 2543);
    (2662, 2671); (2790, 2799); (2918, 2927); (3046, 3055); (3174, 3183); (3302, 3311);
    (3430, 3439); (3558, 3567); (3664, 3673); (3792, 3801); (3872, 3881); (4160, 4169);
    (4240, 4249); (6112, 6121); (6160, 6169); (6470, 6479); (6608, 6617); (6784, 6793);
    (6800, 6809); (6992, 7001); (7088, 7097); (7232, 7241); (7248, 7257);
    (42528, 42537); (43216, 43225); (43264, 43273); (43472, 43481); (43504, 43513);
    (43600, 43609); (44016, 44025); (65296, 65305); (66720, 66729); (68912, 68921);
    (69734, 69743); (69872, 69881); (69942, 69951); (70096, 70105); (70384, 70393);
    (70736, 70745); (70864, 70873); (71248, 71257); (71360, 71369); (71472, 71481);
    (71904, 71913); (72016, 72025); (72784, 72793); (73040, 73049); (73120, 73129);
    (92768, 92777); (92864, 92873); (93008, 93017); (120782, 120831); (123200, 123209);
    (123632, 123641); (125264, 125273); (130032, 130041) ]%N.

Definition is_space (c : char) : bool := in_ranges space_ranges c.

Definition is_digit (c : char) : bool := in_ranges digit_ranges c.

Fixpoint mem_char (c : char) (cs : list char) : bool :=
  match cs with
  | [] => false
  | d :: cs' => N.eqb c d || mem_char c cs'
  end.

Definition accepts (k : cclass) (c : char) : bool :=
  match k with
  | CChar d => N.eqb c d
  | CSpace => is_space c
  | CDigit => is_digit c
  | CSet cs => mem_char c cs
  end.

(** The result of matching a sequence of atoms: the text each atom took,
    in order, and the text left over. *)
Definition lexemes : Type := list str * str.

Definition push (l : str) (r : option lexemes) : option lexemes :=
  match r with
  | Some (ls, rest) => Some (l :: ls, rest)
  | None => None
  end.

Definition grow (c : char) (r : option lexemes) : option lexemes :=
  match r with
  | Some (l :: ls, rest) => Some ((c :: l) :: ls, rest)
  | _ => None
  end.

(** Greedy repetition of class [k] followed by continuation [cont]:
    take a character and repeat; when that fails, stop here. *)
Fixpoint star (k : cclass) (cont : str -> option lexemes)
    (s : str) : option lexemes :=
  match s with
  | c :: s' =>
      if accepts k c then
        match grow c (star k cont s') with
        | Some r => Some r
        | None => push [] (cont s)
        end
      else push [] (cont s)
  | [] => push [] (cont [])
  end.

Fixpoint match_atoms (p : list atom) : str -> option lexemes :=
  match p with
  | [] => fun s => Some ([], s)
  | a :: p' =>
      let cont := match_atoms p' in
      match qt a with
      | One => fun s =>
          match s with
          | c :: s' => if accepts (cls a) c then push [c] (cont s') else None
          | [] => None
          end
      | Opt => fun s =>
          match s with
          | c :: s' =>
              if accepts (cls a) c then
                match push [c] (cont s') with
                | Some r => Some r
                | None => push [] (cont s)
                end
              else push [] (cont s)
          | [] => push [] (cont [])
          end
      | Star => star (cls a) cont
      | Plus => fun s =>
          match s with
          | c :: s' => if accepts (cls a) c then grow c (star (cls a) cont s') else None
          | [] => None
          end
      end
  end.

(** A pattern with one capturing group: the atoms before the group, the
    atoms inside it and the atoms after it. *)
Record regex : Type := Regex {
  re_pre : list atom;
  re_group : list atom;
  re_post : list atom
}.

Definition re_atoms (r : regex) : list atom :=
  re_pre r ++ re_group r ++ re_post r.

(** A match object: [group(0)] and [group(1)]. *)
Record rmatch : Type := Match {
  group0 : str;
  group1 : str
}.

(** [re.match]: match at the start of [s]. *)
Definition re_match (r : regex) (s : str) : option rmatch :=
  match match_atoms (re_atoms r) s with
  | Some (ls, _) =>
      Some {| group0 := concat ls;
              group1 := concat (take (length (re_group r)) (drop (length (re_pre r)) ls)) |}
  | None => None
  end.

(** The pieces [re.sub] cuts a text into, left to right: a character no
    match covers, or a match.  [skip] counts the characters of the
    current match still to step over.  After an empty match the next
    character is copied and the scan resumes behind it. *)
Inductive piece : Type :=
| Lit (c : char)
| Hit (m : rmatch).

Fixpoint scan (r : regex) (skip : nat) (s : str) : list piece :=
  match s with
  | [] =>
      match skip with
      | 0 => match re_match r [] with Some m => [Hit m] | None => [] end
      | S _ => []
      end
  | c :: s' =>
      match skip with
      | S k => scan r k s'
      | 0 =>
          match re_match r s with
          | Some m =>
              match length (group0 m) with
              | 0 => Hit m :: Lit c :: scan r 0 s'
              | S n => Hit m :: scan r n s'
              end
          | None => Lit c :: scan r 0 s'
          end
      end
  end.

(** [re.sub(pattern, repl, s)] for a replacement function that cannot fail. *)
Definition re_sub (r : regex) (repl : rmatch -> str) (s : str) : str :=
  flat_map (fun p => match p with Lit c => [c] | Hit m => repl m end) (scan r 0 s).

(** Pattern syntax. *)
Definition lit (s : string) : list atom :=
  map (fun c => Atom (CChar c) One) (txt s).

Definition quotes : cclass := CSet (dquote ++ txt "'").

End Re.

Import Re.

(** ** Data model

    Python dicts with a fixed set of string keys are records whose fields
    are optional: [None] is a missing key, so that [dict.get]'s default
    and the [KeyError] of a subscript are both expressible; a key that
    is present holds a [value] where the code can store [None] under
    it.  Dicts used as maps ([url_to_short_id], [sources]) are finite
    maps; a URL is a [value], since [None] is a key like any other. *)

(** An entry of [supported_claims]. *)
Record Claim : Type := {
  text_segment : value;
  confidence : float
}.

(** A value of [sources]: the dict built by
    [collect_research_sources_callback]. *)
Record Source : Type := {
  short_id : option str;
  title : option value;
  url : option value;
  domain : option value;
  supported_claims : option (list Claim)
}.

(** The Source dict with its list of claims replaced. *)
Definition set_supported_claims (d : Source) (cs : list Claim) : Source :=
  {| short_id := short_id d; title := title d; url := url d; domain := domain d;
     supported_claims := Some cs |}.

(** [bool(d)] for a Source dict: a dict is false when it is empty. *)
Definition source_truthy (d : Source) : bool :=
  bool_decide (is_Some (short_id d)) || bool_decide (is_Some (title d))
  || bool_decide (is_Some (url d)) || bool_decide (is_Some (domain d))
  || bool_decide (is_Some (supported_claims d)).

(** The value stored under [research_evaluation]: a [Feedback] as a dict. *)
Record Evaluation : Type := {
  grade : option str;
  comment : option str;
  follow_up_queries : option (list str)
}.

Definition evaluation_truthy (d : Evaluation) : bool :=
  bool_decide (is_Some (grade d)) || bool_decide (is_Some (comment d))
  || bool_decide (is_Some (follow_up_queries d)).

(** The session state ([callback_context.state], [ctx.session.state]):
    the keys this code reads and writes, each possibly unset. *)
Record State : Type := {
  url_to_short_id : option (gmap value str);
  sources : option (gmap str Source);
  research_evaluation : option Evaluation;
  final_cited_report : option str;
  final_report_with_citations : option str
}.

Definition empty_state : State :=
  {| url_to_short_id := None; sources := None; research_evaluation := None;
     final_cited_report := None; final_report_with_citations := None |}.

(** ** CitationRewriter: [citation_replacement_callback] *)

Module Citation.

(** [r'<cite\s+source\s*=\s*["\']?\s*(src-\d+)\s*["\']?\s*/>'] *)
Definition cite_re : regex :=
  {| re_pre := lit "<cite" ++ [Atom CSpace Plus] ++ lit "source" ++ [Atom CSpace Star]
               ++ lit "=" ++ [Atom CSpace Star; Atom quotes Opt; Atom CSpace Star];
     re_group := lit "src-" ++ [Atom CDigit Plus];
     re_post := [Atom CSpace Star; Atom quotes Opt; Atom CSpace Star] ++ lit "/>" |}.

(** [r"\s+([.,;:])"] *)
Definition punct_re : regex :=
  {| re_pre := [Atom CSpace Plus];
     re_group := [Atom (CSet (txt ".,;:")) One];
     re_post := [] |}.

(** The warning [tag_replacer] logs for a marker it removes. *)
Definition warning (m : rmatch) : str :=
  txt "Invalid citation tag found and removed: " ++ group0 m.

(** [source_info.get("title", source_info.get("domain", short_id))]:
    the value under [title] when the key is there, whatever it is. *)
Definition display_text (source_info : Source) (sid : str) : value :=
  match title source_info with
  | Some v => v
  | None =>
      match domain source_info with
      | Some v => v
      | None => Some sid
      end
  end.

(** [tag_replacer]: the replacement text, or the exception raised, and
    the warnings logged. *)
Definition tag_replacer (srcs : gmap str Source) (m : rmatch)
    : result str * list str :=
  let sid := group1 m in
  match srcs !! sid with
  | Some source_info =>
      if source_truthy source_info then
        match url source_info with
        | Some u =>
            (Ok (txt " [" ++ fmt (display_text source_info sid) ++ txt "](" ++ fmt u
                 ++ txt ")"), [])
        | None => (Raise (KeyError (txt "url")), [])
        end
      else (Ok [], [warning m])
  | None => (Ok [], [warning m])
  end.

(** [re.sub] with [tag_replacer] as replacement: pieces are rendered left
    to right, and an exception stops the substitution. *)
Fixpoint replace_pieces (srcs : gmap str Source) (ps : list piece)
    : result str * list str :=
  match ps with
  | [] => (Ok [], [])
  | Lit c :: ps' =>
      let '(r, log) := replace_pieces srcs ps' in
      (cons c <$> r, log)
  | Hit m :: ps' =>
      match tag_replacer srcs m with
      | (Ok t, w) =>
          let '(r, log) := replace_pieces srcs ps' in
          (app t <$> r, w ++ log)
      | (Raise e, w) => (Raise e, w)
      end
  end.

Definition substitute (srcs : gmap str Source) (s : str)
    : result str * list str :=
  replace_pieces srcs (scan cite_re 0 s).

(** [re.sub(r"\s+([.,;:])", r"\1", s)] *)
Definition normalise (s : str) : str :=
  re_sub punct_re group1 s.

(** The callback: the new state and the text of the returned [Content],
    or the exception raised; and the warnings logged on the way. *)
Definition citation_replacement_callback (st : State)
    : result (State * str) * list str :=
  let final_report := default (txt "") (final_cited_report st) in
  let srcs := default ∅ (sources st) in
  match substitute srcs final_report with
  | (Ok processed, log) =>
      let processed_report := normalise processed in
      (Ok ({| url_to_short_id := url_to_short_id st;
              sources := sources st;
              research_evaluation := research_evaluation st;
              final_cited_report := final_cited_report st;
              final_report_with_citations := Some processed_report |},
           processed_report), log)
  | (Raise e, log) => (Raise e, log)
  end.

(** The rewrite operation on a draft and a registry: the callback run
    on a state that holds them, the text it returns and the warnings. *)
Definition rewrite_draft (draft : str) (registry : gmap str Source)
    : result str * list str :=
  let '(r, log) :=
    citation_replacement_callback
      {| url_to_short_id := None; sources := Some registry; research_evaluation := None;
         final_cited_report := Some draft; final_report_with_citations := None |} in
  (snd <$> r, log).

(** What a marker becomes, in the words of the specification: a space
    and a link for a known short id, nothing for an unknown one.  The
    link text is what stands under [title], else under [domain], else
    the short id; the URL is what stands under [url].  Each is written
    as an f-string writes it. *)
Definition render (registry : gmap str Source) (p : piece) : str :=
  match p with
  | Lit c => [c]
  | Hit m =>
      let sid := group1 m in
      match registry !! sid with
      | Some info =>
          if source_truthy info then
            let display :=
              match title info, domain info with
              | Some t, _ => fmt t
              | None, Some d => fmt d
              | None, None => sid
              end in
            txt " [" ++ display ++ txt "](" ++ fmt (default None (url info)) ++ txt ")"
          else []
      | None => []
      end
  end.

(** The markers of a text: the matches [re.sub] finds in it. *)
Definition markers (s : str) : list rmatch :=
  omap (fun p => match p with Hit m => Some m | Lit _ => None end)
       (scan cite_re 0 s).

(** Every Source of the registry that counts as found has a [url]. *)
Definition has_urls (registry : gmap str Source) : Prop :=
  forall sid info, registry !! sid = Some info ->
    source_truthy info = true -> is_Some (url info).

(** The characters [<] and [>]. *)
Definition lt_char : char := 60%N.

Definition gt_char : char := 62%N.

End Citation.

(** ** SourceRegistry: [collect_research_sources_callback] *)

(** The grounding metadata of the search tool, as the callback reads it:
    every field of these types is optional ([None] by default), the
    leaf texts included, which the callback stores untested. *)
Module genai.

Record GroundingChunkWeb : Type := {
  uri : value;
  title : value;
  domain : value
}.

Record GroundingChunk : Type := {
  web : option GroundingChunkWeb
}.

Record Segment : Type := {
  text : value
}.

Record GroundingSupport : Type := {
  segment : option Segment;
  confidence_scores : option (list float);
  grounding_chunk_indices : option (list Z)
}.

Record GroundingMetadata : Type := {
  grounding_chunks : option (list GroundingChunk);
  grounding_supports : option (list GroundingSupport)
}.

Record Event : Type := {
  grounding_metadata : option GroundingMetadata
}.

End genai.

Module Registry.

(** [str(n)] for a non-negative int. *)
Definition str_of_nat (n : nat) : str :=
  txt (NilEmpty.string_of_uint (Nat.to_uint n)).

(** [f"src-{id_counter}"] *)
Definition mint_id (id_counter : nat) : str :=
  txt "src-" ++ str_of_nat id_counter.

(** [enumerate(l)] *)
Definition enumerate {A} (l : list A) : list (nat * A) :=
  combine (seq 0 (length l)) l.

(** [x or []] *)
Definition or_empty {A} (x : option (list A)) : list A := default [] x.

(** The three variables the callback's loops update. *)
Record Locals : Type := {
  l_url_to_short_id : gmap value str;
  l_sources : gmap str Source;
  l_id_counter : nat
}.

(** The body of the loop over [grounding_chunks] (lines 86-105).  The
    subscript [url_to_short_id[url]] that ends it reads the entry found
    or just written, so the two branches carry the short id along. *)
Definition chunk_step (st : Locals * gmap Z str) (ic : nat * genai.GroundingChunk)
    : Locals * gmap Z str :=
  let '(l, chunks_info) := st in
  let '(idx, chunk) := ic in
  match genai.web chunk with
  | None => st
  | Some w =>
      let url := genai.uri w in
      let title :=
        if bool_decide (genai.title w ≠ genai.domain w)
        then genai.title w else genai.domain w in
      match l_url_to_short_id l !! url with
      | None =>
          let short_id := mint_id (l_id_counter l) in
          ({| l_url_to_short_id := <[url := short_id]> (l_url_to_short_id l);
              l_sources :=
                <[short_id := {| short_id := Some short_id;
                                 title := Some title;
                                 url := Some url;
                                 domain := Some (genai.domain w);
                                 supported_claims := Some [] |}]> (l_sources l);
              l_id_counter := l_id_counter l + 1 |},
           <[Z.of_nat idx := short_id]> chunks_info)
      | Some short_id => (l, <[Z.of_nat idx := short_id]> chunks_info)
      end
  end.

(** [sources[sid]["supported_claims"].append(c)] *)
Definition append_claim (sid : str) (c : Claim) (srcs : gmap str Source)
    : result (gmap str Source) :=
  match srcs !! sid with
  | None => Raise (KeyError sid)
  | Some info =>
      match supported_claims info with
      | None => Raise (KeyError (txt "supported_claims"))
      | Some cs => Ok (<[sid := set_supported_claims info (cs ++ [c])]> srcs)
      end
  end.

(** The claim recorded for the [i]-th chunk index of [support]
    (lines 113-121): the text of the segment as it is, [None] included,
    and the empty text when the support has no segment. *)
Definition claim_of (support : genai.GroundingSupport) (i : nat) : Claim :=
  let confidence_scores := or_empty (genai.confidence_scores support) in
  {| text_segment :=
       match genai.segment support with
       | Some seg => genai.text seg
       | None => Some (txt "")
       end;
     confidence :=
       match confidence_scores !! i with
       | Some x => x        (* i < len(confidence_scores) *)
       | None => 0.5%float
       end |}.

(** The body of the loop over [enumerate(chunk_indices)] (lines 111-122). *)
Definition index_step (chunks_info : gmap Z str) (support : genai.GroundingSupport)
    (srcs : gmap str Source) (ii : nat * Z) : result (gmap str Source) :=
  let '(i, chunk_idx) := ii in
  match chunks_info !! chunk_idx with
  | Some sid => append_claim sid (claim_of support i) srcs
  | None => Ok srcs
  end.

(** A [for] loop whose body may raise. *)
Fixpoint for_each {A S} (body : S -> A -> result S) (l : list A) (s : S) : result S :=
  match l with
  | [] => Ok s
  | a :: l' => s' ← body s a; for_each body l' s'
  end.

(** The body of the loop over [grounding_supports] (lines 108-122). *)
Definition support_step (chunks_info : gmap Z str)
    (srcs : gmap str Source) (support : genai.GroundingSupport)
    : result (gmap str Source) :=
  let chunk_indices := or_empty (genai.grounding_chunk_indices support) in
  for_each (index_step chunks_info support) (enumerate chunk_indices) srcs.

(** Truth of an optional list: neither [None] nor empty. *)
Definition list_truthy {A} (x : option (list A)) : bool :=
  match x with
  | Some (_ :: _) => true
  | _ => false
  end.

(** The body of the loop over [session.events] (lines 82-122). *)
Definition event_step (l : Locals) (event : genai.Event) : result Locals :=
  match genai.grounding_metadata event with
  | None => Ok l
  | Some gm =>
      if negb (list_truthy (genai.grounding_chunks gm)) then Ok l
      else
        let '(l1, chunks_info) :=
          fold_left chunk_step (enumerate (or_empty (genai.grounding_chunks gm))) (l, ∅) in
        if list_truthy (genai.grounding_supports gm) then
          srcs ← for_each (support_step chunks_info)
                   (or_empty (genai.grounding_supports gm)) (l_sources l1);
          Ok {| l_url_to_short_id := l_url_to_short_id l1;
                l_sources := srcs;
                l_id_counter := l_id_counter l1 |}
        else Ok l1
  end.

(** Lines 78-80: the two dicts of the state, or empty ones, and the counter. *)
Definition load (st : State) : Locals :=
  let url_to_short_id := default ∅ (url_to_short_id st) in
  {| l_url_to_short_id := url_to_short_id;
     l_sources := default ∅ (sources st);
     l_id_counter := size url_to_short_id + 1 |}.

(** Lines 123-124. *)
Definition store (l : Locals) (st : State) : State :=
  {| url_to_short_id := Some (l_url_to_short_id l);
     sources := Some (l_sources l);
     research_evaluation := research_evaluation st;
     final_cited_report := final_cited_report st;
     final_report_with_citations := final_report_with_citations st |}.

(** The callback, on the events of the session ([session.events]) and the
    state. *)
Definition collect_research_sources_callback (events : list genai.Event) (st : State)
    : result State :=
  l ← for_each event_step events (load st);
  Ok (store l st).

(** Successive calls of the callback, each on its batch of events. *)
Definition record_all (batches : list (list genai.Event)) (st : State) : result State :=
  for_each (fun st events => collect_research_sources_callback events st) batches st.

End Registry.

(** ** EvaluationGate and RefinementLoop

    [EscalationChecker] and the [LoopAgent] of [research_pipeline].  The
    language model and the search tool are outside the code: a [World]
    gives what the [k]-th evaluation writes under [research_evaluation]
    and the events the [k]-th follow-up search adds to the session. *)

Module Loop.

(** An event an agent yields: its author and [actions.escalate]. *)
Record AgentEvent : Type := {
  author : str;
  escalate : bool
}.

(** [EscalationChecker._run_async_impl], on the session state. *)
Definition EscalationChecker_run_async_impl (name : str) (st : State) : list AgentEvent :=
  let evaluation_result := research_evaluation st in
  if match evaluation_result with
     | Some d => evaluation_truthy d && bool_decide (grade d = Some (txt "pass"))
     | None => false
     end
  then [{| author := name; escalate := true |}]
  else [{| author := name; escalate := false |}].

(** What the loop driver reads off a sub-agent's events. *)
Definition should_exit (evs : list AgentEvent) : bool := existsb escalate evs.

(** The gate's decision: does the checker's run stop the loop? *)
Definition should_stop (evaluation : option Evaluation) : bool :=
  should_exit
    (EscalationChecker_run_async_impl (txt "escalation_checker")
       {| url_to_short_id := None; sources := None; research_evaluation := evaluation;
          final_cited_report := None; final_report_with_citations := None |}).

Inductive Agent : Type :=
| research_evaluator
| enhanced_search_executor
| escalation_checker.

#[global] Instance Agent_eq_dec : EqDecision Agent.
Proof. solve_decision. Defined.

Record World : Type := {
  evaluate : nat -> Evaluation;
  search : nat -> list genai.Event
}.

(** A session: its state, its events, and the sub-agent runs so far. *)
Record Session : Type := {
  state : State;
  events : list genai.Event;
  steps : list Agent
}.

Definition count_steps (a : Agent) (s : Session) : nat :=
  length (filter (fun b => b = a) (steps s)).

Definition set_research_evaluation (st : State) (e : Evaluation) : State :=
  {| url_to_short_id := url_to_short_id st; sources := sources st;
     research_evaluation := Some e;
     final_cited_report := final_cited_report st;
     final_report_with_citations := final_report_with_citations st |}.

(** One run of a sub-agent: the evaluator writes its output under
    [research_evaluation] ([output_key]); the search executor adds the
    events of its searches and then runs
    [collect_research_sources_callback] ([after_agent_callback]). *)
Definition run_async (w : World) (a : Agent) (s : Session)
    : result (Session * list AgentEvent) :=
  match a with
  | research_evaluator =>
      let k := count_steps research_evaluator s in
      Ok ({| state := set_research_evaluation (state s) (evaluate w k);
             events := events s;
             steps := steps s ++ [a] |},
          [{| author := txt "research_evaluator"; escalate := false |}])
  | enhanced_search_executor =>
      let k := count_steps enhanced_search_executor s in
      let events' := events s ++ search w k in
      st' ← Registry.collect_research_sources_callback events' (state s);
      Ok ({| state := st'; events := events'; steps := steps s ++ [a] |},
          [{| author := txt "enhanced_search_executor"; escalate := false |}])
  | escalation_checker =>
      Ok ({| state := state s; events := events s; steps := steps s ++ [a] |},
          EscalationChecker_run_async_impl (txt "escalation_checker") (state s))
  end.

Record LoopAgent : Type := {
  max_iterations : option nat;
  sub_agents : list Agent
}.

(** How a run of the loop ends: a sub-agent escalated, or the iterations
    are used up. *)
Inductive Outcome : Type := Escalated | Exhausted.

(** One pass over the sub-agents, in order; [true] when one escalated,
    which ends the pass and the loop. *)
Fixpoint run_sub_agents (w : World) (agents : list Agent) (s : Session)
    : result (Session * bool) :=
  match agents with
  | [] => Ok (s, false)
  | a :: agents' =>
      r ← run_async w a s;
      if should_exit r.2 then Ok (r.1, true)
      else run_sub_agents w agents' r.1
  end.

(** [while not max_iterations or times_looped < max_iterations]: a bound
    of [None] or [0] is no bound. *)
Definition keep_looping (max_iterations : option nat) (times_looped : nat) : bool :=
  match max_iterations with
  | None | Some 0 => true
  | Some n => times_looped <? n
  end.

(** The loop driver.  Without a bound it need not end, so the run is
    cut after [fuel] passes: [None] is a run that wants more. *)
Fixpoint LoopAgent_run (fuel : nat) (w : World) (loop : LoopAgent)
    (times_looped : nat) (s : Session) : option (result (Session * Outcome)) :=
  match fuel with
  | 0 => None
  | S fuel' =>
      if keep_looping (max_iterations loop) times_looped then
        match run_sub_agents w (sub_agents loop) s with
        | Raise e => Some (Raise e)
        | Ok (s', true) => Some (Ok (s', Escalated))
        | Ok (s', false) => LoopAgent_run fuel' w loop (times_looped + 1) s'
        end
      else Some (Ok (s, Exhausted))
  end.

(** The loop of [research_pipeline] (lines 292-299). *)
Definition iterative_refinement_loop : LoopAgent :=
  {| max_iterations := Some 2;
     sub_agents := [research_evaluator; enhanced_search_executor] |}.

(** The same loop with an [EscalationChecker] between evaluation and
    follow-up search, as the class's docstring describes its use. *)
Definition gated_refinement_loop (n : nat) : LoopAgent :=
  {| max_iterations := Some n;
     sub_agents := [research_evaluator; escalation_checker; enhanced_search_executor] |}.

End Loop.

(* ================================================================== *)
(** * Vocabulary of the statements

    Notions the properties below are stated with: what a match tells
    about the text, the states the registry goes through and what they
    keep true, how one state of the registry follows another, and the
    examples of the specification. *)

Import Citation Registry Loop.

(** What an atom may take, by its quantifier. *)
Definition lexeme_ok (a : atom) (l : str) : Prop :=
  Forall (fun c => accepts (cls a) c = true) l /\
  match qt a with
  | One => length l = 1
  | Opt => length l <= 1
  | Star => True
  | Plus => 1 <= length l
  end.

(** A successful match splits the text into one lexeme per atom, each
    allowed by its atom, and the remainder. *)
Definition splits (p : list atom) (s : str) (res : lexemes) : Prop :=
  s = concat res.1 ++ res.2 /\ Forall2 lexeme_ok p res.1.

(** The result of a match with [t] added to the text left over. *)
Definition ext (t : str) (r : option lexemes) : option lexemes :=
  match r with
  | Some (ls, rst) => Some (ls, rst ++ t)
  | None => None
  end.

(** Class [k] takes nothing from the front of [u]. *)
Definition stops (k : cclass) (u : str) : Prop :=
  match u with
  | [] => True
  | c :: _ => accepts k c = false
  end.

(** No atom of [p] accepts [x]. *)
Definition rejects (x : char) (p : list atom) : Prop :=
  Forall (fun a => accepts (cls a) x = false) p.

(** Matching at a non-empty text does not look past [x]. *)
Definition local (r : regex) (x : char) : Prop :=
  forall c a b, re_match r (c :: a ++ x :: b) = re_match r (c :: a).

(** The atoms of the marker pattern between its [<] and its [>]. *)
Definition cite_body : list atom :=
  Eval vm_compute in removelast (tail (re_atoms cite_re)).

(** Neither whitespace nor one of [.,;:]. *)
Definition plain (x : char) : Prop :=
  is_space x = false /\ mem_char x (txt ".,;:") = false.

(** The warnings a list of pieces causes. *)
Definition warnings_of (registry : gmap str Source) (ps : list piece) : list str :=
  flat_map (fun p => match p with Lit _ => [] | Hit m => (tag_replacer registry m).2 end) ps.

(** The draft and the registry of the specification's example. *)
Definition example_draft : str :=
  txt "Fee <cite source=" ++ quoted (txt "src-1") ++ txt "/> , Bar.".

(** [src-1 -> {title: "Example", url: "http://x"}] *)
Definition example_registry : gmap str Source :=
  {[ txt "src-1" := {| short_id := None; title := Some (Some (txt "Example"));
                       url := Some (Some (txt "http://x"));
                       domain := None; supported_claims := None |} ]}.

(** What the callback keeps true of its three variables. *)
Record inv (l : Locals) : Prop := {
  inv_counter : l_id_counter l = size (l_url_to_short_id l) + 1;
  inv_minted : forall u sid, l_url_to_short_id l !! u = Some sid ->
    exists k, 1 <= k <= size (l_url_to_short_id l) /\ sid = mint_id k;
  inv_no_gap : forall k, 1 <= k <= size (l_url_to_short_id l) ->
    exists u, l_url_to_short_id l !! u = Some (mint_id k);
  inv_inj : forall u1 u2 sid,
    l_url_to_short_id l !! u1 = Some sid -> l_url_to_short_id l !! u2 = Some sid -> u1 = u2;
  inv_keys : forall sid, is_Some (l_sources l !! sid) ->
    exists u, l_url_to_short_id l !! u = Some sid;
  inv_source : forall u sid, l_url_to_short_id l !! u = Some sid ->
    exists info, l_sources l !! sid = Some info
                 /\ short_id info = Some sid /\ url info = Some u
                 /\ is_Some (supported_claims info)
}.

(** The states of the three variables that runs of the callback go
    through: from the empty session, by the body of the chunk loop, by
    the append of a claim, and from the end of one call to the start of
    the next. *)
Inductive reachable : Locals -> Prop :=
| reach_start : reachable (load empty_state)
| reach_chunk l chunks_info ic :
    reachable l -> reachable (chunk_step (l, chunks_info) ic).1
| reach_claim l sid c srcs :
    reachable l -> append_claim sid c (l_sources l) = Ok srcs ->
    reachable {| l_url_to_short_id := l_url_to_short_id l;
                 l_sources := srcs;
                 l_id_counter := l_id_counter l |}
| reach_call l st :
    reachable l -> reachable (load (store l st)).

(** [cs'] is [cs] with claims appended (or both lists are missing). *)
Definition claims_extend (o o' : option (list Claim)) : Prop :=
  match o, o' with
  | Some cs, Some cs' => exists new, cs' = cs ++ new
  | None, None => True
  | _, _ => False
  end.

(** Every Source of [srcs] is still in [srcs'], the same but for claims
    appended. *)
Definition grows (srcs srcs' : gmap str Source) : Prop :=
  forall sid info, srcs !! sid = Some info ->
    exists info', srcs' !! sid = Some info'
      /\ short_id info' = short_id info /\ title info' = title info
      /\ url info' = url info /\ domain info' = domain info
      /\ claims_extend (supported_claims info) (supported_claims info').

(** One state of the callback's variables follows another. *)
Definition follows (l l' : Locals) : Prop :=
  reachable l'
  /\ l_url_to_short_id l ⊆ l_url_to_short_id l'
  /\ grows (l_sources l) (l_sources l').

(** The short ids of [chunks_info] are short ids of the registry. *)
Definition chunks_known (l : Locals) (chunks_info : gmap Z str) : Prop :=
  forall idx sid, chunks_info !! idx = Some sid ->
    exists u, l_url_to_short_id l !! u = Some sid.

(** The URL [u] has a short id. *)
Definition known (l : Locals) (u : value) : Prop :=
  is_Some (l_url_to_short_id l !! u).

(** The URLs of a list of enumerated chunks. *)
Definition chunk_urls (ics : list (nat * genai.GroundingChunk)) : list value :=
  omap (fun ic => genai.uri <$> genai.web ic.2) ics.

(** The Source with [new] appended to its claims. *)
Definition add_claims (new : list Claim) (info : Source) : Source :=
  match supported_claims info with
  | Some cs => set_supported_claims info (cs ++ new)
  | None => info
  end.

(** The claims that the enumerated chunk indices [iis] of [support]
    contribute to the Source [sid]: one for each index that
    [chunks_info] maps to [sid], in order. *)
Definition claims_among (chunks_info : gmap Z str) (support : genai.GroundingSupport)
    (iis : list (nat * Z)) (sid : str) : list Claim :=
  omap (fun ii : nat * Z =>
          if decide (chunks_info !! ii.2 = Some sid)
          then Some (claim_of support ii.1) else None) iis.

(** The claims [support] contributes to the Source [sid]. *)
Definition claims_for (chunks_info : gmap Z str) (support : genai.GroundingSupport)
    (sid : str) : list Claim :=
  claims_among chunks_info support
    (enumerate (or_empty (genai.grounding_chunk_indices support))) sid.

(** Every short id of [chunks_info] has a Source with a list of claims. *)
Definition claims_ready (chunks_info : gmap Z str) (srcs : gmap str Source) : Prop :=
  forall idx sid, chunks_info !! idx = Some sid ->
    exists info, srcs !! sid = Some info /\ is_Some (supported_claims info).

(** The variables [l] with [sources] replaced. *)
Definition with_sources (l : Locals) (srcs : gmap str Source) : Locals :=
  {| l_url_to_short_id := l_url_to_short_id l;
     l_sources := srcs;
     l_id_counter := l_id_counter l |}.

(** The URLs of the web chunks of an event. *)
Definition event_urls (event : genai.Event) : list value :=
  match genai.grounding_metadata event with
  | Some gm => chunk_urls (enumerate (or_empty (genai.grounding_chunks gm)))
  | None => []
  end.

(** An event with one web chunk and one support that refers to it. *)
Definition example_event : genai.Event :=
  {| genai.grounding_metadata :=
       Some {| genai.grounding_chunks :=
                 Some [{| genai.web := Some {| genai.uri := Some (txt "http://a");
                                               genai.title := Some (txt "A");
                                               genai.domain := Some (txt "a.com") |} |}];
               genai.grounding_supports :=
                 Some [{| genai.segment := Some {| genai.text := Some (txt "seg") |};
                          genai.confidence_scores := Some [0.75%float];
                          genai.grounding_chunk_indices := Some [0%Z] |}] |} |}.

(** The claims recorded for a short id in a state. *)
Definition claims_at (st : State) (sid : str) : option (list Claim) :=
  info ← default ∅ (sources st) !! sid; supported_claims info.


(** A session with nothing in it yet. *)
Definition fresh_session : Session :=
  {| state := empty_state; events := []; steps := [] |}.

(** An evaluation result with grade [g]. *)
Definition graded (g : str) : Evaluation :=
  {| grade := Some g; comment := Some (txt "rationale"); follow_up_queries := None |}.


(** The first evaluation fails, the later ones pass. *)
Definition fail_then_pass : World :=
  {| evaluate := fun k => match k with 0 => graded (txt "fail") | _ => graded (txt "pass") end;
     search := fun _ => [example_event] |}.

(** The text a piece stands for. *)
Definition raw (p : piece) : str :=
  match p with
  | Lit c => [c]
  | Hit m => group0 m
  end.

(** One of [.,;:]. *)
Definition is_punct (c : char) : bool := mem_char c (txt ".,;:").

(** Somewhere in the text a whitespace character stands directly before
    one of [.,;:]. *)
Fixpoint space_before_punct (s : str) : bool :=
  match s with
  | c :: t =>
      match t with
      | p :: _ => (is_space c && is_punct p) || space_before_punct t
      | [] => false
      end
  | [] => false
  end.

(** Nothing, or one quote character. *)
Definition quote_opt (q : str) : Prop :=
  q = [] \/ exists c, q = [c] /\ accepts quotes c = true.

Definition spaces (w : str) : Prop := Forall (fun c => is_space c = true) w.

Definition digits (w : str) : Prop := Forall (fun c => is_digit c = true) w.

(** The text of a marker: [<cite], whitespace, [source], optional
    whitespace around [=], an optional quote with optional whitespace
    behind it, the short id [src-] and digits, optional whitespace, an
    optional quote, optional whitespace, [/>]. *)
Definition marker_text (ws1 ws2 ws3 q1 ws4 ds ws5 q2 ws6 : str) : str :=
  txt "<cite" ++ ws1 ++ txt "source" ++ ws2
  ++ txt "=" ++ ws3 ++ q1 ++ ws4
  ++ txt "src-" ++ ds ++ ws5 ++ q2 ++ ws6 ++ txt "/>".

(** The marker's short id is found, with a Source that has no [url]. *)
Definition lacks_url (registry : gmap str Source) (m : rmatch) : Prop :=
  exists info, registry !! (group1 m) = Some info
               /\ source_truthy info = true /\ url info = None.

(** [not (source_info := sources.get(short_id))] is false: the marker's
    short id has a Source, and it is not an empty dict. *)
Definition found (registry : gmap str Source) (m : rmatch) : bool :=
  match registry !! (group1 m) with
  | Some info => source_truthy info
  | None => false
  end.

(** The text with the matches of the marker pattern deleted. *)
Definition without_markers (s : str) : str :=
  re_sub cite_re (fun _ => []) s.

(** The link [tag_replacer] writes: a space, the link text between
    brackets and the URL between parentheses. *)
Definition link (display : value) (u : value) : str :=
  txt " [" ++ fmt display ++ txt "](" ++ fmt u ++ txt ")".

(** ** The pipeline: [research_pipeline]

    The [SequentialAgent] runs its sub-agents once each, in order:
    [section_planner], [section_researcher], the refinement loop and
    [report_composer].  The planner has no search tool and no callback
    and writes none of the keys modelled here.  The researcher adds the
    events of its searches and runs [collect_research_sources_callback];
    the composer writes its draft under [final_cited_report]
    ([output_key]) and runs [citation_replacement_callback]. *)

Module Pipeline.

Record Research : Type := {
  world : World;
  first_search : list genai.Event;
  compose : State -> str
}.

Definition set_final_cited_report (st : State) (draft : str) : State :=
  {| url_to_short_id := url_to_short_id st; sources := sources st;
     research_evaluation := research_evaluation st;
     final_cited_report := Some draft;
     final_report_with_citations := final_report_with_citations st |}.

Definition section_researcher_run (r : Research) (s : Session) : result Session :=
  let events' := events s ++ first_search r in
  st' ← collect_research_sources_callback events' (state s);
  Ok {| state := st'; events := events'; steps := steps s |}.

Definition report_composer_run (r : Research) (s : Session)
    : result (Session * str) * list str :=
  let st := set_final_cited_report (state s) (compose r (state s)) in
  match citation_replacement_callback st with
  | (Ok (st', out), log) =>
      (Ok ({| state := st'; events := events s; steps := steps s |}, out), log)
  | (Raise e, log) => (Raise e, log)
  end.

(** The run of the pipeline: the session it leaves and the text of the
    composer's [Content], or the exception; and the warnings logged.
    [None] is a run of the loop that wants more than [fuel] passes. *)
Definition research_pipeline_run (fuel : nat) (r : Research) (s : Session)
    : option (result (Session * str) * list str) :=
  match section_researcher_run r s with
  | Raise e => Some (Raise e, [])
  | Ok s1 =>
      match LoopAgent_run fuel (world r) iterative_refinement_loop 0 s1 with
      | None => None
      | Some (Raise e) => Some (Raise e, [])
      | Some (Ok (s2, _)) => Some (report_composer_run r s2)
      end
  end.

End Pipeline.

Import Pipeline.

(* ================================================================== *)
(** * Properties *)

(** The text of a literal, computed. *)
Ltac eval_txt :=
  repeat match goal with
         | |- context [txt ?s] =>
             let x := eval vm_compute in (txt s) in change (txt s) with x
         end.

(** ** The matcher *)

Section MatcherFacts.

Lemma push_inv l r ls rst :
  push l r = Some (ls, rst) -> exists ls', r = Some (ls', rst) /\ ls = l :: ls'.
Proof.
  destruct r as [[ls' rst']|]; simpl; intros H; [|discriminate].
  inversion H; subst. eauto.
Qed.

Lemma grow_inv c r ls rst :
  grow c r = Some (ls, rst) ->
  exists l ls', r = Some (l :: ls', rst) /\ ls = (c :: l) :: ls'.
Proof.
  destruct r as [[[|l ls'] rst']|]; simpl; intros H; try discriminate.
  inversion H; subst. eauto.
Qed.

Lemma star_sound k cont (P : str -> lexemes -> Prop) :
  (forall s res, cont s = Some res -> P s res) ->
  forall s res, star k cont s = Some res ->
    exists l ls rst, res = (l :: ls, rst) /\ Forall (fun c => accepts k c = true) l /\
      exists s', s = l ++ s' /\ P s' (ls, rst).
Proof.
  intros Hc. induction s as [|c s IH]; intros [ls rst] H; simpl in H.
  - apply push_inv in H as (ls' & E & ->). exists [], ls', rst.
    repeat split; [constructor|]. exists []. split; [done|]. by apply Hc.
  - destruct (accepts k c) eqn:Hk.
    + destruct (grow c (star k cont s)) as [r|] eqn:G.
      * inversion H; subst r. apply grow_inv in G as (l & ls' & E & ->).
        apply IH in E as (l0 & ls0 & rst0 & E0 & Hall & s' & -> & HP).
        inversion E0; subst. exists (c :: l0), ls0, rst0.
        repeat split; [by constructor|]. exists s'. done.
      * apply push_inv in H as (ls' & E & ->). exists [], ls', rst.
        repeat split; [constructor|]. exists (c :: s). split; [done|]. by apply Hc.
    + apply push_inv in H as (ls' & E & ->). exists [], ls', rst.
      repeat split; [constructor|]. exists (c :: s). split; [done|]. by apply Hc.
Qed.

Lemma match_atoms_sound p : forall s res, match_atoms p s = Some res -> splits p s res.
Proof.
  induction p as [|a p IH]; intros s [ls rst] H; simpl in H.
  - inversion H; subst. split; [done|constructor].
  - destruct a as [k q]; simpl in H. destruct q.
    + (* One *)
      destruct s as [|c s]; [discriminate|].
      destruct (accepts k c) eqn:Hk; [|discriminate].
      apply push_inv in H as (ls' & E & ->). apply IH in E as [E1 E2]; simpl in *.
      split; simpl; [by rewrite E1|].
      constructor; [|done]. split; simpl; [by repeat constructor|done].
    + (* Opt *)
      assert (Hnil : push [] (match_atoms p s) = Some (ls, rst) ->
                     splits ({| cls := k; qt := Opt |} :: p) s (ls, rst)).
      { intros H'. apply push_inv in H' as (ls' & E & ->).
        apply IH in E as [E1 E2]; simpl in *.
        split; simpl; [done|]. constructor; [|done]. split; simpl; [constructor|lia]. }
      destruct s as [|c s]; [by apply Hnil|].
      destruct (accepts k c) eqn:Hk; [|by apply Hnil].
      destruct (push [c] (match_atoms p s)) as [r|] eqn:G; [|by apply Hnil].
      inversion H; subst r. apply push_inv in G as (ls' & E & ->).
      apply IH in E as [E1 E2]; simpl in *.
      split; simpl; [by rewrite E1|].
      constructor; [|done]. split; simpl; [by repeat constructor|lia].
    + (* Star *)
      apply (star_sound k (match_atoms p) (splits p) IH) in H
        as (l & ls' & rst' & E & Hall & s' & -> & [E1 E2]).
      injection E as -> ->. simpl in *. split; simpl; [by rewrite E1, app_assoc|].
      constructor; [|done]. split; simpl; done.
    + (* Plus *)
      destruct s as [|c s]; [discriminate|].
      destruct (accepts k c) eqn:Hk; [|discriminate].
      apply grow_inv in H as (l & ls' & E & ->).
      apply (star_sound k (match_atoms p) (splits p) IH) in E
        as (l0 & ls0 & rst0 & E0 & Hall & s' & -> & [E1 E2]).
      injection E0 as -> -> ->. simpl in *. split; simpl; [by rewrite E1, app_assoc|].
      constructor; [|done]. split; simpl; [by constructor|lia].
Qed.

(** *** Locality: the matcher does not look past a character that no
    atom accepts *)

Lemma push_ext l t r : push l (ext t r) = ext t (push l r).
Proof. by destruct r as [[ls rst]|]. Qed.

Lemma grow_ext c t r : grow c (ext t r) = ext t (grow c r).
Proof. by destruct r as [[[|l ls] rst]|]. Qed.

Lemma star_stops k cont u : stops k u -> star k cont u = push [] (cont u).
Proof. destruct u as [|c u]; simpl; [done|]. by intros ->. Qed.

Lemma star_suffix k cont t u v :
  stops k u -> stops k v ->
  (forall a, cont (a ++ u) = ext t (cont (a ++ v))) ->
  forall a, star k cont (a ++ u) = ext t (star k cont (a ++ v)).
Proof.
  intros Hu Hv Hc. induction a as [|c a IH]; simpl.
  - rewrite !star_stops by done.
    by rewrite (Hc [] : cont u = ext t (cont v)), push_ext.
  - pose proof (Hc (c :: a) : cont (c :: a ++ u) = ext t (cont (c :: a ++ v))) as Hca.
    destruct (accepts k c).
    + rewrite IH, grow_ext.
      destruct (grow c (star k cont (a ++ v))) as [[ls rst]|]; simpl; [done|].
      by rewrite Hca, push_ext.
    + by rewrite Hca, push_ext.
Qed.

Lemma match_atoms_suffix p q t u v :
  Forall (fun a => stops (cls a) u /\ stops (cls a) v) p ->
  (forall a, match_atoms q (a ++ u) = ext t (match_atoms q (a ++ v))) ->
  forall a, match_atoms (p ++ q) (a ++ u) = ext t (match_atoms (p ++ q) (a ++ v)).
Proof.
  intros Hp Hq. induction Hp as [|[k qn] p [Hu Hv] Hp IH]; [done|].
  simpl in Hu, Hv. intros a. simpl. destruct qn.
  - destruct a as [|c a]; simpl.
    + destruct u as [|c u], v as [|d v]; simpl in *; rewrite ?Hu, ?Hv; done.
    + destruct (accepts k c); [|done]. by rewrite IH, push_ext.
  - assert (Hnil : forall w, stops k w ->
        match w with
        | [] => push [] (match_atoms (p ++ q) [])
        | c :: s' =>
            if accepts k c then
              match push [c] (match_atoms (p ++ q) s') with
              | Some r => Some r
              | None => push [] (match_atoms (p ++ q) w)
              end
            else push [] (match_atoms (p ++ q) w)
        end = push [] (match_atoms (p ++ q) w)).
    { intros [|c w]; simpl; [done|]. by intros ->. }
    destruct a as [|c a]; simpl.
    + rewrite !Hnil by done.
      by rewrite (IH [] : match_atoms (p ++ q) u = ext t (match_atoms (p ++ q) v)), push_ext.
    + pose proof (IH (c :: a) : match_atoms (p ++ q) (c :: a ++ u)
                                = ext t (match_atoms (p ++ q) (c :: a ++ v))) as Hca.
      destruct (accepts k c).
      * rewrite IH, push_ext.
        destruct (push [c] (match_atoms (p ++ q) (a ++ v))) as [[ls rst]|]; simpl; [done|].
        by rewrite Hca, push_ext.
      * by rewrite Hca, push_ext.
  - by apply star_suffix.
  - destruct a as [|c a]; simpl.
    + destruct u as [|c u], v as [|d v]; simpl in *; rewrite ?Hu, ?Hv; done.
    + destruct (accepts k c); [|done].
      rewrite (star_suffix k _ t u v) by done. by rewrite grow_ext.
Qed.

(** The matcher stops in front of a character no atom accepts. *)
Lemma match_atoms_local p x b :
  rejects x p ->
  forall a, match_atoms p (a ++ x :: b) = ext (x :: b) (match_atoms p a).
Proof.
  intros Hp a.
  pose proof (match_atoms_suffix p [] (x :: b) (x :: b) []) as H.
  rewrite !app_nil_r in H. rewrite <- (app_nil_r a) at 2. apply H.
  - eapply Forall_impl; [exact Hp|]. by intros a0 Ha.
  - intros a'. simpl. by rewrite app_nil_r.
Qed.

(** A pattern that ends in the literal [x], and accepts [x] nowhere
    before, does not look past the first [x]. *)
Lemma match_atoms_until p x b :
  rejects x p ->
  forall a, match_atoms (p ++ [Atom (CChar x) One]) (a ++ x :: b)
            = ext b (match_atoms (p ++ [Atom (CChar x) One]) (a ++ [x])).
Proof.
  intros Hp. apply match_atoms_suffix.
  - eapply Forall_impl; [exact Hp|]. by intros a0 Ha.
  - intros [|c a]; simpl.
    + by rewrite N.eqb_refl.
    + destruct (N.eqb c x); simpl; [|done]. by rewrite <- app_assoc.
Qed.

End MatcherFacts.

(** ** The scan of [re.sub] *)

Section ScanFacts.

Lemma re_match_ext r s1 s2 t :
  match_atoms (re_atoms r) s1 = ext t (match_atoms (re_atoms r) s2) ->
  re_match r s1 = re_match r s2.
Proof.
  unfold re_match. intros ->. by destruct (match_atoms (re_atoms r) s2) as [[ls rst]|].
Qed.

Lemma re_match_prefix r s m : re_match r s = Some m -> exists rst, s = group0 m ++ rst.
Proof.
  unfold re_match. destruct (match_atoms (re_atoms r) s) as [[ls rst]|] eqn:E; [|done].
  intros [= <-]. apply match_atoms_sound in E as [E _]. by exists rst.
Qed.

(** The scan in front of such a character is the scan of the text up to it. *)
Lemma scan_split r x b :
  re_match r [] = None -> local r x ->
  forall a k, k <= length a ->
    scan r k (a ++ x :: b) = scan r k a ++ scan r 0 (x :: b).
Proof.
  intros Hnil Hloc. induction a as [|c a IH]; intros k Hk; simpl in *.
  - assert (k = 0) as -> by lia. by rewrite Hnil.
  - destruct k as [|k]; [|apply IH; lia].
    rewrite (Hloc c a b : re_match r (c :: a ++ x :: b) = _).
    destruct (re_match r (c :: a)) as [m|] eqn:E.
    + apply re_match_prefix in E as [rst E].
      apply (f_equal length) in E. rewrite length_app in E. simpl in E.
      destruct (length (group0 m)) as [|n]; simpl.
      * by rewrite (IH 0) by lia.
      * by rewrite (IH n) by lia.
    + simpl. by rewrite (IH 0) by lia.
Qed.

(** Where no match starts, the text is copied. *)
Lemma scan_copy r s tl_ :
  Forall (fun c => forall s', re_match r (c :: s') = None) s ->
  scan r 0 (s ++ tl_) = map Lit s ++ scan r 0 tl_.
Proof.
  induction 1 as [|c s Hc _ IH]; simpl; [done|]. by rewrite Hc, IH.
Qed.

Lemma scan_chars r :
  forall s k p, In p (scan r k s) ->
    match p with
    | Lit c => In c s
    | Hit m => exists a b, s = a ++ group0 m ++ b /\ re_match r (group0 m ++ b) = Some m
    end.
Proof.
  induction s as [|c s IH]; intros k p Hp; simpl in Hp.
  - destruct k; [|done]. destruct (re_match r []) as [m|] eqn:E; [|done].
    destruct Hp as [<-|[]]. destruct (re_match_prefix _ _ _ E) as [rst Hr].
    destruct (group0 m); [|done]. exists [], []. by simpl in *.
  - assert (Hrec : forall k', In p (scan r k' s) ->
        match p with
        | Lit c0 => In c0 (c :: s)
        | Hit m => exists a b, c :: s = a ++ group0 m ++ b
                               /\ re_match r (group0 m ++ b) = Some m
        end).
    { intros k' H'. apply IH in H'. destruct p as [c0|m]; [by right|].
      destruct H' as (a & b & -> & Hm). by exists (c :: a), b. }
    destruct k as [|k]; [|by eapply Hrec].
    destruct (re_match r (c :: s)) as [m|] eqn:E.
    + assert (Hhit : p = Hit m ->
          match p with
          | Lit c0 => In c0 (c :: s)
          | Hit m => exists a b, c :: s = a ++ group0 m ++ b
                                 /\ re_match r (group0 m ++ b) = Some m
          end).
      { intros ->. destruct (re_match_prefix _ _ _ E) as [rst Hr].
        exists [], rst. simpl. by rewrite <- Hr. }
      destruct (length (group0 m)); simpl in Hp.
      * destruct Hp as [Hp|[Hp|Hp]]; [by apply Hhit| subst p; by left |by eapply Hrec].
      * destruct Hp as [Hp|Hp]; [by apply Hhit|by eapply Hrec].
    + destruct Hp as [Hp|Hp]; [subst p; by left|by eapply Hrec].
Qed.

End ScanFacts.

(** ** The two patterns of the rewriter *)

Section PatternFacts.

Lemma cite_atoms :
  re_atoms cite_re
  = (Atom (CChar lt_char) One :: cite_body) ++ [Atom (CChar gt_char) One].
Proof. reflexivity. Qed.

Lemma cite_body_rejects_lt : rejects lt_char (cite_body ++ [Atom (CChar gt_char) One]).
Proof. repeat constructor. Qed.

Lemma cite_body_rejects_gt : rejects gt_char (Atom (CChar lt_char) One :: cite_body).
Proof. repeat constructor. Qed.

Lemma match_one k p c s :
  match_atoms (Atom k One :: p) (c :: s)
  = if accepts k c then push [c] (match_atoms p s) else None.
Proof. reflexivity. Qed.

(** A marker starts with [<]. *)
Lemma cite_head c s : c <> lt_char -> re_match cite_re (c :: s) = None.
Proof.
  intros Hc. unfold re_match. rewrite cite_atoms. simpl app. rewrite match_one. simpl.
  by apply N.eqb_neq in Hc as ->.
Qed.

Lemma cite_nil : re_match cite_re [] = None.
Proof. reflexivity. Qed.

Lemma cite_local : local cite_re lt_char.
Proof.
  intros c a b. apply re_match_ext with (t := lt_char :: b).
  rewrite cite_atoms. simpl app. rewrite !match_one.
  destruct (accepts (CChar lt_char) c); [|done].
  rewrite match_atoms_local by apply cite_body_rejects_lt. by rewrite push_ext.
Qed.

(** The marker pattern does not look past the first [>]. *)
Lemma cite_until a b :
  re_match cite_re (a ++ gt_char :: b) = re_match cite_re (a ++ [gt_char]).
Proof.
  apply re_match_ext with (t := b). rewrite cite_atoms.
  apply match_atoms_until, cite_body_rejects_gt.
Qed.

Lemma punct_nil : re_match punct_re [] = None.
Proof. reflexivity. Qed.

Lemma punct_rejects x : plain x -> rejects x (re_atoms punct_re).
Proof. intros [H1 H2]. repeat constructor; simpl; done. Qed.

Lemma punct_local x : plain x -> local punct_re x.
Proof.
  intros Hx c a b. apply re_match_ext with (t := x :: b).
  by apply (match_atoms_local _ x b (punct_rejects x Hx) (c :: a)).
Qed.

Lemma punct_head x s : plain x -> re_match punct_re (x :: s) = None.
Proof. intros [H1 H2]. unfold re_match. simpl. by rewrite H1. Qed.

Lemma normalise_split x a b :
  plain x -> normalise (a ++ x :: b) = normalise a ++ x :: normalise b.
Proof.
  intros Hx. unfold normalise, re_sub.
  rewrite (scan_split punct_re x b punct_nil (punct_local x Hx) a 0) by lia.
  rewrite flat_map_app. f_equal. simpl. by rewrite punct_head.
Qed.

(** The normalization pass changes nothing in a text without [.,;:]. *)
Lemma normalise_id s :
  Forall (fun c => mem_char c (txt ".,;:") = false) s ->
  normalise s = s.
Proof.
  intros Hs. unfold normalise, re_sub.
  assert (Hnone : forall t, Forall (fun c => mem_char c (txt ".,;:") = false) t ->
                            re_match punct_re t = None).
  { intros t Ht. destruct (re_match punct_re t) as [m|] eqn:E; [|done]. exfalso.
    unfold re_match in E.
    destruct (match_atoms (re_atoms punct_re) t) as [[ls rst]|] eqn:E'; [|done].
    apply match_atoms_sound in E' as [E1 E2]. simpl in E1, E2.
    inversion E2 as [|? l1 ? ls1 _ E3]; subst.
    inversion E3 as [|? l2 ? ls2 [Hacc Hlen] E4]; subst. inversion E4; subst.
    simpl in Hlen. destruct l2 as [|c [|? ?]]; simpl in Hlen; try lia.
    inversion Hacc as [|? ? Hc _]; subst.
    change (mem_char c (txt ".,;:") = true) in Hc.
    rewrite Forall_forall in Ht. rewrite (Ht c) in Hc; [done|].
    simpl. set_solver. }
  induction s as [|c s IH]; [done|].
  simpl. rewrite (Hnone (c :: s) Hs). simpl. f_equal. apply IH. by inversion Hs.
Qed.

End PatternFacts.

(** ** CitationRewriter *)

Section RewriterFacts.

Lemma tag_replacer_render registry m :
  has_urls registry ->
  (tag_replacer registry m).1 = Ok (render registry (Hit m)).
Proof.
  intros Hu. unfold tag_replacer, render, display_text.
  destruct (registry !! group1 m) as [info|] eqn:E; [|done].
  destruct (source_truthy info) eqn:Ht; [|done].
  destruct (Hu _ _ E Ht) as [u Hurl]. rewrite Hurl. simpl.
  by destruct (title info), (domain info).
Qed.

Lemma replace_pieces_render registry ps :
  has_urls registry ->
  replace_pieces registry ps = (Ok (flat_map (render registry) ps), warnings_of registry ps).
Proof.
  intros Hu. induction ps as [|[c|m] ps IH]; simpl; [done| |].
  - by rewrite IH.
  - pose proof (tag_replacer_render registry m Hu) as Hm.
    destruct (tag_replacer registry m) as [[t|e] w]; simpl in Hm; [|done].
    injection Hm as ->. by rewrite IH.
Qed.

Lemma replace_pieces_lits registry t : replace_pieces registry (map Lit t) = (Ok t, []).
Proof. induction t as [|c t IH]; simpl; [done|]. by rewrite IH. Qed.

Lemma replace_pieces_app registry ps1 ps2 a la b lb :
  replace_pieces registry ps1 = (Ok a, la) ->
  replace_pieces registry ps2 = (Ok b, lb) ->
  replace_pieces registry (ps1 ++ ps2) = (Ok (a ++ b), la ++ lb).
Proof.
  intros H1 H2. revert a la H1.
  induction ps1 as [|[c|m] ps1 IH]; intros a la H1; simpl in *.
  - by injection H1 as <- <-.
  - destruct (replace_pieces registry ps1) as [[a'|e] la'] eqn:E; simpl in H1; [|done].
    injection H1 as <- <-. by rewrite (IH a' la' eq_refl).
  - destruct (tag_replacer registry m) as [[t|e] w]; [|done].
    destruct (replace_pieces registry ps1) as [[a'|e] la'] eqn:E; simpl in H1; [|done].
    injection H1 as <- <-. rewrite (IH a' la' eq_refl). simpl.
    by rewrite !app_assoc.
Qed.

(** [rewrite_draft] is the substitution pass followed by the normalization pass. *)
Lemma rewrite_unfold draft registry :
  rewrite_draft draft registry
  = match substitute registry draft with
    | (Ok processed, log) => (Ok (normalise processed), log)
    | (Raise e, log) => (Raise e, log)
    end.
Proof.
  unfold rewrite_draft, citation_replacement_callback. simpl.
  by destruct (substitute registry draft) as [[p|e] log].
Qed.

Lemma rewrite_ok_inv draft registry out log :
  rewrite_draft draft registry = (Ok out, log) ->
  exists processed,
    substitute registry draft = (Ok processed, log)
    /\ out = (normalise processed).
Proof.
  rewrite rewrite_unfold.
  destruct (substitute registry draft) as [[p|e] l]; [|done].
  intros [= <- <-]. eauto.
Qed.

End RewriterFacts.

Section UnrecognisedTags.

Lemma plain_lt : plain lt_char.
Proof. by split. Qed.

Lemma plain_gt : plain gt_char.
Proof. by split. Qed.

(** The scan around a tag [<body>] that the marker pattern does not
    recognise and whose body holds no [<]: the tag is copied, and the
    text before and after it is scanned as if it stood alone. *)
Lemma scan_tag P B Q :
  ~ In lt_char B ->
  re_match cite_re (lt_char :: B ++ [gt_char]) = None ->
  scan cite_re 0 (P ++ (lt_char :: B ++ [gt_char]) ++ Q)
  = scan cite_re 0 P ++ map Lit (lt_char :: B ++ [gt_char]) ++ scan cite_re 0 Q.
Proof.
  intros HB Hno.
  replace ((lt_char :: B ++ [gt_char]) ++ Q) with (lt_char :: (B ++ gt_char :: Q))
    by (simpl; by rewrite <- app_assoc).
  rewrite (scan_split cite_re lt_char _ cite_nil cite_local P 0) by lia.
  f_equal. cbn [scan].
  rewrite (cite_until (lt_char :: B) Q : re_match cite_re (lt_char :: B ++ gt_char :: Q) = _).
  simpl app in Hno |- *. rewrite Hno.
  rewrite scan_copy.
  - cbn [scan]. rewrite cite_head by done.
    rewrite map_app. simpl. by rewrite <- app_assoc.
  - apply List.Forall_forall. intros c Hc s'. apply cite_head. by intros ->.
Qed.

Lemma substitute_tag registry P B Q a la b lb :
  ~ In lt_char B ->
  re_match cite_re (lt_char :: B ++ [gt_char]) = None ->
  substitute registry P = (Ok a, la) ->
  substitute registry Q = (Ok b, lb) ->
  substitute registry (P ++ (lt_char :: B ++ [gt_char]) ++ Q)
  = (Ok (a ++ (lt_char :: B ++ [gt_char]) ++ b), la ++ lb).
Proof.
  intros HB Hno Ha Hb. unfold substitute in *. rewrite scan_tag by done.
  apply replace_pieces_app; [done|].
  rewrite <- (app_nil_l lb). apply replace_pieces_app; [|done].
  apply replace_pieces_lits.
Qed.

Lemma normalise_tag a B b :
  normalise (a ++ (lt_char :: B ++ [gt_char]) ++ b)
  = normalise a ++ normalise (lt_char :: B ++ [gt_char]) ++ normalise b.
Proof.
  replace ((lt_char :: B ++ [gt_char]) ++ b) with (lt_char :: (B ++ gt_char :: b))
    by (simpl; by rewrite <- app_assoc).
  rewrite (normalise_split lt_char a _ plain_lt).
  rewrite (normalise_split gt_char B b plain_gt).
  change (lt_char :: B ++ [gt_char]) with ([] ++ lt_char :: (B ++ gt_char :: [])).
  rewrite (normalise_split lt_char [] _ plain_lt).
  rewrite (normalise_split gt_char B [] plain_gt).
  change (normalise []) with (@nil char). simpl. by rewrite <- app_assoc.
Qed.

End UnrecognisedTags.

Section MarkerShape.

Lemma lexeme_one c l : lexeme_ok (Atom (CChar c) One) l -> l = [c].
Proof.
  intros [Hacc Hlen]. simpl in *. destruct l as [|d [|? ?]]; simpl in Hlen; try lia.
  inversion Hacc as [|? ? Hd _]; subst. simpl in Hd. by apply N.eqb_eq in Hd as ->.
Qed.

(** The short id a marker carries is [src-] followed by at least one digit. *)
Lemma marker_shape s m :
  re_match cite_re s = Some m ->
  exists ds, group1 m = txt "src-" ++ ds
             /\ ds <> [] /\ Forall (fun c => is_digit c = true) ds.
Proof.
  unfold re_match.
  destruct (match_atoms (re_atoms cite_re) s) as [[ls rst]|] eqn:E; [|done].
  intros [= <-]. apply match_atoms_sound in E as [_ E]. simpl in E.
  let x := eval vm_compute in (re_atoms cite_re) in change (re_atoms cite_re) with x in E.
  repeat match goal with
         | H : Forall2 _ (_ :: _) _ |- _ => inversion H; clear H; subst
         | H : Forall2 _ [] _ |- _ => inversion H; clear H; subst
         end.
  repeat match goal with
         | H : lexeme_ok (Atom (CChar _) One) _ |- _ => apply lexeme_one in H; subst
         end.
  cbn [re_pre re_group cite_re lit map length app take drop concat group1].
  match goal with
  | H : lexeme_ok (Atom CDigit Plus) ?l |- _ =>
      destruct H as [Hd Hn]; exists l
  end.
  simpl in Hd, Hn. split; [by rewrite app_nil_r|]. split; [|done].
  intros ->. simpl in Hn. lia.
Qed.

End MarkerShape.

(** ** Claims on the CitationRewriter *)

Section RewriterClaims.

(** C3, as the code behaves: on the draft [Fee <cite source="src-1"/> , Bar.]
    with a registry holding src-1 (title Example, url http://x), the
    rewrite returns [Fee  [Example](http://x), Bar.]: the comma is glued
    to the link, and the space the replacement puts before the link
    follows the space the draft already has after Fee, so that two
    spaces separate Fee from the link.  No warning is logged. *)
Theorem rewrite_example :
  rewrite_draft example_draft example_registry = (Ok (txt "Fee  [Example](http://x), Bar."), []).
Proof. vm_compute. reflexivity. Qed.

(** C3, as stated, fails: the text returned is not
    [Fee [Example](http://x), Bar.] with a single space. *)
Lemma rewrite_example_not_single_space :
  (rewrite_draft example_draft example_registry).1 <> Ok (txt "Fee [Example](http://x), Bar.").
Proof. vm_compute. discriminate. Qed.

End RewriterClaims.

Section MarkerRemoval.

Lemma markers_scan draft m :
  In m (markers draft) <-> In (Hit m) (scan cite_re 0 draft).
Proof.
  unfold markers. rewrite <- !list_elem_of_In, list_elem_of_omap. split.
  - intros ([c|m'] & Hin & Heq); [done|]. by injection Heq as ->.
  - intros Hin. by exists (Hit m).
Qed.

Lemma group1_in_group0 r s m c :
  re_match r s = Some m -> In c (group1 m) -> In c (group0 m).
Proof.
  unfold re_match. destruct (match_atoms (re_atoms r) s) as [[ls rst]|]; [|done].
  intros [= <-]. simpl. rewrite !in_concat. intros (l & Hl & Hc). exists l. split; [|done].
  apply list_elem_of_In. apply list_elem_of_In in Hl.
  by apply (subseteq_drop (length (re_pre r)) ls), (subseteq_take (length (re_group r))).
Qed.

(** The passes of the rewriter only copy characters of their input. *)
Lemma re_sub_group1_chars r s c : In c (re_sub r group1 s) -> In c s.
Proof.
  unfold re_sub. rewrite in_flat_map. intros ([d|m] & Hp & Hc).
  - apply scan_chars in Hp. destruct Hc as [<-|[]]. done.
  - apply scan_chars in Hp as (a & b & -> & Hm).
    rewrite !in_app_iff. right. left. by eapply group1_in_group0.
Qed.

(** A text without [<] holds no marker. *)
Lemma no_lt_no_marker s :
  ~ In lt_char (s) -> markers s = [].
Proof.
  intros Hs. destruct (markers s) as [|m ms] eqn:E; [done|]. exfalso.
  assert (Hm : In m (markers s)) by (rewrite E; by left).
  apply markers_scan, scan_chars in Hm as (a & b & Heq & Hm).
  destruct (group0 m ++ b) as [|c t] eqn:Et.
  - by rewrite cite_nil in Hm.
  - destruct (decide (c = lt_char)) as [->|Hc].
    + apply Hs. rewrite Heq. apply in_app_iff. right. by left.
    + by rewrite cite_head in Hm.
Qed.

End MarkerRemoval.


(** ** SourceRegistry *)

Section RegistryFacts.

Lemma txt_inj a b : txt a = txt b -> a = b.
Proof.
  unfold txt. intros H.
  rewrite <- (string_of_list_ascii_of_string a), <- (string_of_list_ascii_of_string b).
  f_equal. revert H. generalize (list_ascii_of_string a) (list_ascii_of_string b).
  induction l as [|x l IH]; intros [|y l'] H; simplify_eq/=; [done|].
  f_equal; [|by apply IH].
  rewrite <- (ascii_N_embedding x), <- (ascii_N_embedding y). by f_equal.
Qed.

Lemma str_of_nat_inj a b : str_of_nat a = str_of_nat b -> a = b.
Proof.
  unfold str_of_nat. intros H. apply txt_inj in H.
  apply DecimalNat.Unsigned.to_uint_inj.
  apply (f_equal NilEmpty.uint_of_string) in H.
  rewrite !NilEmpty.usu in H. by injection H.
Qed.

Lemma mint_id_inj a b : mint_id a = mint_id b -> a = b.
Proof. unfold mint_id. intros H. apply app_inv_head in H. by apply str_of_nat_inj. Qed.

Lemma inv_start : inv (load empty_state).
Proof.
  split; simpl; try done.
  - intros k. rewrite map_size_empty. lia.
  - intros sid [x Hx]. by rewrite lookup_empty in Hx.
Qed.

Lemma inv_chunk l chunks_info ic : inv l -> inv (chunk_step (l, chunks_info) ic).1.
Proof.
  intros Hl. destruct ic as [idx chunk]. unfold chunk_step.
  destruct (genai.web chunk) as [w|]; [|done].
  destruct (l_url_to_short_id l !! genai.uri w) as [sid|] eqn:E; [done|].
  destruct Hl as [Hc Hm Hg Hi Hk Hs]. simpl.
  set (u2s := l_url_to_short_id l) in *. set (url0 := genai.uri w) in *.
  assert (Hsz : size (<[url0 := mint_id (l_id_counter l)]> u2s) = S (size u2s))
    by by apply map_size_insert_None.
  assert (Hfresh : forall u, u2s !! u = Some (mint_id (l_id_counter l)) -> False).
  { intros u Hu. apply Hm in Hu as (k & Hk' & Heq). apply mint_id_inj in Heq. lia. }
  split; simpl; rewrite ?Hsz.
  - lia.
  - intros u sid. rewrite lookup_insert. case_decide as Hu.
    + intros [= <-]. exists (l_id_counter l). split; [lia|done].
    + intros H'. apply Hm in H' as (k & Hk' & ->). exists k. split; [lia|done].
  - intros k Hk'. destruct (decide (k = l_id_counter l)) as [->|Hne].
    + exists url0. by rewrite lookup_insert_eq.
    + destruct (Hg k) as [u Hu]; [lia|]. exists u.
      rewrite lookup_insert_ne; [done|]. intros <-. congruence.
  - intros u1 u2 sid. rewrite !lookup_insert.
    repeat case_decide; subst; try done.
    + intros [= <-] H2. by destruct (Hfresh u2).
    + intros H1 [= <-]. by destruct (Hfresh u1).
    + apply Hi.
  - intros sid. rewrite lookup_insert. case_decide as Hsid.
    + intros _. subst sid. exists url0. by rewrite lookup_insert_eq.
    + intros H'. apply Hk in H' as [u Hu]. exists u.
      rewrite lookup_insert_ne; [done|]. intros <-. congruence.
  - intros u sid. rewrite lookup_insert. case_decide as Hu.
    + intros [= <-]. subst u. rewrite lookup_insert_eq. eexists. split; [done|]. simpl.
      repeat split; by eexists.
    + intros H'. destruct (Hs _ _ H') as (info & Hinfo & Hrest).
      exists info. split; [|done]. rewrite lookup_insert_ne; [done|].
      intros <-. by destruct (Hfresh u).
Qed.

Lemma inv_claim l sid c srcs :
  inv l -> append_claim sid c (l_sources l) = Ok srcs ->
  inv {| l_url_to_short_id := l_url_to_short_id l;
         l_sources := srcs;
         l_id_counter := l_id_counter l |}.
Proof.
  intros [Hc Hm Hg Hi Hk Hs] Happ. unfold append_claim in Happ.
  destruct (l_sources l !! sid) as [info|] eqn:E; [|done].
  destruct (supported_claims info) as [cs|] eqn:Ecs; [|done].
  injection Happ as <-. split; simpl; try done.
  - intros sid'. rewrite lookup_insert. case_decide as Hsid.
    + intros _. subst sid'. apply Hk. by eexists.
    + apply Hk.
  - intros u sid' Hu. destruct (Hs _ _ Hu) as (info' & Hinfo' & H1 & H2 & H3).
    rewrite lookup_insert. case_decide as Hsid.
    + subst sid'. rewrite E in Hinfo'. injection Hinfo' as <-.
      eexists. split; [done|]. simpl. repeat split; try done.
    + exists info'. done.
Qed.

Lemma inv_call l st : inv l -> inv (load (store l st)).
Proof. intros [Hc Hm Hg Hi Hk Hs]. split; simpl; done. Qed.

Lemma reachable_inv l : reachable l -> inv l.
Proof.
  induction 1; [apply inv_start|by apply inv_chunk|by eapply inv_claim|by apply inv_call].
Qed.

End RegistryFacts.

Section RegistryRuns.

Lemma claims_extend_refl o : claims_extend o o.
Proof. destruct o as [cs|]; simpl; [|done]. exists []. by rewrite app_nil_r. Qed.

Lemma claims_extend_trans o1 o2 o3 :
  claims_extend o1 o2 -> claims_extend o2 o3 -> claims_extend o1 o3.
Proof.
  destruct o1 as [c1|], o2 as [c2|], o3 as [c3|]; simpl; try done.
  intros [n1 ->] [n2 ->]. exists (n1 ++ n2). by rewrite app_assoc.
Qed.

Lemma grows_refl srcs : grows srcs srcs.
Proof. intros sid info H. exists info. repeat split; try done. apply claims_extend_refl. Qed.

Lemma grows_trans s1 s2 s3 : grows s1 s2 -> grows s2 s3 -> grows s1 s3.
Proof.
  intros H12 H23 sid info H.
  destruct (H12 _ _ H) as (i2 & H2 & E1 & E2 & E3 & E4 & E5).
  destruct (H23 _ _ H2) as (i3 & H3 & F1 & F2 & F3 & F4 & F5).
  exists i3. repeat split; try congruence. by eapply claims_extend_trans.
Qed.

Lemma follows_refl l : reachable l -> follows l l.
Proof. intros H. repeat split; [done|done|apply grows_refl]. Qed.

Lemma follows_trans l1 l2 l3 : follows l1 l2 -> follows l2 l3 -> follows l1 l3.
Proof.
  intros (_ & S12 & G12) (R3 & S23 & G23). repeat split; [done| |].
  - by transitivity (l_url_to_short_id l2).
  - by eapply grows_trans.
Qed.

Lemma known_mono l l' u : follows l l' -> known l u -> known l' u.
Proof.
  intros (_ & Hsub & _) [sid Hu]. exists sid.
  by eapply lookup_weaken.
Qed.

Lemma chunk_step_follows l chunks_info ic :
  reachable l -> chunks_known l chunks_info ->
  let st := chunk_step (l, chunks_info) ic in
  follows l st.1 /\ chunks_known st.1 st.2
  /\ (forall u, In u (chunk_urls [ic]) -> known st.1 u)
  /\ ((forall u, In u (chunk_urls [ic]) -> known l u) -> st.1 = l).
Proof.
  intros Hr Hci st.
  assert (Hr' : reachable st.1) by by apply reach_chunk.
  subst st. destruct ic as [idx chunk]. unfold chunk_step, chunk_urls in *. simpl in *.
  destruct (genai.web chunk) as [w|]; simpl.
  2:{ split; [by apply follows_refl|]. split; [done|]. split; [by intros u []|done]. }
  destruct (l_url_to_short_id l !! genai.uri w) as [sid|] eqn:E; simpl in *.
  - split; [by apply follows_refl|]. split; [|split; [|done]].
    + intros i s. rewrite lookup_insert.
      destruct (decide (Z.of_nat idx = i)) as [_|_]; [|by apply Hci].
      intros [= <-]. by exists (genai.uri w).
    + intros u [<-|[]]. by exists sid.
  - pose proof (reachable_inv _ Hr) as [Hc Hm Hg Hi Hk Hs].
    assert (Hfresh : l_sources l !! mint_id (l_id_counter l) = None).
    { destruct (l_sources l !! mint_id (l_id_counter l)) as [x|] eqn:Ex; [|done]. exfalso.
      destruct (Hk (mint_id (l_id_counter l))) as [u Hu]; [by eexists|].
      apply Hm in Hu as (k & Hk' & Heq). apply mint_id_inj in Heq. lia. }
    split; [|split; [|split]].
    + repeat split; [done| |]; simpl.
      * by apply insert_subseteq.
      * intros s info Hinfo. exists info. rewrite lookup_insert_ne by congruence.
        repeat split; try done. apply claims_extend_refl.
    + intros i s. simpl. rewrite lookup_insert.
      destruct (decide (Z.of_nat idx = i)) as [_|_].
      * intros [= <-]. exists (genai.uri w). by rewrite lookup_insert_eq.
      * intros Hi'. destruct (Hci _ _ Hi') as [u Hu]. exists u.
        rewrite lookup_insert_ne; [done|]. congruence.
    + intros u [<-|[]]. unfold known. simpl. rewrite lookup_insert_eq. by eexists.
    + intros Hall. destruct (Hall (genai.uri w)) as [x Hx]; [by left|]. congruence.
Qed.

Lemma chunks_known_mono l l' chunks_info :
  follows l l' -> chunks_known l chunks_info -> chunks_known l' chunks_info.
Proof.
  intros (_ & Hsub & _) Hci idx sid H. destruct (Hci _ _ H) as [u Hu].
  exists u. by eapply lookup_weaken.
Qed.

Lemma chunk_urls_app a b : chunk_urls (a ++ b) = chunk_urls a ++ chunk_urls b.
Proof. unfold chunk_urls. by rewrite omap_app. Qed.

Lemma chunk_loop_follows ics : forall l chunks_info,
  reachable l -> chunks_known l chunks_info ->
  let st := fold_left chunk_step ics (l, chunks_info) in
  follows l st.1 /\ chunks_known st.1 st.2
  /\ (forall u, In u (chunk_urls ics) -> known st.1 u)
  /\ ((forall u, In u (chunk_urls ics) -> known l u) -> st.1 = l).
Proof.
  induction ics as [|ic ics IH]; intros l chunks_info Hr Hci; cbn [fold_left].
  - split; [by apply follows_refl|]. split; [done|]. split; [by intros u []|done].
  - destruct (chunk_step_follows l chunks_info ic Hr Hci) as (F1 & C1 & K1 & E1).
    destruct (chunk_step (l, chunks_info) ic) as [l1 ci1] eqn:Es. cbn [fst snd] in *.
    destruct (IH l1 ci1 (proj1 F1) C1) as (F2 & C2 & K2 & E2).
    change (ic :: ics) with ([ic] ++ ics). rewrite chunk_urls_app.
    split; [by eapply follows_trans|]. split; [done|]. split.
    + intros u Hu. apply in_app_iff in Hu as [Hu|Hu]; [|by apply K2].
      eapply known_mono; [exact F2|by apply K1].
    + intros Hall.
      assert (l1 = l) as -> by (apply E1; intros u Hu; apply Hall, in_app_iff; by left).
      apply E2. intros u Hu. apply Hall, in_app_iff. by right.
Qed.

End RegistryRuns.

Section SupportFacts.

Lemma add_claims_nil info : add_claims [] info = info.
Proof.
  unfold add_claims, set_supported_claims. destruct info as [a b c d [cs|]]; simpl; [|done].
  by rewrite app_nil_r.
Qed.

Lemma add_claims_app n1 n2 info :
  add_claims n2 (add_claims n1 info) = add_claims (n1 ++ n2) info.
Proof.
  unfold add_claims, set_supported_claims. destruct info as [a b c d [cs|]]; simpl; [|done].
  by rewrite app_assoc.
Qed.

Lemma append_claim_ready sid c srcs info :
  srcs !! sid = Some info -> is_Some (supported_claims info) ->
  append_claim sid c srcs = Ok (<[sid := add_claims [c] info]> srcs).
Proof.
  intros Hinfo [cs Hcs]. unfold append_claim, add_claims. by rewrite Hinfo, Hcs.
Qed.

Lemma claims_ready_insert chunks_info srcs sid new info :
  srcs !! sid = Some info ->
  claims_ready chunks_info srcs ->
  claims_ready chunks_info (<[sid := add_claims new info]> srcs).
Proof.
  intros Hinfo Hr idx s Hs. destruct (Hr _ _ Hs) as (info' & Hi' & Hc').
  rewrite lookup_insert. case_decide as Heq.
  - subst s. rewrite Hinfo in Hi'. injection Hi' as <-.
    eexists. split; [done|]. unfold add_claims.
    destruct Hc' as [cs ->]. simpl. by eexists.
  - by exists info'.
Qed.

Lemma claims_among_cons chunks_info support i idx iis sid :
  claims_among chunks_info support ((i, idx) :: iis) sid
  = if decide (chunks_info !! idx = Some sid)
    then claim_of support i :: claims_among chunks_info support iis sid
    else claims_among chunks_info support iis sid.
Proof.
  unfold claims_among. cbn [omap list_omap fst snd].
  by destruct (decide (chunks_info !! idx = Some sid)).
Qed.

Lemma bind_Ok {A B} (a : A) (f : A -> result B) : (Ok a ≫= f) = f a.
Proof. reflexivity. Qed.

Lemma index_loop_spec chunks_info support iis : forall srcs,
  claims_ready chunks_info srcs ->
  exists srcs',
    for_each (index_step chunks_info support) iis srcs = Ok srcs'
    /\ claims_ready chunks_info srcs'
    /\ forall sid, srcs' !! sid
                   = add_claims (claims_among chunks_info support iis sid) <$> srcs !! sid.
Proof.
  induction iis as [|[i idx] iis IH]; intros srcs Hr.
  - exists srcs. split; [done|]. split; [done|]. intros sid.
    change (claims_among chunks_info support [] sid) with (@nil Claim).
    destruct (srcs !! sid) as [info|]; simpl; [|done]. by rewrite add_claims_nil.
  - cbn [for_each].
    change (index_step chunks_info support srcs (i, idx))
      with (match chunks_info !! idx with
            | Some sid => append_claim sid (claim_of support i) srcs
            | None => Ok srcs
            end).
    destruct (chunks_info !! idx) as [s0|] eqn:E.
    + destruct (Hr _ _ E) as (info & Hinfo & Hcs).
      rewrite (append_claim_ready _ _ _ _ Hinfo Hcs), bind_Ok.
      destruct (IH (<[s0 := add_claims [claim_of support i] info]> srcs))
        as (srcs' & Hrun & Hr' & Hspec); [by apply claims_ready_insert|].
      exists srcs'. split; [done|]. split; [done|]. intros sid.
      rewrite Hspec, lookup_insert, claims_among_cons, E.
      destruct (decide (s0 = sid)) as [->|Hne].
      * rewrite decide_True by done. rewrite Hinfo. simpl.
        by rewrite add_claims_app.
      * rewrite decide_False by congruence. done.
    + rewrite bind_Ok. destruct (IH srcs Hr) as (srcs' & Hrun & Hr' & Hspec).
      exists srcs'. split; [done|]. split; [done|]. intros sid.
      rewrite Hspec, claims_among_cons, E.
      by rewrite decide_False by congruence.
Qed.

Lemma enumerate_lookup {A} (l : list A) i x :
  l !! i = Some x -> enumerate l !! i = Some (i, x).
Proof.
  unfold enumerate.
  assert (H : forall n i, l !! i = Some x ->
                          combine (seq n (length l)) l !! i = Some (n + i, x)).
  { induction l as [|a l IH]; intros n j H; [done|].
    destruct j as [|j]; simpl in *.
    - injection H as ->. by rewrite Nat.add_0_r.
    - rewrite (IH (S n) j H). by rewrite Nat.add_succ_r. }
  apply (H 0).
Qed.

End SupportFacts.

Section SupportClaims.

Lemma enumerate_In {A} (l : list A) i x : In (i, x) (enumerate l) <-> l !! i = Some x.
Proof.
  split; [|intros H; apply list_elem_of_In, list_elem_of_lookup; exists i;
           by apply enumerate_lookup].
  unfold enumerate.
  assert (H : forall n, In (i, x) (combine (seq n (length l)) l) ->
                        n <= i /\ l !! (i - n) = Some x).
  { induction l as [|a l IH]; intros n; simpl; [done|].
    intros [[= <- <-]|Hin].
    - split; [lia|]. by rewrite Nat.sub_diag.
    - destruct (IH (S n) Hin) as [Hle Hl]. split; [lia|].
      replace (i - n) with (S (i - S n)) by lia. done. }
  intros Hin. destruct (H 0 Hin) as [_ Hl]. by rewrite Nat.sub_0_r in Hl.
Qed.

(** C8, as the code behaves: for a grounding support, the loop over its
    chunk indices appends to each Source one claim for every index that
    the local mapping [chunks_info] sends to that Source, in order, and
    touches nothing else.  The claims recorded for a Source are exactly
    those of the positions [i] whose index the mapping sends to it; the
    claim of position [i] carries the [i]-th confidence score, or 0.5
    when the list of scores is absent or has no [i]-th entry, and as
    text the empty text when the support has no segment, and otherwise
    the segment's [text] as it is, which is [None] when the segment has
    no text. *)
Theorem support_claims_recorded (chunks_info : gmap Z str)
    (support : genai.GroundingSupport) (srcs : gmap str Source) :
  claims_ready chunks_info srcs ->
  exists srcs',
    support_step chunks_info srcs support = Ok srcs'
    /\ (forall sid, srcs' !! sid
                    = add_claims (claims_for chunks_info support sid) <$> srcs !! sid)
    /\ (forall sid c,
          In c (claims_for chunks_info support sid)
          <-> exists i idx,
                or_empty (genai.grounding_chunk_indices support) !! i = Some idx
                /\ chunks_info !! idx = Some sid
                /\ c = {| text_segment :=
                            match genai.segment support with
                            | Some seg => genai.text seg
                            | None => Some (txt "")
                            end;
                          confidence :=
                            match genai.confidence_scores support with
                            | Some scores =>
                                match scores !! i with
                                | Some x => x
                                | None => 0.5%float
                                end
                            | None => 0.5%float
                            end |})
    /\ (forall i scores,
          genai.confidence_scores support = Some scores -> length scores <= i ->
          confidence (claim_of support i) = 0.5%float)
    /\ (forall i seg,
          genai.segment support = Some seg -> genai.text seg = None ->
          text_segment (claim_of support i) = None).
Proof.
  intros Hr. unfold support_step.
  destruct (index_loop_spec chunks_info support
              (enumerate (or_empty (genai.grounding_chunk_indices support))) srcs Hr)
    as (srcs' & Hrun & _ & Hspec).
  exists srcs'. split; [done|]. split; [done|]. split; [|split].
  - intros sid c. unfold claims_for, claims_among.
    rewrite <- list_elem_of_In, list_elem_of_omap. split.
    + intros ([i idx] & Hin & Hc). simpl in Hc.
      destruct (decide (chunks_info !! idx = Some sid)) as [Hidx|]; [|done].
      injection Hc as <-. exists i, idx.
      apply list_elem_of_In, enumerate_In in Hin. split; [done|]. split; [done|].
      unfold claim_of, or_empty. by destruct (genai.confidence_scores support).
    + intros (i & idx & Hi & Hidx & ->). exists (i, idx). split.
      * by apply list_elem_of_In, enumerate_In.
      * simpl. rewrite decide_True by done. f_equal.
        unfold claim_of, or_empty. by destruct (genai.confidence_scores support).
  - intros i scores Hs Hlen. unfold claim_of, or_empty. rewrite Hs. simpl.
    by rewrite lookup_ge_None_2.
  - intros i seg Hseg Htext. unfold claim_of. simpl. by rewrite Hseg.
Qed.

(** A support over two chunk indices, the first known, with one score. *)
Lemma support_claims_recorded_witness :
  exists srcs',
    support_step {[ 0%Z := txt "src-1" ]}
      {[ txt "src-1" := {| short_id := Some (txt "src-1"); title := Some (Some (txt "A"));
                           url := Some (Some (txt "http://a"));
                           domain := Some (Some (txt "a.com"));
                           supported_claims := Some [] |} ]}
      {| genai.segment := Some {| genai.text := Some (txt "seg") |};
         genai.confidence_scores := Some [0.75%float];
         genai.grounding_chunk_indices := Some [0%Z; 5%Z] |}
    = Ok srcs'
    /\ srcs' !! txt "src-1"
       = Some {| short_id := Some (txt "src-1"); title := Some (Some (txt "A"));
                 url := Some (Some (txt "http://a"));
                 domain := Some (Some (txt "a.com"));
                 supported_claims :=
                   Some [{| text_segment := Some (txt "seg");
                            confidence := 0.75%float |}] |}.
Proof.
  destruct (support_claims_recorded {[ 0%Z := txt "src-1" ]}
      {| genai.segment := Some {| genai.text := Some (txt "seg") |};
         genai.confidence_scores := Some [0.75%float];
         genai.grounding_chunk_indices := Some [0%Z; 5%Z] |}
      {[ txt "src-1" := {| short_id := Some (txt "src-1"); title := Some (Some (txt "A"));
                           url := Some (Some (txt "http://a"));
                           domain := Some (Some (txt "a.com"));
                           supported_claims := Some [] |} ]})
    as (srcs' & Hrun & Hspec & _).
  - intros idx sid H. apply lookup_singleton_Some in H as [_ <-].
    eexists. split; [apply lookup_singleton_eq|]. by eexists.
  - exists srcs'. split; [exact Hrun|]. rewrite Hspec. vm_compute. reflexivity.
Defined.

(** C8, as stated, fails in its last part: a support whose segment is
    there but has no text (its [text] is [None]) records [None] as
    [text_segment], not the empty text; here with the default
    confidence, the list of scores being absent. *)
Lemma segment_without_text_records_none :
  (srcs' ← support_step {[ 0%Z := txt "src-1" ]}
             {[ txt "src-1" := {| short_id := Some (txt "src-1");
                                  title := Some (Some (txt "A"));
                                  url := Some (Some (txt "http://a"));
                                  domain := Some (Some (txt "a.com"));
                                  supported_claims := Some [] |} ]}
             {| genai.segment := Some {| genai.text := None |};
                genai.confidence_scores := None;
                genai.grounding_chunk_indices := Some [0%Z] |};
   Ok (info ← srcs' !! txt "src-1"; supported_claims info))
  = Ok (Some [{| text_segment := None; confidence := 0.5%float |}]).
Proof. vm_compute. reflexivity. Qed.

End SupportClaims.

Section CallbackRuns.

Lemma with_sources_same l : with_sources l (l_sources l) = l.
Proof. by destruct l. Qed.

Lemma grows_insert srcs sid new info :
  srcs !! sid = Some info -> grows srcs (<[sid := add_claims new info]> srcs).
Proof.
  intros Hinfo s i Hi. rewrite lookup_insert. case_decide as Heq.
  - subst s. rewrite Hinfo in Hi. injection Hi as <-.
    eexists. split; [done|]. unfold add_claims.
    destruct (supported_claims info) as [cs|] eqn:E; simpl.
    + repeat split; try done. by exists new.
    + repeat split; try done. by rewrite E.
  - exists i. repeat split; try done. apply claims_extend_refl.
Qed.

Lemma for_each_app {A S} (body : S -> A -> result S) (a b : list A) (s : S) :
  for_each body (a ++ b) s = (for_each body a s ≫= for_each body b).
Proof.
  revert s. induction a as [|x a IH]; intros s; simpl; [done|].
  destruct (body s x) as [s'|e]; simpl; [apply IH|done].
Qed.

Lemma index_loop_follows chunks_info support iis : forall l,
  reachable l -> chunks_known l chunks_info ->
  exists srcs',
    for_each (index_step chunks_info support) iis (l_sources l) = Ok srcs'
    /\ follows l (with_sources l srcs').
Proof.
  induction iis as [|[i idx] iis IH]; intros l Hr Hci.
  - exists (l_sources l). split; [done|]. rewrite with_sources_same. by apply follows_refl.
  - cbn [for_each].
    change (index_step chunks_info support (l_sources l) (i, idx))
      with (match chunks_info !! idx with
            | Some sid => append_claim sid (claim_of support i) (l_sources l)
            | None => Ok (l_sources l)
            end).
    destruct (chunks_info !! idx) as [s0|] eqn:E.
    + destruct (Hci _ _ E) as [u Hu].
      destruct (inv_source _ (reachable_inv _ Hr) _ _ Hu) as (info & Hinfo & _ & _ & Hcs).
      pose proof (append_claim_ready _ (claim_of support i) _ _ Hinfo Hcs) as Happ.
      rewrite Happ, bind_Ok.
      set (l1 := with_sources l (<[s0 := add_claims [claim_of support i] info]> (l_sources l))).
      assert (Hr1 : reachable l1) by by eapply reach_claim.
      destruct (IH l1 Hr1 Hci) as (srcs' & Hrun & Hf).
      exists srcs'. split; [done|].
      apply follows_trans with l1; [|done].
      repeat split; [done|done|]. by apply grows_insert.
    + rewrite bind_Ok. by apply IH.
Qed.

Lemma support_loop_follows chunks_info supports : forall l,
  reachable l -> chunks_known l chunks_info ->
  exists srcs',
    for_each (support_step chunks_info) supports (l_sources l) = Ok srcs'
    /\ follows l (with_sources l srcs').
Proof.
  induction supports as [|support supports IH]; intros l Hr Hci.
  - exists (l_sources l). split; [done|]. rewrite with_sources_same. by apply follows_refl.
  - cbn [for_each].
    change (support_step chunks_info (l_sources l) support)
      with (for_each (index_step chunks_info support)
              (enumerate (or_empty (genai.grounding_chunk_indices support))) (l_sources l)).
    destruct (index_loop_follows chunks_info support
                (enumerate (or_empty (genai.grounding_chunk_indices support))) l Hr Hci)
      as (srcs1 & Hrun1 & Hf1).
    rewrite Hrun1, bind_Ok.
    destruct (IH (with_sources l srcs1) (proj1 Hf1) Hci) as (srcs' & Hrun & Hf).
    exists srcs'. split; [done|]. by apply follows_trans with (with_sources l srcs1).
Qed.

Lemma list_truthy_false {A} (x : option (list A)) :
  list_truthy x = false -> or_empty x = [].
Proof. by destruct x as [[|a l]|]. Qed.

Lemma event_step_follows l event :
  reachable l ->
  exists l',
    event_step l event = Ok l'
    /\ follows l l'
    /\ (forall u, In u (event_urls event) -> known l' u)
    /\ ((forall u, In u (event_urls event) -> known l u) ->
        l_url_to_short_id l' = l_url_to_short_id l).
Proof.
  intros Hr. unfold event_step, event_urls.
  destruct (genai.grounding_metadata event) as [gm|].
  2:{ exists l. split; [done|]. split; [by apply follows_refl|]. split; [by intros u []|done]. }
  destruct (list_truthy (genai.grounding_chunks gm)) eqn:Et; simpl.
  2:{ rewrite (list_truthy_false _ Et).
      exists l. split; [done|]. split; [by apply follows_refl|]. split; [by intros u []|done]. }
  destruct (chunk_loop_follows (enumerate (or_empty (genai.grounding_chunks gm))) l ∅ Hr)
    as (F1 & C1 & K1 & E1); [by intros idx sid H|].
  destruct (fold_left chunk_step (enumerate (or_empty (genai.grounding_chunks gm))) (l, ∅))
    as [l1 chunks_info]. simpl in *.
  destruct (list_truthy (genai.grounding_supports gm)).
  - destruct (support_loop_follows chunks_info (or_empty (genai.grounding_supports gm))
                l1 (proj1 F1) C1) as (srcs' & Hrun & Hf).
    rewrite Hrun, bind_Ok. exists (with_sources l1 srcs').
    split; [done|]. split; [by eapply follows_trans|]. split.
    + intros u Hu. eapply known_mono; [exact Hf|by apply K1].
    + intros Hall. simpl. by rewrite (E1 Hall).
  - exists l1. split; [done|]. split; [done|]. split; [done|].
    intros Hall. by rewrite (E1 Hall).
Qed.

Lemma events_follows events : forall l,
  reachable l ->
  exists l',
    for_each event_step events l = Ok l'
    /\ follows l l'
    /\ (forall u, In u (flat_map event_urls events) -> known l' u)
    /\ ((forall u, In u (flat_map event_urls events) -> known l u) ->
        l_url_to_short_id l' = l_url_to_short_id l).
Proof.
  induction events as [|event events IH]; intros l Hr.
  - exists l. split; [done|]. split; [by apply follows_refl|]. split; [by intros u []|done].
  - cbn [for_each flat_map].
    destruct (event_step_follows l event Hr) as (l1 & Hrun1 & F1 & K1 & E1).
    rewrite Hrun1, bind_Ok.
    destruct (IH l1 (proj1 F1)) as (l' & Hrun & F2 & K2 & E2).
    exists l'. split; [done|]. split; [by eapply follows_trans|]. split.
    + intros u Hu. apply in_app_iff in Hu as [Hu|Hu]; [|by apply K2].
      eapply known_mono; [exact F2|by apply K1].
    + intros Hall.
      assert (H1 : l_url_to_short_id l1 = l_url_to_short_id l).
      { apply E1. intros u Hu. apply Hall, in_app_iff. by left. }
      rewrite <- H1. apply E2. intros u Hu. unfold known. rewrite H1.
      apply Hall, in_app_iff. by right.
Qed.

Lemma callback_follows events st :
  reachable (load st) ->
  exists st',
    collect_research_sources_callback events st = Ok st'
    /\ follows (load st) (load st')
    /\ (forall u, In u (flat_map event_urls events) -> known (load st') u)
    /\ ((forall u, In u (flat_map event_urls events) -> known (load st) u) ->
        l_url_to_short_id (load st') = l_url_to_short_id (load st)).
Proof.
  intros Hr. unfold collect_research_sources_callback.
  destruct (events_follows events (load st) Hr) as (l' & Hrun & (R & Su & G) & K & E).
  rewrite Hrun, bind_Ok. exists (store l' st). split; [done|].
  split; [|split; [exact K|exact E]].
  repeat split; [by apply reach_call|exact Su|exact G].
Qed.

Lemma record_all_follows batches : forall st,
  reachable (load st) ->
  exists st',
    record_all batches st = Ok st'
    /\ follows (load st) (load st')
    /\ (forall u, In u (flat_map (flat_map event_urls) batches) -> known (load st') u).
Proof.
  unfold record_all. induction batches as [|events batches IH]; intros st Hr.
  - exists st. split; [done|]. split; [by apply follows_refl|]. by intros u [].
  - cbn [for_each flat_map].
    destruct (callback_follows events st Hr) as (st1 & Hrun1 & F1 & K1 & _).
    rewrite Hrun1, bind_Ok.
    destruct (IH st1 (proj1 F1)) as (st' & Hrun & F2 & K2).
    exists st'. split; [done|]. split; [by eapply follows_trans|].
    intros u Hu. apply in_app_iff in Hu as [Hu|Hu]; [|by apply K2].
    eapply known_mono; [exact F2|by apply K1].
Qed.

(** A URL in [url_to_short_id] was there before or comes from a chunk. *)
Lemma chunk_step_origin l chunks_info ic u :
  known (chunk_step (l, chunks_info) ic).1 u -> known l u \/ In u (chunk_urls [ic]).
Proof.
  destruct ic as [idx chunk]. unfold chunk_step, chunk_urls, known. simpl.
  destruct (genai.web chunk) as [w|]; simpl; [|by left].
  destruct (l_url_to_short_id l !! genai.uri w) as [sid|] eqn:E; simpl; [by left|].
  rewrite lookup_insert. case_decide as Heq; [|by left].
  intros _. right. by left.
Qed.

Lemma chunk_loop_origin ics : forall l chunks_info u,
  known (fold_left chunk_step ics (l, chunks_info)).1 u ->
  known l u \/ In u (chunk_urls ics).
Proof.
  induction ics as [|ic ics IH]; intros l chunks_info u; cbn [fold_left]; [by left|].
  destruct (chunk_step (l, chunks_info) ic) as [l1 ci1] eqn:Es.
  intros Hu. change (ic :: ics) with ([ic] ++ ics). rewrite chunk_urls_app, in_app_iff.
  apply IH in Hu as [Hu|Hu]; [|by right; right].
  pose proof (chunk_step_origin l chunks_info ic u) as Ho. rewrite Es in Ho.
  destruct (Ho Hu); [by left|by right; left].
Qed.

Lemma event_step_origin l event l' u :
  event_step l event = Ok l' -> known l' u -> known l u \/ In u (event_urls event).
Proof.
  unfold event_step, event_urls.
  destruct (genai.grounding_metadata event) as [gm|]; [|intros [= <-]; by left].
  destruct (list_truthy (genai.grounding_chunks gm)); simpl; [|intros [= <-]; by left].
  pose proof (chunk_loop_origin (enumerate (or_empty (genai.grounding_chunks gm))) l ∅ u) as Ho.
  destruct (fold_left chunk_step (enumerate (or_empty (genai.grounding_chunks gm))) (l, ∅))
    as [l1 chunks_info]. simpl in Ho.
  destruct (list_truthy (genai.grounding_supports gm)); [|intros [= <-]; exact Ho].
  destruct (for_each (support_step chunks_info) (or_empty (genai.grounding_supports gm))
              (l_sources l1)) as [srcs'|e]; simpl; [|done].
  intros [= <-]. exact Ho.
Qed.

Lemma events_origin events : forall l l' u,
  for_each event_step events l = Ok l' -> known l' u ->
  known l u \/ In u (flat_map event_urls events).
Proof.
  induction events as [|event events IH]; intros l l' u; cbn [for_each flat_map].
  - intros [= <-]. by left.
  - destruct (event_step l event) as [l1|e] eqn:E1; simpl; [|done].
    intros Hrun Hu. rewrite in_app_iff.
    destruct (IH _ _ _ Hrun Hu) as [H1|H1]; [|by right; right].
    destruct (event_step_origin _ _ _ _ E1 H1); [by left|by right; left].
Qed.

Lemma callback_origin events st st' u :
  collect_research_sources_callback events st = Ok st' -> known (load st') u ->
  known (load st) u \/ In u (flat_map event_urls events).
Proof.
  unfold collect_research_sources_callback.
  destruct (for_each event_step events (load st)) as [l1|e] eqn:E1; simpl; [|done].
  intros [= <-] Hu. apply (events_origin events (load st) l1 u E1). exact Hu.
Qed.


End CallbackRuns.

Section RegistryClaims.



Lemma record_all_app a b st :
  record_all (a ++ b) st = (record_all a st ≫= record_all b).
Proof. apply for_each_app. Qed.

Lemma record_all_cons events batches st :
  record_all ((events :: []) ++ batches) st
  = (collect_research_sources_callback events st ≫= record_all batches).
Proof. reflexivity. Qed.

(** C4, as the code behaves: when a batch of events has been processed by
    a call of the callback (other calls may have come before and after),
    a further call on the same batch returns, leaves [url_to_short_id]
    as it is, adds no key to [sources] and removes none, and leaves each
    Source's short id, title, url and domain as they are; its list of
    claims keeps what it had and gets the claims of the batch's supports
    appended once more. *)
Theorem record_again (before : list (list genai.Event)) (events : list genai.Event)
    (after : list (list genai.Event)) :
  exists st1 st2,
    record_all (before ++ [events] ++ after) empty_state = Ok st1
    /\ collect_research_sources_callback events st1 = Ok st2
    /\ l_url_to_short_id (load st2) = l_url_to_short_id (load st1)
    /\ dom (l_sources (load st2)) = dom (l_sources (load st1))
    /\ grows (l_sources (load st1)) (l_sources (load st2)).
Proof.
  rewrite record_all_app.
  destruct (record_all_follows before empty_state reach_start) as (sa & Ha & Fa & _).
  rewrite Ha, bind_Ok, record_all_cons.
  destruct (callback_follows events sa (proj1 Fa)) as (sb & Hb & Fb & Kb & _).
  rewrite Hb, bind_Ok.
  destruct (record_all_follows after sb (proj1 Fb)) as (st1 & H1 & F1 & _).
  rewrite H1.
  destruct (callback_follows events st1 (proj1 F1)) as (st2 & H2 & F2 & _ & E2).
  exists st1, st2. split; [done|]. split; [done|].
  assert (Hsame : l_url_to_short_id (load st2) = l_url_to_short_id (load st1)).
  { apply E2. intros u Hu. eapply known_mono; [exact F1|by apply Kb]. }
  split; [done|]. split; [|by destruct F2 as (_ & _ & G)].
  apply set_eq. intros sid. rewrite !elem_of_dom. split.
  - intros Hs. destruct (inv_keys _ (reachable_inv _ (proj1 F2)) sid Hs) as [u Hu].
    rewrite Hsame in Hu.
    destruct (inv_source _ (reachable_inv _ (proj1 F1)) _ _ Hu) as (info & Hinfo & _).
    by eexists.
  - intros [info Hinfo]. destruct F2 as (_ & _ & G).
    destruct (G _ _ Hinfo) as (info' & Hinfo' & _). by eexists.
Qed.

(** C4, as stated, fails: after one call on [example_event] the Source
    src-1 has one claim; a second call on the same event, which brings
    no new support, leaves it with two. *)
Lemma record_again_repeats_claims :
  (st1 ← record_all [[example_event]] empty_state;
   st2 ← collect_research_sources_callback [example_event] st1;
   Ok (claims_at st1 (txt "src-1"), claims_at st2 (txt "src-1")))
  = Ok (Some [{| text_segment := Some (txt "seg"); confidence := 0.75%float |}],
        Some [{| text_segment := Some (txt "seg"); confidence := 0.75%float |};
              {| text_segment := Some (txt "seg"); confidence := 0.75%float |}]).
Proof. vm_compute. reflexivity. Qed.

End RegistryClaims.

(** ** EvaluationGate and RefinementLoop *)

Section LoopClaims.

(** The checker's events depend on the state through
    [research_evaluation] only. *)
Lemma checker_decides name st :
  EscalationChecker_run_async_impl name st
  = [{| author := name; escalate := should_stop (research_evaluation st) |}].
Proof.
  unfold should_stop, should_exit, EscalationChecker_run_async_impl. simpl.
  destruct (research_evaluation st) as [d|]; [|done].
  by destruct (evaluation_truthy d && bool_decide (grade d = Some (txt "pass"))).
Qed.

(** C6: the gate stops the loop exactly when an evaluation result is
    present and its grade is pass; it does not when the result is absent
    nor when the grade is fail.  The decision is the [escalate] flag of
    the one event [EscalationChecker] yields on a state holding that
    result. *)
Theorem should_stop_iff_pass (evaluation : option Evaluation) :
  (should_stop evaluation = true
   <-> exists d, evaluation = Some d /\ grade d = Some (txt "pass"))
  /\ should_stop None = false
  /\ (forall d, grade d = Some (txt "fail") -> should_stop (Some d) = false)
  /\ (forall name st,
        research_evaluation st = evaluation ->
        EscalationChecker_run_async_impl name st
        = [{| author := name; escalate := should_stop evaluation |}]).
Proof.
  assert (Hiff : forall d,
            evaluation_truthy d && bool_decide (grade d = Some (txt "pass")) = true
            <-> grade d = Some (txt "pass")).
  { intros d. rewrite andb_true_iff, bool_decide_eq_true. split; [by intros [_ H]|].
    intros H. split; [|done]. unfold evaluation_truthy. rewrite H. done. }
  split; [|split; [done|split]].
  - unfold should_stop, should_exit, EscalationChecker_run_async_impl. simpl.
    destruct evaluation as [d|].
    + destruct (evaluation_truthy d && bool_decide (grade d = Some (txt "pass"))) eqn:E; simpl.
      * split; [|done]. intros _. exists d. split; [done|]. by apply Hiff.
      * split; [done|]. intros (d' & [= <-] & Hd). apply Hiff in Hd. congruence.
    + split; [done|]. by intros (d & ? & _).
  - intros d Hd. unfold should_stop, should_exit, EscalationChecker_run_async_impl. simpl.
    destruct (evaluation_truthy d && bool_decide (grade d = Some (txt "pass"))) eqn:E; [|done].
    apply Hiff in E. rewrite Hd in E. vm_compute in E. discriminate E.
  - intros name st <-. apply checker_decides.
Qed.

Lemma count_steps_snoc a b s st evs :
  count_steps a {| state := st; events := evs; steps := steps s ++ [b] |}
  = count_steps a s + (if decide (b = a) then 1 else 0).
Proof.
  unfold count_steps. simpl. rewrite filter_app, length_app. f_equal.
  rewrite filter_cons, filter_nil. by destruct (decide (b = a)).
Qed.





(** C1 on the code: in the loop of [research_pipeline], whose sub-agents
    are the evaluator and the search executor only, a passing evaluation
    stops nothing.  With bound 2 and grades fail, then pass, the loop
    makes two evaluation steps and two follow-up-search steps, the second
    after the passing evaluation, and ends Exhausted. *)
Theorem pipeline_loop_ignores_pass :
  exists s',
    LoopAgent_run 3 fail_then_pass iterative_refinement_loop 0 fresh_session
    = Some (Ok (s', Exhausted))
    /\ steps s' = [research_evaluator; enhanced_search_executor;
                   research_evaluator; enhanced_search_executor]
    /\ count_steps research_evaluator s' = 2
    /\ count_steps enhanced_search_executor s' = 2
    /\ should_stop (research_evaluation (state s')) = true.
Proof. eexists. vm_compute. repeat split; reflexivity. Qed.

(** One pass of the loop with the checker in it: an evaluation, then
    either the end of the loop or a follow-up search. *)
Lemma gated_pass w n s :
  reachable (load (state s)) ->
  exists s',
    run_sub_agents w (sub_agents (gated_refinement_loop n)) s
    = Ok (s', should_stop (Some (evaluate w (count_steps research_evaluator s))))
    /\ reachable (load (state s'))
    /\ count_steps research_evaluator s' = count_steps research_evaluator s + 1
    /\ count_steps enhanced_search_executor s'
       = count_steps enhanced_search_executor s
         + (if should_stop (Some (evaluate w (count_steps research_evaluator s)))
            then 0 else 1).
Proof.
  intros Hr.
  set (e := evaluate w (count_steps research_evaluator s)).
  set (s1 := {| state := set_research_evaluation (state s) e;
                events := events s; steps := steps s ++ [research_evaluator] |}).
  set (s2 := {| state := state s1; events := events s1;
                steps := steps s1 ++ [escalation_checker] |}).
  destruct (callback_follows
              (events s2 ++ search w (count_steps enhanced_search_executor s2))
              (state s2) Hr) as (st' & Hrun & F & _).
  cbn [gated_refinement_loop sub_agents run_sub_agents].
  change (run_async w research_evaluator s)
    with (Ok (s1, [{| author := txt "research_evaluator"; escalate := false |}])).
  rewrite bind_Ok. cbn [snd fst should_exit existsb escalate orb].
  change (run_async w escalation_checker s1)
    with (Ok (s2, EscalationChecker_run_async_impl (txt "escalation_checker") (state s1))).
  rewrite bind_Ok, checker_decides.
  cbn [snd fst should_exit existsb escalate orb research_evaluation state
       set_research_evaluation s1].
  rewrite orb_false_r.
  destruct (should_stop (Some e)) eqn:Hstop.
  - exists s2. split; [done|]. split; [done|].
    subst s2 s1. rewrite !count_steps_snoc.
    split; repeat case_decide; try done; lia.
  - cbn [run_async]. rewrite Hrun, !bind_Ok.
    cbn [snd fst should_exit existsb escalate orb].
    eexists. split; [reflexivity|]. split; [exact (proj1 F)|].
    rewrite !count_steps_snoc. subst s2 s1. rewrite !count_steps_snoc.
    split; repeat case_decide; try done; lia.
Qed.

(** The loop with the checker in it does what the specification asks of
    the refinement loop: when the [k]-th evaluation from now is the
    first to pass, and the bound allows it, the loop makes [k + 1]
    evaluation steps and [k] follow-up-search steps, none after the
    passing evaluation, and ends Escalated. *)
Lemma gated_loop_escalates w n : forall k fuel t s,
  t + k < n -> k < fuel ->
  reachable (load (state s)) ->
  (forall j, j < k ->
     should_stop (Some (evaluate w (count_steps research_evaluator s + j))) = false) ->
  should_stop (Some (evaluate w (count_steps research_evaluator s + k))) = true ->
  exists s',
    LoopAgent_run fuel w (gated_refinement_loop n) t s = Some (Ok (s', Escalated))
    /\ count_steps research_evaluator s' = count_steps research_evaluator s + k + 1
    /\ count_steps enhanced_search_executor s' = count_steps enhanced_search_executor s + k.
Proof.
  induction k as [|k IH]; intros fuel t s Ht Hfuel Hr Hfail Hpass;
    (destruct fuel as [|fuel]; [lia|]); cbn [LoopAgent_run].
  all: assert (keep_looping (max_iterations (gated_refinement_loop n)) t = true) as ->
    by (cbn [gated_refinement_loop max_iterations]; unfold keep_looping;
        destruct n; [lia|]; apply Nat.ltb_lt; lia).
  all: destruct (gated_pass w n s Hr) as (s1 & Hrun & Hr1 & E1 & S1); rewrite Hrun.
  - rewrite Nat.add_0_r in Hpass. rewrite Hpass in Hrun, S1 |- *.
    exists s1. split; [done|]. lia.
  - pose proof (Hfail 0 ltac:(lia)) as H0. rewrite Nat.add_0_r in H0.
    rewrite H0 in S1 |- *.
    destruct (IH fuel (t + 1) s1) as (s' & Hrun' & E2 & S2); [lia|lia|done| | |].
    + intros j Hj. rewrite E1. replace (count_steps research_evaluator s + 1 + j)
        with (count_steps research_evaluator s + S j) by lia. apply Hfail. lia.
    + rewrite E1. by replace (count_steps research_evaluator s + 1 + k)
        with (count_steps research_evaluator s + S k) by lia.
    + exists s'. split; [done|]. lia.
Qed.

(** With an [EscalationChecker] between the two sub-agents, the same
    run is the one C1 describes: two evaluation steps, one
    follow-up-search step, and the loop ends Escalated. *)
Lemma gated_loop_stops_on_pass :
  exists s',
    LoopAgent_run 3 fail_then_pass (gated_refinement_loop 2) 0 fresh_session
    = Some (Ok (s', Escalated))
    /\ count_steps research_evaluator s' = 2
    /\ count_steps enhanced_search_executor s' = 1.
Proof. eexists. vm_compute. repeat split; reflexivity. Qed.

End LoopClaims.

(* ================================================================== *)
(** * Further properties of the code *)

(** ** The scan and the substitution pass *)

Section ScanPartition.

(** The pieces of a scan, put together again, are the text scanned. *)
Lemma scan_raw r : forall s k, k <= length s -> flat_map raw (scan r k s) = drop k s.
Proof.
  induction s as [|c s IH]; intros k Hk; simpl in Hk.
  - assert (k = 0) as -> by lia. simpl.
    destruct (re_match r []) as [m|] eqn:E; [|done].
    destruct (re_match_prefix _ _ _ E) as [rst Hr]. simpl.
    destruct (group0 m); [done|discriminate].
  - destruct k as [|k]; [|simpl; apply IH; lia]. cbn [scan drop].
    destruct (re_match r (c :: s)) as [m|] eqn:E.
    + destruct (re_match_prefix _ _ _ E) as [rst Hr].
      destruct (group0 m) as [|d g] eqn:Eg; cbn [length].
      * cbn [flat_map raw app]. rewrite Eg. simpl. f_equal. apply (IH 0). lia.
      * simpl in Hr. injection Hr as <- ->.
        cbn [flat_map raw]. rewrite Eg, IH by (rewrite length_app; lia).
        by rewrite drop_app_length.
    + cbn [flat_map raw app]. f_equal. apply (IH 0). lia.
Qed.

Lemma scan_skip r a b : scan r (length a) (a ++ b) = scan r 0 b.
Proof.
  induction a as [|c a IH]; [done|]. simpl. apply IH.
Qed.

End ScanPartition.

Section MarkerFree.

Lemma lits_raw ps : forall s,
  Forall (fun p => exists c, p = Lit c) ps -> flat_map raw ps = s -> ps = map Lit s.
Proof.
  induction ps as [|p ps IH]; intros s Hall Hs; simpl in *.
  - by subst s.
  - inversion Hall as [|? ? [c ->] Hall']; subst. simpl. f_equal. by apply IH.
Qed.

Lemma markers_none_lits draft :
  markers draft = [] ->
  scan cite_re 0 draft = map Lit draft.
Proof.
  intros Hm. apply lits_raw.
  - apply List.Forall_forall. intros [c|m] Hp; [by eexists|].
    apply markers_scan in Hp. rewrite Hm in Hp. destruct Hp.
  - rewrite (scan_raw cite_re _ 0) by lia. apply drop_0.
Qed.

(** X1: a draft in which the marker pattern matches nowhere passes the
    substitution unchanged and without a warning, whatever the registry
    holds; the report is then the draft with its punctuation spacing
    normalised. *)
Theorem draft_without_markers (registry : gmap str Source) (draft : str) :
  markers draft = [] ->
  substitute registry draft = (Ok draft, [])
  /\ rewrite_draft draft registry = (Ok (normalise draft), []).
Proof.
  intros Hm.
  assert (Hs : substitute registry draft
               = (Ok draft, [])).
  { unfold substitute. rewrite markers_none_lits by done. apply replace_pieces_lits. }
  split; [done|]. by rewrite rewrite_unfold, Hs.
Qed.

(** A draft with a tag the pattern does not match and a space to remove. *)
Lemma draft_without_markers_witness :
  rewrite_draft (txt "No <cite/> here .") example_registry = (Ok (txt "No <cite/> here."), []).
Proof.
  refine (eq_trans (proj2 (draft_without_markers example_registry (txt "No <cite/> here .") _)) _).
  - vm_compute. reflexivity.
  - vm_compute. reflexivity.
Defined.

(** X2: whatever the draft, the short id of every marker the
    substitution finds, the key [tag_replacer] looks up, is [src-]
    followed by one or more decimal digits. *)
Theorem markers_carry_short_ids (draft : str) (m : rmatch) :
  In m (markers draft) ->
  exists ds, group1 m = txt "src-" ++ ds
             /\ ds <> [] /\ Forall (fun c => is_digit c = true) ds.
Proof.
  intros Hm. apply markers_scan, scan_chars in Hm as (a & b & _ & Hm).
  by eapply marker_shape.
Qed.

(** The one marker of the example draft. *)
Lemma markers_carry_short_ids_witness :
  exists ds, txt "src-1" = txt "src-" ++ ds
             /\ ds <> [] /\ Forall (fun c => is_digit c = true) ds.
Proof.
  refine (markers_carry_short_ids example_draft
            {| group0 := txt "<cite source=" ++ quoted (txt "src-1") ++ txt "/>";
               group1 := txt "src-1" |} _).
  vm_compute. by left.
Defined.

End MarkerFree.

(** ** The normalization pass *)

Section Normalisation.

Lemma punct_not_space p : is_punct p = true -> is_space p = false.
Proof.
  unfold is_punct. simpl. rewrite !orb_true_iff, !N.eqb_eq.
  intros [->|[->|[->|[->|?]]]]; done.
Qed.

(** Greedy repetition takes the whole run when the continuation cannot
    start with a character of the class. *)
Lemma star_all k cont w r :
  Forall (fun c => accepts k c = true) w -> stops k r ->
  (forall c t, accepts k c = true -> cont (c :: t) = None) ->
  star k cont (w ++ r) = push w (cont r).
Proof.
  intros Hw Hr Hc. induction Hw as [|c w Hcw _ IH]; simpl.
  - apply star_stops, Hr.
  - rewrite Hcw, IH. destruct (cont r) as [[ls rst]|]; simpl; [done|].
    by rewrite Hc.
Qed.

(** The pattern at a run of whitespace: it matches when one of [.,;:]
    ends the run, and only then. *)
Lemma punct_match_run w r :
  w <> [] -> Forall (fun c => is_space c = true) w -> stops CSpace r ->
  re_match punct_re (w ++ r)
  = match r with
    | p :: _ => if is_punct p then Some {| group0 := w ++ [p]; group1 := [p] |} else None
    | [] => None
    end.
Proof.
  intros Hne Hw Hr. destruct w as [|c w]; [done|]. inversion Hw as [|? ? Hc Hw']; subst.
  unfold re_match. cbn [re_atoms punct_re re_pre re_group re_post app].
  cbn [match_atoms qt cls app]. cbn [accepts]. rewrite Hc.
  rewrite star_all; [|done|done|].
  - destruct r as [|p r]; [done|]. cbn [accepts]. fold (is_punct p).
    destruct (is_punct p); [|done]. simpl. reflexivity.
  - intros d t Hd. cbn [accepts] in *. fold (is_punct d).
    destruct (is_punct d) eqn:Hp; [|done]. apply punct_not_space in Hp. congruence.
Qed.

(** Where the pattern matches, the text starts with a run of whitespace
    and one of [.,;:]. *)
Lemma punct_match_shape s m :
  re_match punct_re s = Some m ->
  exists w p r, s = w ++ p :: r /\ w <> [] /\ Forall (fun c => is_space c = true) w
                /\ is_punct p = true /\ m = {| group0 := w ++ [p]; group1 := [p] |}.
Proof.
  unfold re_match.
  destruct (match_atoms (re_atoms punct_re) s) as [[ls rst]|] eqn:E; [|done].
  intros [= <-]. apply match_atoms_sound in E as [E1 E2]. simpl in E1, E2.
  inversion E2 as [|? w ? ls1 [Hw Hlen] E3]; subst.
  inversion E3 as [|? l2 ? ls2 [Hacc Hl2] E4]; subst. inversion E4; subst.
  simpl in Hlen, Hl2. destruct l2 as [|p [|? ?]]; simpl in Hl2; try lia.
  inversion Hacc as [|? ? Hp _]; subst.
  exists w, p, rst. simpl in *. rewrite ?app_nil_r, <- ?app_assoc.
  split; [done|]. split; [by intros ->; simpl in Hlen; lia|]. done.
Qed.

Lemma normalise_hit w p r :
  w <> [] -> Forall (fun c => is_space c = true) w -> is_punct p = true ->
  normalise (w ++ p :: r) = p :: normalise r.
Proof.
  intros Hne Hw Hp. unfold normalise, re_sub.
  destruct w as [|c w]; [done|]. cbn [app scan].
  pose proof (punct_match_run (c :: w) (p :: r) Hne Hw) as Hm. cbn [app] in Hm.
  rewrite Hm, Hp by (simpl; by apply punct_not_space).
  cbn [group0 length]. rewrite length_app. cbn [length].
  replace (length w + 1) with (S (length w)) by lia.
  change (w ++ p :: r) with (w ++ [p] ++ r). rewrite app_assoc.
  replace (S (length w)) with (length (w ++ [p])) by (rewrite length_app; simpl; lia).
  by rewrite scan_skip.
Qed.

Lemma normalise_miss c r :
  re_match punct_re (c :: r) = None -> normalise (c :: r) = c :: normalise r.
Proof. intros H. unfold normalise, re_sub. simpl. by rewrite H. Qed.

(** After the pass no whitespace stands directly before [.,;:]. *)
Lemma normalise_tidy_aux n : forall s,
  length s <= n -> space_before_punct (normalise s) = false.
Proof.
  induction n as [|n IH]; intros s Hn.
  - destruct s; [done|simpl in Hn; lia].
  - destruct s as [|c s]; [done|]. simpl in Hn.
    destruct (re_match punct_re (c :: s)) as [m|] eqn:E.
    + destruct (punct_match_shape _ _ E) as (w & p & r & Hs & Hne & Hw & Hp & _).
      rewrite Hs, normalise_hit by done.
      assert (Hr : length r <= n).
      { apply (f_equal length) in Hs. rewrite length_app in Hs. simpl in Hs.
        destruct w; [done|]. simpl in Hs. lia. }
      pose proof (IH r Hr) as Ht. cbn [space_before_punct].
      destruct (normalise r) as [|q t]; [done|].
      rewrite (punct_not_space p Hp). simpl. exact Ht.
    + rewrite normalise_miss by done.
      pose proof (IH s ltac:(lia)) as Ht. cbn [space_before_punct].
      destruct (normalise s) as [|q t] eqn:En; [done|].
      rewrite Ht, orb_false_r. apply andb_false_iff.
      destruct (is_space c) eqn:Hc; [right|by left].
      destruct (is_punct q) eqn:Hq; [exfalso|done].
      (* [q] heads [normalise s]: it heads [s] or a match at [s]; either
         way a match starts at [c]. *)
      destruct s as [|d s']; [done|].
      destruct (re_match punct_re (d :: s')) as [m|] eqn:E'.
      * destruct (punct_match_shape _ _ E') as (w & p & r & Hs & Hne & Hw & Hp & _).
        pose proof (punct_match_run (c :: w) (p :: r) ltac:(done)
                      ltac:(by constructor) (punct_not_space p Hp)) as Hm.
        simpl in Hm. rewrite <- Hs, Hp, E in Hm. done.
      * rewrite normalise_miss in En by done. injection En as -> _.
        pose proof (punct_match_run [c] (q :: s') ltac:(done)
                      ltac:(by repeat constructor) (punct_not_space q Hq)) as Hm.
        simpl in Hm. rewrite Hq, E in Hm. done.
Qed.

Lemma space_before_punct_app a c p b :
  space_before_punct (a ++ c :: p :: b) = false -> is_space c && is_punct p = false.
Proof.
  induction a as [|x a IH]; cbn [app space_before_punct].
  - by intros [H _]%orb_false_iff.
  - destruct (a ++ c :: p :: b) as [|y t] eqn:E; [by destruct a|].
    intros [_ H]%orb_false_iff. by apply IH.
Qed.

(** The pass leaves alone a text in which no whitespace stands before
    [.,;:]. *)
Lemma normalise_fixed s : space_before_punct s = false -> normalise s = s.
Proof.
  induction s as [|c s IH]; intros Ht; [done|].
  assert (E : re_match punct_re (c :: s) = None).
  { destruct (re_match punct_re (c :: s)) as [m|] eqn:E; [exfalso|done].
    destruct (punct_match_shape _ _ E) as (w & p & r & Hs & Hne & Hw & Hp & _).
    destruct (exists_last Hne) as (w' & x & ->).
    rewrite Hs, <- app_assoc in Ht. apply space_before_punct_app in Ht.
    apply List.Forall_app in Hw as [_ Hx]. inversion Hx as [|? ? Hsp _]; subst.
    by rewrite Hsp, Hp in Ht. }
  rewrite normalise_miss by done. f_equal. apply IH.
  cbn [space_before_punct] in Ht. destruct s as [|p t]; [done|].
  by apply orb_false_iff in Ht as [_ Ht].
Qed.

(** X3: in the text the normalization pass returns, no whitespace
    character stands directly before one of [.,;:], whatever text it is
    given; so no such place is left in the report the callback stores. *)
Theorem normalise_leaves_no_space_before_punct (s : str) :
  space_before_punct (normalise s) = false.
Proof. by apply (normalise_tidy_aux (length s)). Qed.

(** X4: the normalization pass is idempotent: a second pass over its
    result changes nothing. *)
Theorem normalise_idempotent (s : str) :
  normalise (normalise s) = normalise s.
Proof. apply normalise_fixed, (normalise_tidy_aux (length s)). lia. Qed.

End Normalisation.

(** ** The marker pattern accepts the tolerated forms *)

Section MarkerForms.

Lemma step_one k p c s ls r :
  accepts k c = true -> match_atoms p s = Some (ls, r) ->
  match_atoms (Atom k One :: p) (c :: s) = Some ([c] :: ls, r).
Proof. intros Hc Hp. rewrite match_one, Hc, Hp. done. Qed.

Lemma star_take k cont w s ls r :
  Forall (fun c => accepts k c = true) w -> stops k s -> cont s = Some (ls, r) ->
  star k cont (w ++ s) = Some (w :: ls, r).
Proof.
  intros Hw Hs Hc. induction Hw as [|c w Hcw _ IH]; simpl.
  - by rewrite star_stops, Hc.
  - by rewrite Hcw, IH.
Qed.

Lemma step_star k p w s ls r :
  Forall (fun c => accepts k c = true) w -> stops k s ->
  match_atoms p s = Some (ls, r) ->
  match_atoms (Atom k Star :: p) (w ++ s) = Some (w :: ls, r).
Proof. intros. by apply star_take. Qed.

Lemma step_plus k p w s ls r :
  w <> [] -> Forall (fun c => accepts k c = true) w -> stops k s ->
  match_atoms p s = Some (ls, r) ->
  match_atoms (Atom k Plus :: p) (w ++ s) = Some (w :: ls, r).
Proof.
  intros Hne Hw Hs Hp. destruct w as [|c w]; [done|].
  inversion Hw as [|? ? Hc Hw']; subst. cbn [app match_atoms qt cls].
  by rewrite Hc, (star_take k _ w s ls r).
Qed.

Lemma step_opt k p q s ls r :
  (q = [] /\ stops k s) \/ (exists c, q = [c] /\ accepts k c = true) ->
  match_atoms p s = Some (ls, r) ->
  match_atoms (Atom k Opt :: p) (q ++ s) = Some (q :: ls, r).
Proof.
  intros [[-> Hs]|(c & -> & Hc)] Hp; cbn [app match_atoms qt cls].
  - destruct s as [|d s]; [by rewrite Hp|]. simpl in Hs. by rewrite Hs, Hp.
  - by rewrite Hc, Hp.
Qed.

Lemma in_ranges_true rs c :
  in_ranges rs c = true <-> exists r, In r rs /\ (r.1 <= c <= r.2)%N.
Proof.
  unfold in_ranges. rewrite existsb_exists. split.
  - intros (r & Hr & Hc). apply andb_true_iff in Hc as [H1 H2].
    apply N.leb_le in H1, H2. by exists r.
  - intros (r & Hr & H1 & H2). exists r. split; [done|].
    apply andb_true_iff. by split; apply N.leb_le.
Qed.

(** No whitespace character is a decimal digit. *)
Lemma space_not_digit c : is_space c = true -> is_digit c = false.
Proof.
  intros Hs. destruct (is_digit c) eqn:Hd; [exfalso|done].
  apply in_ranges_true in Hs as (s & Hs & Hs1 & Hs2).
  apply in_ranges_true in Hd as (d & Hd & Hd1 & Hd2).
  assert (Hall : forallb (fun s : N * N =>
                    forallb (fun d : N * N => (s.2 <? d.1)%N || (d.2 <? s.1)%N)
                      digit_ranges) space_ranges = true) by (vm_compute; reflexivity).
  rewrite forallb_forall in Hall. specialize (Hall s Hs).
  rewrite forallb_forall in Hall. specialize (Hall d Hd).
  apply orb_true_iff in Hall as [H|H]; apply N.ltb_lt in H; lia.
Qed.

Lemma quote_cases c :
  accepts quotes c = true -> c = 34%N \/ c = 39%N.
Proof.
  unfold accepts, quotes. simpl. rewrite !orb_true_iff, !N.eqb_eq.
  intros [->|[->|?]]; auto. done.
Qed.

Lemma quote_not_space c : accepts quotes c = true -> is_space c = false.
Proof. by intros [->| ->]%quote_cases. Qed.

Lemma quote_not_digit c : accepts quotes c = true -> is_digit c = false.
Proof. by intros [->| ->]%quote_cases. Qed.

(** Whitespace on both sides of an absent quote is one run. *)
Lemma regroup ws q ws' :
  quote_opt q -> spaces ws -> spaces ws' ->
  exists a b, spaces a /\ spaces b /\ (q = [] -> b = [])
              /\ forall t, ws ++ q ++ ws' ++ t = a ++ q ++ b ++ t.
Proof.
  intros [->|(c & -> & Hc)] Hw Hw'.
  - exists (ws ++ ws'), []. split; [by apply List.Forall_app|]. split; [constructor|].
    split; [done|]. intros t. simpl. by rewrite app_assoc.
  - exists ws, ws'. repeat split; done.
Qed.

Lemma marker_canonical ws1 ws2 ws3 q1 ws4 ds ws5 q2 ws6 rest :
  ws1 <> [] -> spaces ws1 -> spaces ws2 -> spaces ws3 -> quote_opt q1 -> spaces ws4 ->
  ds <> [] -> digits ds -> spaces ws5 -> quote_opt q2 -> spaces ws6 ->
  (q1 = [] -> ws4 = []) -> (q2 = [] -> ws6 = []) ->
  re_match cite_re (marker_text ws1 ws2 ws3 q1 ws4 ds ws5 q2 ws6 ++ rest)
  = Some {| group0 := marker_text ws1 ws2 ws3 q1 ws4 ds ws5 q2 ws6;
            group1 := txt "src-" ++ ds |}.
Proof.
  intros Hne1 H1 H2 H3 Hq1 H4 Hned Hd H5 Hq2 H6 Hc1 Hc2.
  assert (Hopt : forall q w t,
            quote_opt q -> spaces w -> (q = [] -> w = []) ->
            accepts quotes (hd 0%N t) = false -> is_space (hd 0%N t) = false ->
            t <> [] ->
            stops CSpace (q ++ w ++ t)
            /\ ((q = [] /\ stops quotes (w ++ t))
                \/ exists c, q = [c] /\ accepts quotes c = true)).
  { intros q w t [->|(c & -> & Hc)] Hw Hqw Hqt Hst Hnt.
    - rewrite (Hqw eq_refl). destruct t; [done|]. simpl in *. split; [done|]. by left.
    - split; [by apply quote_not_space|]. right. by exists c. }
  assert (Hds : stops CDigit (ws5 ++ q2 ++ ws6 ++ txt "/>" ++ rest)).
  { destruct ws5 as [|c w]; simpl.
    - destruct Hq2 as [->|(c & -> & Hc)]; simpl.
      + by rewrite (Hc2 eq_refl).
      + by apply quote_not_digit.
    - inversion H5; subst. by apply space_not_digit. }
  destruct (Hopt q1 ws4 (txt "src-" ++ ds ++ ws5 ++ q2 ++ ws6
                           ++ txt "/>" ++ rest))
    as [Hs3 Ho1]; [done..|].
  destruct (Hopt q2 ws6 (txt "/>" ++ rest)) as [Hs5 Ho2]; [done..|].
  assert (Hm : match_atoms (re_atoms cite_re)
                 (marker_text ws1 ws2 ws3 q1 ws4 ds ws5 q2 ws6 ++ rest)
               = Some (map (fun c => [c]) (txt "<cite") ++ [ws1]
                       ++ map (fun c => [c]) (txt "source") ++ [ws2]
                       ++ map (fun c => [c]) (txt "=") ++ [ws3; q1; ws4]
                       ++ map (fun c => [c]) (txt "src-") ++ [ds]
                       ++ [ws5; q2; ws6]
                       ++ map (fun c => [c]) (txt "/>"), rest)).
  { unfold marker_text. rewrite <- !app_assoc.
    let x := eval vm_compute in (re_atoms cite_re) in change (re_atoms cite_re) with x.
    cbn [app map].
    do 5 (apply step_one; [reflexivity|]).
    apply step_plus; [done|done|done|].
    do 6 (apply step_one; [reflexivity|]).
    apply step_star; [done|done|].
    apply step_one; [reflexivity|].
    apply step_star; [done|exact Hs3|].
    apply step_opt; [exact Ho1|].
    apply step_star; [done|done|].
    do 4 (apply step_one; [reflexivity|]).
    apply step_plus; [done|done|exact Hds|].
    apply step_star; [done|exact Hs5|].
    apply step_opt; [exact Ho2|].
    apply step_star; [done|done|].
    do 2 (apply step_one; [reflexivity|]).
    reflexivity. }
  unfold re_match. rewrite Hm.
  let n := eval vm_compute in (length (re_group cite_re)) in
    change (length (re_group cite_re)) with n.
  let n := eval vm_compute in (length (re_pre cite_re)) in
    change (length (re_pre cite_re)) with n.
  f_equal. unfold marker_text. eval_txt.
  cbn [map length app take drop concat].
  rewrite ?app_nil_r, <- ?app_assoc. reflexivity.
Qed.

Lemma marker_forms ws1 ws2 ws3 q1 ws4 ds ws5 q2 ws6 rest :
  ws1 <> [] -> spaces ws1 -> spaces ws2 -> spaces ws3 -> quote_opt q1 -> spaces ws4 ->
  ds <> [] -> digits ds -> spaces ws5 -> quote_opt q2 -> spaces ws6 ->
  re_match cite_re (marker_text ws1 ws2 ws3 q1 ws4 ds ws5 q2 ws6 ++ rest)
  = Some {| group0 := marker_text ws1 ws2 ws3 q1 ws4 ds ws5 q2 ws6;
            group1 := txt "src-" ++ ds |}.
Proof.
  intros Hne1 H1 H2 H3 Hq1 H4 Hned Hd H5 Hq2 H6.
  destruct (regroup ws3 q1 ws4 Hq1 H3 H4) as (a & b & Ha & Hb & Hqb & E1).
  destruct (regroup ws5 q2 ws6 Hq2 H5 H6) as (a' & b' & Ha' & Hb' & Hqb' & E2).
  assert (Et : marker_text ws1 ws2 ws3 q1 ws4 ds ws5 q2 ws6
               = marker_text ws1 ws2 a q1 b ds a' q2 b').
  { unfold marker_text. by rewrite E1, E2. }
  rewrite Et. by apply marker_canonical.
Qed.

End MarkerForms.

Section MarkerFormsClaims.

Lemma scan_marker_text pre ws1 ws2 ws3 q1 ws4 ds ws5 q2 ws6 rest :
  ws1 <> [] -> spaces ws1 -> spaces ws2 -> spaces ws3 -> quote_opt q1 -> spaces ws4 ->
  ds <> [] -> digits ds -> spaces ws5 -> quote_opt q2 -> spaces ws6 ->
  scan cite_re 0 (pre ++ marker_text ws1 ws2 ws3 q1 ws4 ds ws5 q2 ws6 ++ rest)
  = scan cite_re 0 pre
    ++ Hit {| group0 := marker_text ws1 ws2 ws3 q1 ws4 ds ws5 q2 ws6;
              group1 := txt "src-" ++ ds |}
    :: scan cite_re 0 rest.
Proof.
  intros Hne1 H1 H2 H3 Hq1 H4 Hned Hd H5 Hq2 H6.
  pose proof (marker_forms ws1 ws2 ws3 q1 ws4 ds ws5 q2 ws6 rest
                Hne1 H1 H2 H3 Hq1 H4 Hned Hd H5 Hq2 H6) as Hm.
  set (m := {| group0 := marker_text ws1 ws2 ws3 q1 ws4 ds ws5 q2 ws6;
               group1 := txt "src-" ++ ds |}) in *.
  assert (Et : exists t, marker_text ws1 ws2 ws3 q1 ws4 ds ws5 q2 ws6 = lt_char :: t)
    by (by eexists).
  destruct Et as [t Et]. rewrite Et in Hm |- *. cbn [app] in Hm |- *.
  rewrite (scan_split cite_re lt_char (t ++ rest) cite_nil cite_local pre 0) by lia.
  f_equal. cbn [scan]. rewrite Hm.
  replace (length (group0 m)) with (S (length t)) by (subst m; cbn [group0]; by rewrite Et).
  by rewrite scan_skip.
Qed.

(** X5: the marker pattern accepts every text of the tolerated forms
    (whitespace after [<cite], optional whitespace around [=], the short
    id bare or between single or double quotes, which need not be the
    same on both sides, optional whitespace inside and behind them).
    Wherever such a text stands in a draft the substitution finds it as
    one marker, with group 1 the short id [src-] and its digits, and
    goes on behind it. *)
Theorem marker_forms_recognised (pre ws1 ws2 ws3 q1 ws4 ds ws5 q2 ws6 rest : str) :
  ws1 <> [] -> spaces ws1 -> spaces ws2 -> spaces ws3 -> quote_opt q1 -> spaces ws4 ->
  ds <> [] -> digits ds -> spaces ws5 -> quote_opt q2 -> spaces ws6 ->
  scan cite_re 0 (pre ++ marker_text ws1 ws2 ws3 q1 ws4 ds ws5 q2 ws6 ++ rest)
  = scan cite_re 0 pre
    ++ Hit {| group0 := marker_text ws1 ws2 ws3 q1 ws4 ds ws5 q2 ws6;
              group1 := txt "src-" ++ ds |}
    :: scan cite_re 0 rest.
Proof. apply scan_marker_text. Qed.

(** A marker in the middle of a text, with a no-break space and a space
    after [cite], spaces around [=], a single quote and a space before
    the short id, whose second digit is an Arabic-Indic two, and a
    double quote and a space behind it. *)
Lemma marker_forms_recognised_witness :
  scan cite_re 0 (txt "a<cite" ++ [160%N; 32%N] ++ txt "source = ' src-1" ++ [1634%N]
                  ++ dquote ++ txt " />b")
  = [Lit 97%N;
     Hit {| group0 := txt "<cite" ++ [160%N; 32%N] ++ txt "source = ' src-1" ++ [1634%N]
                      ++ dquote ++ txt " />";
            group1 := txt "src-1" ++ [1634%N] |};
     Lit 98%N].
Proof.
  refine (marker_forms_recognised
            (txt "a")
            [160%N; 32%N] (txt " ")
            (txt " ")
            (txt "'") (txt " ")
            [49%N; 1634%N] []
            dquote (txt " ")
            (txt "b") _ _ _ _ _ _ _ _ _ _ _).
  - done.
  - by repeat constructor.
  - by repeat constructor.
  - by repeat constructor.
  - right. eexists. split; reflexivity.
  - by repeat constructor.
  - done.
  - by repeat constructor.
  - constructor.
  - right. eexists. split; reflexivity.
  - by repeat constructor.
Defined.

End MarkerFormsClaims.

(** ** Errors of the rewriter *)

Section RewriterErrors.

Lemma tag_replacer_raises registry m e :
  (tag_replacer registry m).1 = Raise e <-> e = KeyError (txt "url") /\ lacks_url registry m.
Proof.
  unfold tag_replacer, lacks_url.
  destruct (registry !! (group1 m)) as [info|]; simpl.
  - destruct (source_truthy info) eqn:Ht; simpl.
    + destruct (url info) as [u|] eqn:Hu; simpl.
      * split; [done|]. intros (_ & i & [= <-] & _ & Hn). congruence.
      * split; [intros [= <-]; split; [done|by exists info]|]. by intros [-> _].
    + split; [done|]. intros (_ & i & [= <-] & Ht' & _). congruence.
  - split; [done|]. by intros (_ & i & ? & _).
Qed.

Lemma replace_pieces_raises registry ps e :
  (replace_pieces registry ps).1 = Raise e ->
  e = KeyError (txt "url") /\ exists m, In (Hit m) ps /\ lacks_url registry m.
Proof.
  induction ps as [|[c|m] ps IH]; simpl; [done| |].
  - destruct (replace_pieces registry ps) as [[t|e'] log]; simpl in *; [done|].
    intros [= <-]. destruct (IH eq_refl) as (He & m & Hm & Hl).
    split; [done|]. exists m. split; [by right|done].
  - pose proof (tag_replacer_raises registry m e) as Hm.
    destruct (tag_replacer registry m) as [[t|e'] w]; simpl in *.
    + destruct (replace_pieces registry ps) as [[t'|e''] log]; simpl in *; [done|].
      intros [= <-]. destruct (IH eq_refl) as (He & m' & Hm' & Hl).
      split; [done|]. exists m'. split; [by right|done].
    + intros He. destruct (proj1 Hm He) as [-> Hl].
      split; [done|]. exists m. split; [by left|done].
Qed.

Lemma replace_pieces_lacking registry ps m :
  In (Hit m) ps -> lacks_url registry m ->
  (replace_pieces registry ps).1 = Raise (KeyError (txt "url")).
Proof.
  intros Hin Hl. induction ps as [|[c|m'] ps IH]; simpl; [done| |].
  - destruct Hin as [Hin|Hin]; [done|]. specialize (IH Hin).
    by destruct (replace_pieces registry ps) as [[t|e'] log]; simpl in *.
  - pose proof (tag_replacer_raises registry m') as Hm'.
    destruct (tag_replacer registry m') as [[t|e'] w]; simpl in *.
    + destruct Hin as [[= ->]|Hin].
      * by pose proof (proj2 (Hm' (KeyError (txt "url"))) (conj eq_refl Hl)).
      * specialize (IH Hin).
        by destruct (replace_pieces registry ps) as [[t'|e''] log]; simpl in *.
    + by destruct (proj1 (Hm' e') eq_refl) as [-> _].
Qed.

(** X6: the rewrite raises exactly when some marker of the draft names a
    short id whose Source is found but has no [url] key, and the
    exception is then [KeyError('url')], raised by the subscript
    [source_info['url']]; the callback then returns no report and
    stores none. *)
Theorem rewrite_raises_iff (registry : gmap str Source) (draft : str) (e : exn) :
  ((rewrite_draft draft registry).1 = Raise e
   <-> e = KeyError (txt "url") /\ exists m, In m (markers draft) /\ lacks_url registry m)
  /\ (forall st,
        final_cited_report st = Some draft -> sources st = Some registry ->
        (exists m, In m (markers draft) /\ lacks_url registry m) ->
        (citation_replacement_callback st).1 = Raise (KeyError (txt "url"))).
Proof.
  assert (Hsub : (exists m, In m (markers draft) /\ lacks_url registry m) ->
                 (substitute registry draft).1
                 = Raise (KeyError (txt "url"))).
  { intros (m & Hm & Hl). unfold substitute.
    apply replace_pieces_lacking with m; [by apply markers_scan|done]. }
  split.
  - rewrite rewrite_unfold. split.
    + destruct (substitute registry draft) as [[t|e'] log] eqn:E;
        simpl; [done|].
      intros [= <-]. unfold substitute in E.
      destruct (replace_pieces_raises registry _ e' ltac:(by rewrite E))
        as (He & m & Hm & Hl).
      split; [done|]. exists m. split; [by apply markers_scan|done].
    + intros [-> Hex]. specialize (Hsub Hex).
      destruct (substitute registry draft) as [[t|e'] log];
        simpl in *; congruence.
  - intros st Hd Hs Hex. specialize (Hsub Hex).
    unfold citation_replacement_callback. rewrite Hd, Hs. simpl.
    destruct (substitute registry draft) as [[t|e'] log];
      simpl in *; congruence.
Qed.

End RewriterErrors.

(** ** More on the SourceRegistry *)

Section RegistryEvents.

Lemma chunk_loop_no_urls ics : forall st,
  chunk_urls ics = [] -> fold_left chunk_step ics st = st.
Proof.
  induction ics as [|[idx chunk] ics IH]; intros [l ci] Hu; [done|].
  unfold chunk_urls in Hu. cbn [omap list_omap snd] in Hu.
  destruct (genai.web chunk) as [w|] eqn:Ew; [done|]. simpl in Hu.
  cbn [fold_left]. unfold chunk_step at 2. rewrite Ew. by apply IH.
Qed.

Lemma index_loop_no_chunks support iis srcs :
  for_each (index_step ∅ support) iis srcs = Ok srcs.
Proof.
  induction iis as [|[i idx] iis IH]; [done|]. cbn [for_each].
  change (index_step ∅ support srcs (i, idx))
    with (match (∅ : gmap Z str) !! idx with
          | Some sid => append_claim sid (claim_of support i) srcs
          | None => Ok srcs
          end).
  by rewrite lookup_empty, bind_Ok.
Qed.

Lemma support_loop_no_chunks supports srcs :
  for_each (support_step ∅) supports srcs = Ok srcs.
Proof.
  induction supports as [|support supports IH]; [done|]. cbn [for_each].
  change (support_step ∅ srcs support)
    with (for_each (index_step ∅ support)
            (enumerate (or_empty (genai.grounding_chunk_indices support))) srcs).
  by rewrite index_loop_no_chunks, bind_Ok.
Qed.

Lemma event_step_no_urls l event : event_urls event = [] -> event_step l event = Ok l.
Proof.
  unfold event_urls, event_step. destruct (genai.grounding_metadata event) as [gm|]; [|done].
  intros Hu. destruct (list_truthy (genai.grounding_chunks gm)); [|done]. simpl.
  rewrite chunk_loop_no_urls by done.
  destruct (list_truthy (genai.grounding_supports gm)); [|done].
  rewrite support_loop_no_chunks, bind_Ok. by destruct l.
Qed.

(** X7: events that bring no web chunk (no grounding metadata, no or an
    empty list of chunks, or only chunks without [web]) are skipped: on
    any state, consistent or not, the callback returns normally, mints
    no short id and records no claim, whatever supports the events
    carry; it writes back the two dicts it read (empty ones for keys the
    state did not have). *)
Theorem events_without_web_chunks_skipped (events : list genai.Event) (st : State) :
  Forall (fun event => event_urls event = []) events ->
  collect_research_sources_callback events st
  = Ok {| url_to_short_id := Some (default ∅ (url_to_short_id st));
          sources := Some (default ∅ (sources st));
          research_evaluation := research_evaluation st;
          final_cited_report := final_cited_report st;
          final_report_with_citations := final_report_with_citations st |}.
Proof.
  intros Hall. unfold collect_research_sources_callback.
  assert (Hrun : forall l, for_each event_step events l = Ok l).
  { induction Hall as [|event events Hev _ IH]; intros l; [done|].
    cbn [for_each]. by rewrite event_step_no_urls, bind_Ok. }
  by rewrite Hrun, bind_Ok.
Qed.

(** An event without metadata, and one whose only chunk has no [web] but
    whose support refers to it. *)
Lemma events_without_web_chunks_skipped_witness :
  collect_research_sources_callback
    [{| genai.grounding_metadata := None |};
     {| genai.grounding_metadata :=
          Some {| genai.grounding_chunks := Some [{| genai.web := None |}];
                  genai.grounding_supports :=
                    Some [{| genai.segment := None;
                             genai.confidence_scores := None;
                             genai.grounding_chunk_indices := Some [0%Z] |}] |} |}]
    empty_state
  = Ok {| url_to_short_id := Some ∅; sources := Some ∅; research_evaluation := None;
          final_cited_report := None; final_report_with_citations := None |}.
Proof.
  refine (events_without_web_chunks_skipped _ empty_state _).
  by repeat constructor.
Defined.

Lemma enumerate_snoc {A} (cs : list A) (c : A) :
  enumerate (cs ++ [c]) = enumerate cs ++ [(length cs, c)].
Proof.
  unfold enumerate.
  assert (H : forall k, combine (seq k (length (cs ++ [c]))) (cs ++ [c])
                        = combine (seq k (length cs)) cs ++ [(k + length cs, c)]).
  { induction cs as [|a cs IH]; intros k; simpl.
    - by rewrite Nat.add_0_r.
    - rewrite (IH (S k)). by rewrite Nat.add_succ_r. }
  apply (H 0).
Qed.

Lemma chunk_step_mono l ci ic : 
  l_url_to_short_id l ⊆ l_url_to_short_id (chunk_step (l, ci) ic).1.
Proof.
  destruct ic as [idx chunk]. unfold chunk_step.
  destruct (genai.web chunk) as [w|]; [|done].
  destruct (l_url_to_short_id l !! genai.uri w) eqn:E; [done|]. simpl.
  by apply insert_subseteq.
Qed.

(** What the chunk loop of an event leaves in [chunks_info]. *)
Lemma chunk_loop_spec chunks l :
  let st := fold_left chunk_step (enumerate chunks) (l, ∅) in
  (forall i chunk, chunks !! i = Some chunk ->
     st.2 !! Z.of_nat i
     = match genai.web chunk with
       | Some w => l_url_to_short_id st.1 !! genai.uri w
       | None => None
       end)
  /\ (forall i chunk w, chunks !! i = Some chunk -> genai.web chunk = Some w ->
        is_Some (l_url_to_short_id st.1 !! genai.uri w))
  /\ (forall z, is_Some (st.2 !! z) -> exists i, z = Z.of_nat i /\ i < length chunks).
Proof.
  induction chunks as [|c chunks IH] using rev_ind; cbn zeta.
  - simpl. split; [done|]. split; [done|]. intros z [x Hx]. by rewrite lookup_empty in Hx.
  - rewrite enumerate_snoc, fold_left_app. cbn [fold_left].
    cbn zeta in IH.
    destruct (fold_left chunk_step (enumerate chunks) (l, ∅)) as [l1 ci1] eqn:E1.
    destruct IH as (I1 & I2 & I3). cbn [fst snd] in *.
    destruct (genai.web c) as [w'|] eqn:Ew.
    + assert (Hstep : exists l2 sid',
                chunk_step (l1, ci1) (length chunks, c)
                = (l2, <[Z.of_nat (length chunks) := sid']> ci1)
                /\ l_url_to_short_id l1 ⊆ l_url_to_short_id l2
                /\ l_url_to_short_id l2 !! genai.uri w' = Some sid').
      { pose proof (chunk_step_mono l1 ci1 (length chunks, c)) as Hmono.
        unfold chunk_step in *. rewrite Ew in *.
        destruct (l_url_to_short_id l1 !! genai.uri w') as [sid|] eqn:Eu.
        - by exists l1, sid.
        - eexists _, _. split; [reflexivity|]. split; [exact Hmono|].
          simpl. by rewrite lookup_insert_eq. }
      destruct Hstep as (l2 & sid' & -> & Hmono & Hsid'). cbn [fst snd].
      split; [|split].
      * intros i chunk Hi. apply lookup_app_Some in Hi as [Hi|[Hlen Hi]].
        -- pose proof (lookup_lt_Some _ _ _ Hi) as Hlt.
           rewrite lookup_insert_ne by lia. rewrite (I1 i chunk Hi).
           destruct (genai.web chunk) as [w|] eqn:Ec; [|done].
           destruct (I2 i chunk w Hi Ec) as [sid Hsid]. rewrite Hsid.
           symmetry. by eapply lookup_weaken.
        -- destruct (i - length chunks) as [|?] eqn:Ei; [|done]. injection Hi as <-.
           assert (i = length chunks) as -> by lia.
           by rewrite lookup_insert_eq, Ew, Hsid'.
      * intros i chunk w Hi Hw. apply lookup_app_Some in Hi as [Hi|[Hlen Hi]].
        -- destruct (I2 i chunk w Hi Hw) as [sid Hsid]. exists sid. by eapply lookup_weaken.
        -- destruct (i - length chunks) as [|?] eqn:Ei; [|done]. injection Hi as <-.
           rewrite Ew in Hw. injection Hw as <-. by eexists.
      * intros z Hz. rewrite length_app. simpl.
        rewrite lookup_insert in Hz. case_decide as Hd.
        -- exists (length chunks). split; [done|lia].
        -- destruct (I3 z Hz) as (j & -> & Hlt). exists j. split; [done|lia].
    + assert (Hstep : chunk_step (l1, ci1) (length chunks, c) = (l1, ci1))
        by (unfold chunk_step; by rewrite Ew).
      rewrite Hstep. cbn [fst snd]. split; [|split].
      * intros i chunk Hi. apply lookup_app_Some in Hi as [Hi|[Hlen Hi]]; [by apply I1|].
        destruct (i - length chunks) as [|?] eqn:Ei; [|done]. injection Hi as <-.
        assert (i = length chunks) as -> by lia. rewrite Ew.
        destruct (ci1 !! Z.of_nat (length chunks)) as [x|] eqn:Ex; [|done].
        destruct (I3 (Z.of_nat (length chunks))) as (j & Hj & Hlt); [by eexists|]. lia.
      * intros i chunk w Hi Hw. apply lookup_app_Some in Hi as [Hi|[Hlen Hi]];
          [by eapply I2|].
        destruct (i - length chunks) as [|?] eqn:Ei; [|done]. injection Hi as <-.
        congruence.
      * intros z Hz. rewrite length_app. simpl.
        destruct (I3 z Hz) as (j & -> & Hlt). exists j. split; [done|lia].
Qed.

End RegistryEvents.

Section RegistryMore.

(** X8: the chunk loop of an event files chunks by URL, not by index:
    after it, [chunks_info] maps the index of every chunk that has a
    [web] to the short id [url_to_short_id] holds for its URL, and has
    no entry for any other index (a chunk without [web], an index out
    of range, a negative index); so two chunks of an event with the
    same URL share one short id. *)
Theorem chunks_info_by_url (chunks : list genai.GroundingChunk) (l : Locals) :
  let st := fold_left chunk_step (enumerate chunks) (l, ∅) in
  (forall i chunk, chunks !! i = Some chunk ->
     st.2 !! Z.of_nat i
     = match genai.web chunk with
       | Some w => l_url_to_short_id st.1 !! genai.uri w
       | None => None
       end)
  /\ (forall i chunk w, chunks !! i = Some chunk -> genai.web chunk = Some w ->
        is_Some (st.2 !! Z.of_nat i))
  /\ (forall z, is_Some (st.2 !! z) -> exists i, z = Z.of_nat i /\ i < length chunks)
  /\ (forall i j ci cj wi wj,
        chunks !! i = Some ci -> chunks !! j = Some cj ->
        genai.web ci = Some wi -> genai.web cj = Some wj ->
        genai.uri wi = genai.uri wj ->
        st.2 !! Z.of_nat i = st.2 !! Z.of_nat j).
Proof.
  destruct (chunk_loop_spec chunks l) as (H1 & H2 & H3). cbn zeta.
  split; [exact H1|]. split; [|split; [exact H3|]].
  - intros i chunk w Hi Hw. rewrite (H1 i chunk Hi), Hw. by eapply H2.
  - intros i j ci cj wi wj Hi Hj Hwi Hwj Hu.
    by rewrite (H1 i ci Hi), (H1 j cj Hj), Hwi, Hwj, Hu.
Qed.

(** Three chunks, the first and the last with the same URL. *)
Lemma chunks_info_by_url_witness :
  (fold_left chunk_step
     (enumerate [{| genai.web := Some {| genai.uri := Some (txt "http://a");
                                         genai.title := Some (txt "A");
                                         genai.domain := Some (txt "a.com") |} |};
                 {| genai.web := None |};
                 {| genai.web := Some {| genai.uri := Some (txt "http://a");
                                         genai.title := Some (txt "Again");
                                         genai.domain := Some (txt "a.com") |} |}])
     (load empty_state, ∅)).2 !! 0%Z
  = (fold_left chunk_step
       (enumerate [{| genai.web := Some {| genai.uri := Some (txt "http://a");
                                           genai.title := Some (txt "A");
                                           genai.domain := Some (txt "a.com") |} |};
                   {| genai.web := None |};
                   {| genai.web := Some {| genai.uri := Some (txt "http://a");
                                           genai.title := Some (txt "Again");
                                           genai.domain := Some (txt "a.com") |} |}])
       (load empty_state, ∅)).2 !! 2%Z.
Proof.
  refine (proj2 (proj2 (proj2 (chunks_info_by_url _ (load empty_state))))
            0 2 _ _ _ _ _ _ _ _ _); reflexivity.
Defined.

Lemma supports_loop_spec chunks_info supports : forall srcs,
  claims_ready chunks_info srcs ->
  exists srcs',
    for_each (support_step chunks_info) supports srcs = Ok srcs'
    /\ forall sid, srcs' !! sid
                   = add_claims (flat_map (fun support => claims_for chunks_info support sid)
                                   supports) <$> srcs !! sid.
Proof.
  induction supports as [|support supports IH]; intros srcs Hr.
  - exists srcs. split; [done|]. intros sid. simpl.
    destruct (srcs !! sid) as [info|]; simpl; [|done]. by rewrite add_claims_nil.
  - cbn [for_each flat_map].
    change (support_step chunks_info srcs support)
      with (for_each (index_step chunks_info support)
              (enumerate (or_empty (genai.grounding_chunk_indices support))) srcs).
    destruct (index_loop_spec chunks_info support
                (enumerate (or_empty (genai.grounding_chunk_indices support))) srcs Hr)
      as (srcs1 & Hrun1 & Hr1 & Hspec1).
    rewrite Hrun1, bind_Ok.
    destruct (IH srcs1 Hr1) as (srcs' & Hrun & Hspec).
    exists srcs'. split; [done|]. intros sid. rewrite Hspec, Hspec1.
    destruct (srcs !! sid) as [info|]; simpl; [|done].
    by rewrite add_claims_app.
Qed.

(** X9: what one event with chunks does to the registry, from any state
    the callback reaches: the event is processed without an exception;
    [url_to_short_id] and the counter are as the chunk loop left them;
    and each Source has, appended to its claims, the claims of all the
    event's supports, support by support and index by index in order. *)
Theorem event_claims_recorded (l : Locals) (gm : genai.GroundingMetadata) :
  reachable l ->
  list_truthy (genai.grounding_chunks gm) = true ->
  let st := fold_left chunk_step (enumerate (or_empty (genai.grounding_chunks gm))) (l, ∅) in
  exists l',
    event_step l {| genai.grounding_metadata := Some gm |} = Ok l'
    /\ l_url_to_short_id l' = l_url_to_short_id st.1
    /\ l_id_counter l' = l_id_counter st.1
    /\ forall sid,
         l_sources l' !! sid
         = add_claims (flat_map (fun support => claims_for st.2 support sid)
                         (or_empty (genai.grounding_supports gm)))
             <$> l_sources st.1 !! sid.
Proof.
  intros Hr Ht. cbn zeta. unfold event_step. cbn [genai.grounding_metadata].
  rewrite Ht. cbn [negb].
  destruct (chunk_loop_follows (enumerate (or_empty (genai.grounding_chunks gm))) l ∅ Hr)
    as ((Hr1 & _) & C1 & _); [by intros idx sid H|].
  destruct (fold_left chunk_step (enumerate (or_empty (genai.grounding_chunks gm))) (l, ∅))
    as [l1 chunks_info]. cbn [fst snd] in *.
  assert (Hready : claims_ready chunks_info (l_sources l1)).
  { intros idx sid Hi. destruct (C1 _ _ Hi) as [u Hu].
    destruct (inv_source _ (reachable_inv _ Hr1) _ _ Hu) as (info & Hinfo & _ & _ & Hc).
    by exists info. }
  destruct (supports_loop_spec chunks_info (or_empty (genai.grounding_supports gm))
              (l_sources l1) Hready) as (srcs' & Hrun & Hspec).
  destruct (list_truthy (genai.grounding_supports gm)) eqn:Es.
  - rewrite Hrun, bind_Ok. eexists. split; [reflexivity|]. done.
  - exists l1. split; [done|]. split; [done|]. split; [done|]. intros sid.
    rewrite (list_truthy_false _ Es). simpl.
    destruct (l_sources l1 !! sid) as [info|]; simpl; [|done]. by rewrite add_claims_nil.
Qed.

(** The example event, from the start: one Source, with one claim. *)
Lemma event_claims_recorded_witness :
  exists l',
    event_step (load empty_state) example_event = Ok l'
    /\ l_sources l' !! txt "src-1"
       = Some {| short_id := Some (txt "src-1"); title := Some (Some (txt "A"));
                 url := Some (Some (txt "http://a"));
                 domain := Some (Some (txt "a.com"));
                 supported_claims :=
                   Some [{| text_segment := Some (txt "seg"); confidence := 0.75%float |}] |}.
Proof.
  destruct (event_claims_recorded (load empty_state)
              {| genai.grounding_chunks :=
                   Some [{| genai.web := Some {| genai.uri := Some (txt "http://a");
                                                 genai.title := Some (txt "A");
                                                 genai.domain := Some (txt "a.com") |} |}];
                 genai.grounding_supports :=
                   Some [{| genai.segment := Some {| genai.text := Some (txt "seg") |};
                            genai.confidence_scores := Some [0.75%float];
                            genai.grounding_chunk_indices := Some [0%Z] |}] |}
              reach_start eq_refl) as (l' & Hrun & _ & _ & Hspec).
  exists l'. split; [exact Hrun|]. rewrite Hspec. vm_compute. reflexivity.
Defined.

(** X10: short ids are stable.  Whatever calls of the callback come
    later, every URL keeps the short id it has, and every Source keeps
    its short id, title, url and domain (a later chunk with the same URL
    and another title changes nothing); its list of claims keeps its
    entries and only grows at the end. *)
Theorem registry_stable (before after : list (list genai.Event)) :
  exists st st',
    record_all before empty_state = Ok st
    /\ record_all after st = Ok st'
    /\ l_url_to_short_id (load st) ⊆ l_url_to_short_id (load st')
    /\ grows (l_sources (load st)) (l_sources (load st')).
Proof.
  destruct (record_all_follows before empty_state reach_start) as (st & Hrun & (Hr & _) & _).
  destruct (record_all_follows after st Hr) as (st' & Hrun' & (_ & Hsub & Hg) & _).
  by exists st, st'.
Qed.

End RegistryMore.

(** ** The registry and the rewriter together *)

Section RegistryAndRewriter.

(** [str(n)] is a non-empty run of decimal digits. *)
Lemma str_of_nat_digits n :
  digits (str_of_nat n) /\ str_of_nat n <> [].
Proof.
  unfold str_of_nat. split.
  - generalize (Nat.to_uint n). intros d. unfold digits.
    induction d; simpl; constructor; done.
  - assert (Hn : Nat.to_uint n <> Decimal.Nil).
    { rewrite <- (DecimalNat.Unsigned.of_to n) at 1.
      rewrite DecimalNat.Unsigned.to_of. apply DecimalFacts.unorm_nonnil. }
    destruct (Nat.to_uint n); [done|discriminate..].
Qed.

(** Every Source the callback builds has all its keys. *)
Lemma reachable_complete l :
  reachable l ->
  forall sid info, l_sources l !! sid = Some info ->
    is_Some (title info) /\ is_Some (domain info) /\ is_Some (url info)
    /\ source_truthy info = true.
Proof.
  induction 1 as [|l ci [idx chunk] Hr IH|l sid0 c srcs Hr IH Happ|l st Hr IH];
    intros sid info Hinfo.
  - simpl in Hinfo. by rewrite lookup_empty in Hinfo.
  - unfold chunk_step in Hinfo. destruct (genai.web chunk) as [w|]; [|by eapply IH].
    destruct (l_url_to_short_id l !! genai.uri w); [by eapply IH|]. simpl in Hinfo.
    rewrite lookup_insert in Hinfo. case_decide; [|by eapply IH].
    injection Hinfo as <-. simpl. repeat split; by eexists.
  - simpl in Hinfo. unfold append_claim in Happ.
    destruct (l_sources l !! sid0) as [info0|] eqn:E0; [|done].
    destruct (supported_claims info0) as [cs|]; [|done]. injection Happ as <-.
    rewrite lookup_insert in Hinfo. case_decide; [|by eapply IH].
    injection Hinfo as <-. destruct (IH _ _ E0) as (Ht & Hd & Hu & _).
    simpl. repeat split; try done.
    unfold source_truthy. simpl. by rewrite !orb_true_r.
  - by eapply IH.
Qed.

Lemma reachable_has_urls l : reachable l -> has_urls (l_sources l).
Proof.
  intros Hr sid info Hinfo _.
  by destruct (reachable_complete l Hr sid info Hinfo) as (_ & _ & Hu & _).
Qed.

(** X11: every source the registry records can be cited.  After any
    calls of the callback, for every URL in [url_to_short_id] the
    marker that names its short id in the form the composer is
    instructed to write (the id between double quotes, a space before
    the closing [/>]) is recognized, and the substitution replaces it by
    a space and the link to that URL, under the title the Source has
    (each written as an f-string writes it); no warning is logged. *)
Theorem recorded_source_citable (batches : list (list genai.Event)) (st : State)
    (u : value) (sid : str) :
  record_all batches empty_state = Ok st ->
  l_url_to_short_id (load st) !! u = Some sid ->
  exists info t,
    l_sources (load st) !! sid = Some info
    /\ title info = Some t /\ url info = Some u
    /\ substitute (l_sources (load st))
         (txt "<cite source=" ++ quoted sid ++ txt " />")
       = (Ok (txt " [" ++ fmt t ++ txt "](" ++ fmt u ++ txt ")"), []).
Proof.
  intros Hrun Hu.
  destruct (record_all_follows batches empty_state reach_start) as (st0 & Hrun0 & (Hr & _) & _).
  rewrite Hrun in Hrun0. injection Hrun0 as <-.
  pose proof (reachable_inv _ Hr) as Hinv.
  destruct (inv_source _ Hinv _ _ Hu) as (info & Hinfo & _ & Hurl & _).
  destruct (reachable_complete _ Hr _ _ Hinfo) as ([t Ht] & _ & _ & Htruthy).
  destruct (inv_minted _ Hinv _ _ Hu) as (k & _ & ->).
  destruct (str_of_nat_digits k) as [Hd Hne].
  exists info, t. split; [done|]. split; [done|]. split; [done|].
  pose proof (scan_marker_text [] (txt " ") [] [] dquote [] (str_of_nat k) []
                dquote (txt " ") []) as Hscan.
  assert (Et : txt "<cite source=" ++ quoted (mint_id k) ++ txt " />"
               = marker_text (txt " ") [] [] dquote [] (str_of_nat k) [] dquote (txt " ")).
  { unfold marker_text, quoted, mint_id. eval_txt. simpl.
    by rewrite <- !app_assoc. }
  unfold substitute. rewrite Et.
  rewrite <- (app_nil_r (marker_text _ _ _ _ _ _ _ _ _)).
  change (marker_text ?a ?b ?c ?d ?e ?f ?g ?h ?i ++ [])
    with ([] ++ marker_text a b c d e f g h i ++ []).
  rewrite Hscan; try done; try (by repeat constructor);
    try (right; eexists; split; reflexivity).
  cbn [app scan]. rewrite ?cite_nil. cbn [app replace_pieces].
  unfold tag_replacer. cbn [group1].
  change (txt "src-" ++ str_of_nat k) with (mint_id k).
  rewrite Hinfo, Htruthy, Hurl. unfold display_text. rewrite Ht. simpl.
  by rewrite app_nil_r.
Qed.

(** The Source of the example event, cited. *)
Lemma recorded_source_citable_witness :
  exists st info t,
    record_all [[example_event]] empty_state = Ok st
    /\ l_url_to_short_id (load st) !! Some (txt "http://a") = Some (txt "src-1")
    /\ l_sources (load st) !! txt "src-1" = Some info
    /\ title info = Some t /\ url info = Some (Some (txt "http://a"))
    /\ substitute (l_sources (load st))
         (txt "<cite source=" ++ quoted (txt "src-1") ++ txt " />")
       = (Ok (txt " [" ++ fmt t ++ txt "](" ++ txt "http://a" ++ txt ")"), []).
Proof.
  destruct (record_all [[example_event]] empty_state) as [st|e] eqn:Hrun;
    [|vm_compute in Hrun; discriminate].
  assert (Hu : l_url_to_short_id (load st) !! Some (txt "http://a") = Some (txt "src-1"))
    by (vm_compute in Hrun; injection Hrun as <-; reflexivity).
  destruct (recorded_source_citable [[example_event]] st (Some (txt "http://a"))
              (txt "src-1") Hrun Hu) as (info & t & H).
  exists st, info, t. split; [reflexivity|]. split; [exact Hu|]. exact H.
Defined.

End RegistryAndRewriter.

(** ** The two callbacks, one after the other *)

Section ReportAfterResearch.

(** On a registry the first callback built, the second one returns. *)
Lemma callback_on_registry st draft :
  reachable (load st) ->
  exists out log,
    citation_replacement_callback (set_final_cited_report st draft)
    = (Ok ({| url_to_short_id := url_to_short_id st; sources := sources st;
              research_evaluation := research_evaluation st;
              final_cited_report := Some draft;
              final_report_with_citations := Some out |}, out), log)
    /\ space_before_punct out = false.
Proof.
  intros Hr. unfold citation_replacement_callback, set_final_cited_report, substitute.
  cbn [final_cited_report sources url_to_short_id research_evaluation default].
  rewrite (replace_pieces_render (default ∅ (sources st)))
    by exact (reachable_has_urls _ Hr).
  eexists _, _. split; [reflexivity|].
  by eapply normalise_tidy_aux.
Qed.

(** X12: the two callbacks fit together.  After any calls of
    [collect_research_sources_callback] from the empty session, whatever
    draft is then stored under [final_cited_report],
    [citation_replacement_callback] returns normally (a marker never
    reaches a Source without [url]); it stores the text it returns under
    [final_report_with_citations], leaves every other key as it was, and
    that text has no whitespace directly before one of [.,;:]. *)
Theorem report_after_research (batches : list (list genai.Event)) (draft : str) :
  exists st out log,
    record_all batches empty_state = Ok st
    /\ citation_replacement_callback (set_final_cited_report st draft)
       = (Ok ({| url_to_short_id := url_to_short_id st; sources := sources st;
                 research_evaluation := research_evaluation st;
                 final_cited_report := Some draft;
                 final_report_with_citations := Some out |}, out), log)
    /\ space_before_punct out = false.
Proof.
  destruct (record_all_follows batches empty_state reach_start) as (st & Hrun & (Hr & _) & _).
  destruct (callback_on_registry st draft Hr) as (out & log & Hcall & Htidy).
  by exists st, out, log.
Qed.

End ReportAfterResearch.

(** ** The loop and the pipeline, whatever the grades *)

Section PipelineRuns.

(** The first callback writes the two dicts and nothing else. *)
Lemma callback_keeps_evaluation evs st st' :
  collect_research_sources_callback evs st = Ok st' ->
  research_evaluation st' = research_evaluation st.
Proof.
  unfold collect_research_sources_callback.
  destruct (for_each event_step evs (load st)) as [l|e]; [|done].
  by intros [= <-].
Qed.

(** One pass of the pipeline's loop, in full. *)
Lemma pipeline_pass_spec w s :
  reachable (load (state s)) ->
  (forall u, known (load (state s)) u -> In u (flat_map event_urls (events s))) ->
  exists st',
    run_sub_agents w (sub_agents iterative_refinement_loop) s
    = Ok ({| state := st';
             events := events s ++ search w (count_steps enhanced_search_executor s);
             steps := steps s ++ [research_evaluator; enhanced_search_executor] |}, false)
    /\ reachable (load st')
    /\ research_evaluation st' = Some (evaluate w (count_steps research_evaluator s))
    /\ (forall u,
          known (load st') u
          <-> In u (flat_map event_urls
                      (events s ++ search w (count_steps enhanced_search_executor s)))).
Proof.
  intros Hr Hk.
  set (s1 := {| state := set_research_evaluation (state s)
                           (evaluate w (count_steps research_evaluator s));
                events := events s; steps := steps s ++ [research_evaluator] |}).
  assert (Ec : count_steps enhanced_search_executor s1
               = count_steps enhanced_search_executor s).
  { subst s1. rewrite count_steps_snoc. case_decide; [done|lia]. }
  destruct (callback_follows
              (events s1 ++ search w (count_steps enhanced_search_executor s1))
              (state s1) Hr) as (st' & Hrun & F & K & _).
  exists st'. split; [|split; [exact (proj1 F)|split]].
  - cbn [iterative_refinement_loop sub_agents run_sub_agents].
    change (run_async w research_evaluator s)
      with (Ok (s1, [{| author := txt "research_evaluator"; escalate := false |}])).
    rewrite bind_Ok. cbn [snd fst should_exit existsb escalate orb].
    cbn [run_async]. rewrite Hrun, !bind_Ok.
    cbn [snd fst should_exit existsb escalate orb]. rewrite Ec.
    subst s1. cbn [steps events]. by rewrite <- app_assoc.
  - by rewrite (callback_keeps_evaluation _ _ _ Hrun).
  - intros u. rewrite <- Ec. split; [|by apply K].
    intros Hu. destruct (callback_origin _ _ _ u Hrun Hu) as [H|H]; [|done].
    rewrite flat_map_app, in_app_iff. left. by apply Hk.
Qed.

Lemma count_steps_app a s st evs l :
  count_steps a {| state := st; events := evs; steps := steps s ++ l |}
  = count_steps a s + length (filter (fun b => b = a) l).
Proof. unfold count_steps. cbn [steps]. by rewrite filter_app, length_app. Qed.

Lemma known_start u : ~ known (load empty_state) u.
Proof. intros [x Hx]. simpl in Hx. by rewrite lookup_empty in Hx. Qed.

(** The loop of the pipeline, in full. *)
Lemma pipeline_loop_twice w fuel s :
  2 < fuel ->
  reachable (load (state s)) ->
  (forall u, known (load (state s)) u -> In u (flat_map event_urls (events s))) ->
  exists st',
    LoopAgent_run fuel w iterative_refinement_loop 0 s
    = Some (Ok ({| state := st';
                   events := events s
                             ++ search w (count_steps enhanced_search_executor s)
                             ++ search w (count_steps enhanced_search_executor s + 1);
                   steps := steps s ++ [research_evaluator; enhanced_search_executor;
                                        research_evaluator; enhanced_search_executor] |},
                Exhausted))
    /\ reachable (load st')
    /\ research_evaluation st' = Some (evaluate w (count_steps research_evaluator s + 1))
    /\ (forall u,
          known (load st') u
          <-> In u (flat_map event_urls
                      (events s
                       ++ search w (count_steps enhanced_search_executor s)
                       ++ search w (count_steps enhanced_search_executor s + 1)))).
Proof.
  intros Hfuel Hr Hk. destruct fuel as [|[|[|fuel]]]; [lia..|].
  destruct (pipeline_pass_spec w s Hr Hk) as (st1 & Hrun1 & Hr1 & He1 & Hk1).
  set (s1 := {| state := st1;
                events := events s ++ search w (count_steps enhanced_search_executor s);
                steps := steps s ++ [research_evaluator; enhanced_search_executor] |}) in *.
  destruct (pipeline_pass_spec w s1 Hr1 (fun u => proj1 (Hk1 u)))
    as (st2 & Hrun2 & Hr2 & He2 & Hk2).
  assert (Ee : count_steps research_evaluator s1 = count_steps research_evaluator s + 1)
    by (subst s1; by rewrite count_steps_app).
  assert (Es : count_steps enhanced_search_executor s1
               = count_steps enhanced_search_executor s + 1)
    by (subst s1; by rewrite count_steps_app).
  rewrite Ee in He2. rewrite Es in Hrun2, Hk2.
  subst s1. cbn [events steps] in Hrun2, Hk2. rewrite <- !app_assoc in Hrun2, Hk2.
  exists st2. split; [|done].
  cbn [LoopAgent_run iterative_refinement_loop max_iterations keep_looping Nat.ltb Nat.leb].
  change (sub_agents _) with (sub_agents iterative_refinement_loop).
  rewrite Hrun1. cbn [Nat.add keep_looping Nat.ltb Nat.leb]. rewrite Hrun2.
  by rewrite <- (app_assoc (steps s)).
Qed.

(** X13: the loop of [research_pipeline] never ends early.  Whatever
    the evaluations say and whatever the searches find, from a session
    whose registry the callback built from the session's events, the
    loop makes evaluation, search, evaluation, search, in this order,
    and ends Exhausted, without an exception; the state then holds the
    second evaluation under [research_evaluation], and the registry
    knows exactly the URLs of the web chunks of the session's events,
    those of the two searches included. *)
Theorem pipeline_loop_never_escalates (w : World) (fuel : nat) (s : Session) :
  2 < fuel ->
  reachable (load (state s)) ->
  (forall u, known (load (state s)) u -> In u (flat_map event_urls (events s))) ->
  exists st',
    LoopAgent_run fuel w iterative_refinement_loop 0 s
    = Some (Ok ({| state := st';
                   events := events s
                             ++ search w (count_steps enhanced_search_executor s)
                             ++ search w (count_steps enhanced_search_executor s + 1);
                   steps := steps s ++ [research_evaluator; enhanced_search_executor;
                                        research_evaluator; enhanced_search_executor] |},
                Exhausted))
    /\ reachable (load st')
    /\ research_evaluation st' = Some (evaluate w (count_steps research_evaluator s + 1))
    /\ (forall u,
          known (load st') u
          <-> In u (flat_map event_urls
                      (events s
                       ++ search w (count_steps enhanced_search_executor s)
                       ++ search w (count_steps enhanced_search_executor s + 1)))).
Proof. apply pipeline_loop_twice. Qed.

(** Evaluations that pass at once, on the empty session. *)
Lemma pipeline_loop_never_escalates_witness :
  exists st',
    LoopAgent_run 3 {| evaluate := fun _ => graded (txt "pass");
                       search := fun _ => [example_event] |}
      iterative_refinement_loop 0 fresh_session
    = Some (Ok ({| state := st';
                   events := [example_event; example_event];
                   steps := [research_evaluator; enhanced_search_executor;
                             research_evaluator; enhanced_search_executor] |},
                Exhausted))
    /\ research_evaluation st' = Some (graded (txt "pass")).
Proof.
  destruct (pipeline_loop_never_escalates
              {| evaluate := fun _ => graded (txt "pass"); search := fun _ => [example_event] |}
              3 fresh_session) as (st' & Hrun & _ & He & _).
  - lia.
  - apply reach_start.
  - intros u Hu. by destruct (known_start u).
  - exists st'. split; [exact Hrun|exact He].
Defined.

(** X14: the pipeline returns.  Whatever the first search and the
    follow-up searches find, whatever the evaluations say and whatever
    draft the composer writes, the run of [research_pipeline] on a fresh
    session raises no exception: the researcher's searches, then two
    evaluations and two follow-up searches, then the composer.  At the
    end the registry knows exactly the URLs of the web chunks of all
    three searches, and [final_report_with_citations] holds the text
    returned, which has no whitespace directly before one of [.,;:]. *)
Theorem research_pipeline_returns (r : Research) (fuel : nat) :
  2 < fuel ->
  exists st' out log,
    research_pipeline_run fuel r fresh_session
    = Some (Ok ({| state := st';
                   events := first_search r ++ search (world r) 0 ++ search (world r) 1;
                   steps := [research_evaluator; enhanced_search_executor;
                             research_evaluator; enhanced_search_executor] |}, out), log)
    /\ final_report_with_citations st' = Some out
    /\ research_evaluation st' = Some (evaluate (world r) 1)
    /\ space_before_punct out = false
    /\ (forall u,
          known (load st') u
          <-> In u (flat_map event_urls
                      (first_search r ++ search (world r) 0 ++ search (world r) 1))).
Proof.
  intros Hfuel.
  destruct (callback_follows (first_search r) empty_state reach_start)
    as (st1 & Hrun1 & (Hr1 & _) & K1 & _).
  set (s1 := {| state := st1; events := first_search r; steps := [] |}).
  assert (Hk1 : forall u, known (load (state s1)) u
                          -> In u (flat_map event_urls (events s1))).
  { intros u Hu. destruct (callback_origin _ _ _ u Hrun1 Hu) as [H|H]; [|done].
    by destruct (known_start u). }
  destruct (pipeline_loop_twice (world r) fuel s1 Hfuel Hr1 Hk1)
    as (st2 & Hrun2 & Hr2 & He2 & Hk2).
  destruct (callback_on_registry st2 (compose r st2) Hr2) as (out & log & Hcall & Htidy).
  eexists _, out, log. split; [|split; [|split; [|split]]].
  - unfold research_pipeline_run, section_researcher_run.
    cbn [fresh_session events state steps app]. rewrite Hrun1, bind_Ok.
    fold s1. rewrite Hrun2. unfold report_composer_run. cbn [state events steps].
    rewrite Hcall. subst s1. cbn [events steps app]. reflexivity.
  - reflexivity.
  - exact He2.
  - exact Htidy.
  - exact Hk2.
Qed.

(** A run with one source found at first, one more later, and a draft
    that cites the first. *)
Lemma research_pipeline_returns_witness :
  exists st' out log,
    research_pipeline_run 3
      {| world := fail_then_pass;
         first_search := [example_event];
         compose := fun _ => (txt "Fee <cite source=") ++ quoted (txt "src-1") ++ (txt " /> .") |}
      fresh_session
    = Some (Ok ({| state := st'; events := [example_event; example_event; example_event];
                   steps := [research_evaluator; enhanced_search_executor;
                             research_evaluator; enhanced_search_executor] |}, out), log)
    /\ final_report_with_citations st' = Some out
    /\ space_before_punct out = false.
Proof.
  destruct (research_pipeline_returns
              {| world := fail_then_pass;
                 first_search := [example_event];
                 compose := fun _ =>
                   txt "Fee <cite source=" ++ quoted (txt "src-1") ++ txt " /> ." |}
              3 ltac:(lia)) as (st' & out & log & Hrun & Hf & _ & Ht & _).
  exists st', out, log. split; [exact Hrun|]. split; [exact Hf|exact Ht].
Defined.

End PipelineRuns.

(** ** Sources as the chunk loop makes them, and a registry out of step *)

Section SourceContents.

Lemma enumerate_split {A} (pre : list A) (c : A) (post : list A) :
  exists ics, enumerate (pre ++ c :: post) = enumerate pre ++ (length pre, c) :: ics.
Proof.
  unfold enumerate.
  assert (H : forall k, exists ics,
            combine (seq k (length (pre ++ c :: post))) (pre ++ c :: post)
            = combine (seq k (length pre)) pre ++ (k + length pre, c) :: ics).
  { induction pre as [|a pre IH]; intros k; simpl.
    - rewrite Nat.add_0_r. by eexists.
    - destruct (IH (S k)) as [ics ->]. exists ics. by rewrite Nat.add_succ_r. }
  apply (H 0).
Qed.

(** A chunk with a URL not seen before: the Source it gets. *)
Lemma chunk_step_new l chunks_info idx w :
  l_url_to_short_id l !! genai.uri w = None ->
  let st := chunk_step (l, chunks_info) (idx, {| genai.web := Some w |}) in
  l_url_to_short_id st.1 !! genai.uri w = Some (mint_id (l_id_counter l))
  /\ l_sources st.1 !! mint_id (l_id_counter l)
     = Some {| short_id := Some (mint_id (l_id_counter l));
               title := Some (genai.title w);
               url := Some (genai.uri w);
               domain := Some (genai.domain w);
               supported_claims := Some [] |}.
Proof.
  intros Hnew. unfold chunk_step. cbn [genai.web]. rewrite Hnew. cbn [fst].
  cbn [l_url_to_short_id l_sources]. rewrite !lookup_insert_eq. split; [done|].
  case_bool_decide as Hne; [done|].
  destruct (decide (genai.title w = genai.domain w)) as [->|Hd]; [done|].
  by destruct Hne.
Qed.

(** The chunk loop of an event, at the first chunk with a URL. *)
Lemma chunk_loop_first l pre w post :
  reachable l ->
  ~ known l (genai.uri w) ->
  ~ In (genai.uri w) (chunk_urls (enumerate pre)) ->
  let st := fold_left chunk_step
              (enumerate (pre ++ {| genai.web := Some w |} :: post)) (l, ∅) in
  reachable st.1 /\ chunks_known st.1 st.2
  /\ exists sid info,
       l_url_to_short_id st.1 !! genai.uri w = Some sid
       /\ l_sources st.1 !! sid = Some info
       /\ short_id info = Some sid
       /\ title info = Some (genai.title w)
       /\ url info = Some (genai.uri w)
       /\ domain info = Some (genai.domain w).
Proof.
  intros Hr Hnew Hpre. cbn zeta.
  destruct (enumerate_split pre {| genai.web := Some w |} post) as [ics ->].
  rewrite fold_left_app. cbn [fold_left].
  destruct (chunk_loop_follows (enumerate pre) l ∅ Hr) as ((Hr1 & _) & C1 & _);
    [by intros idx sid H|].
  pose proof (chunk_loop_origin (enumerate pre) l ∅ (genai.uri w)) as Ho.
  destruct (fold_left chunk_step (enumerate pre) (l, ∅)) as [l1 ci1]. cbn [fst snd] in *.
  assert (Hnew1 : l_url_to_short_id l1 !! genai.uri w = None).
  { destruct (l_url_to_short_id l1 !! genai.uri w) as [sid|] eqn:E; [|done].
    destruct Ho as [H|H]; [by exists sid|by destruct Hnew|by destruct Hpre]. }
  destruct (chunk_step_new l1 ci1 (length pre) w Hnew1) as [Hu Hs].
  destruct (chunk_step_follows l1 ci1 (length pre, {| genai.web := Some w |}) Hr1 C1)
    as ((Hr2 & _) & C2 & _).
  destruct (chunk_step (l1, ci1) (length pre, {| genai.web := Some w |})) as [l2 ci2].
  cbn [fst snd] in *.
  destruct (chunk_loop_follows ics l2 ci2 Hr2 C2) as ((Hr3 & Hsub & Hg) & C3 & _).
  split; [done|]. split; [done|].
  destruct (Hg _ _ Hs) as (info & Hinfo & E1 & E2 & E3 & E4 & _).
  exists (mint_id (l_id_counter l1)), info.
  split; [by eapply lookup_weaken|]. by repeat split.
Qed.

(** X16: the first web chunk with a URL names the Source.  When an
    event, processed from a state the callback reaches, has a web chunk
    whose URL is not yet known and no earlier chunk of the event has that
    URL, then after the event the URL has a short id, and the Source
    under it carries that id, the URL, and the title and the domain of
    this chunk; the title is the chunk's title also when it equals the
    domain (both arms of the conditional give the same text).  Later
    chunks of the event with the same URL but another title or domain,
    and the supports, do not change them. *)
Theorem first_chunk_names_source (l : Locals) (gm : genai.GroundingMetadata)
    (pre post : list genai.GroundingChunk) (w : genai.GroundingChunkWeb) :
  reachable l ->
  genai.grounding_chunks gm = Some (pre ++ {| genai.web := Some w |} :: post) ->
  ~ known l (genai.uri w) ->
  ~ In (genai.uri w) (chunk_urls (enumerate pre)) ->
  exists l' sid info,
    event_step l {| genai.grounding_metadata := Some gm |} = Ok l'
    /\ l_url_to_short_id l' !! genai.uri w = Some sid
    /\ l_sources l' !! sid = Some info
    /\ short_id info = Some sid
    /\ title info = Some (genai.title w)
    /\ url info = Some (genai.uri w)
    /\ domain info = Some (genai.domain w).
Proof.
  intros Hr Hgm Hnew Hpre.
  destruct (chunk_loop_first l pre w post Hr Hnew Hpre)
    as (Hr1 & C1 & sid & info & Hu & Hs & E1 & E2 & E3 & E4).
  unfold event_step. cbn [genai.grounding_metadata]. rewrite Hgm.
  assert (list_truthy (Some (pre ++ {| genai.web := Some w |} :: post)) = true) as ->
    by (by destruct pre).
  cbn [negb].
  change (or_empty (Some (pre ++ {| genai.web := Some w |} :: post)))
    with (pre ++ {| genai.web := Some w |} :: post).
  destruct (fold_left chunk_step
              (enumerate (pre ++ {| genai.web := Some w |} :: post)) (l, ∅))
    as [l1 chunks_info]. cbn [fst snd] in *.
  destruct (list_truthy (genai.grounding_supports gm)).
  - destruct (support_loop_follows chunks_info (or_empty (genai.grounding_supports gm))
                l1 Hr1 C1) as (srcs' & Hrun & (_ & _ & Hg)).
    rewrite Hrun, bind_Ok.
    destruct (Hg _ _ Hs) as (info' & Hinfo' & F1 & F2 & F3 & F4 & _).
    eexists _, sid, info'. split; [reflexivity|]. cbn [l_url_to_short_id l_sources].
    split; [done|]. split; [done|]. repeat split; congruence.
  - by exists l1, sid, info.
Qed.

(** Two chunks with one URL, the second under another title; the title
    of the first equals its domain. *)
Lemma first_chunk_names_source_witness :
  exists l' sid info,
    event_step (load empty_state)
      {| genai.grounding_metadata :=
           Some {| genai.grounding_chunks :=
                     Some ([] ++ {| genai.web :=
                                      Some {| genai.uri := Some (txt "http://a");
                                              genai.title := Some (txt "a.com");
                                              genai.domain := Some (txt "a.com") |} |}
                              :: [{| genai.web :=
                                       Some {| genai.uri := Some (txt "http://a");
                                               genai.title := Some (txt "Other");
                                               genai.domain := Some (txt "b.com") |} |}]);
                   genai.grounding_supports := None |} |}
    = Ok l'
    /\ l_url_to_short_id l' !! Some (txt "http://a") = Some sid
    /\ l_sources l' !! sid = Some info
    /\ short_id info = Some sid
    /\ title info = Some (Some (txt "a.com"))
    /\ url info = Some (Some (txt "http://a"))
    /\ domain info = Some (Some (txt "a.com")).
Proof.
  refine (first_chunk_names_source (load empty_state)
            {| genai.grounding_chunks := Some _; genai.grounding_supports := None |}
            [] _ {| genai.uri := Some (txt "http://a"); genai.title := Some (txt "a.com");
                    genai.domain := Some (txt "a.com") |} reach_start eq_refl _ _).
  - intros [x Hx]. simpl in Hx. by rewrite lookup_empty in Hx.
  - simpl. tauto.
Defined.

(** When every URL of the chunks is known, the chunk loop leaves the
    registry alone, consistent or not. *)
Lemma chunk_loop_known ics : forall l chunks_info,
  (forall u, In u (chunk_urls ics) -> known l u) ->
  (fold_left chunk_step ics (l, chunks_info)).1 = l.
Proof.
  induction ics as [|[idx chunk] ics IH]; intros l ci Hk; [done|].
  change ((idx, chunk) :: ics) with ([(idx, chunk)] ++ ics) in Hk.
  rewrite chunk_urls_app in Hk. cbn [fold_left].
  assert (E : exists ci', chunk_step (l, ci) (idx, chunk) = (l, ci')).
  { unfold chunk_step. destruct (genai.web chunk) as [w|] eqn:Ew; [|by eexists].
    destruct (Hk (genai.uri w)) as [sid Hsid].
    - apply in_app_iff. left. unfold chunk_urls. cbn [omap list_omap snd]. rewrite Ew.
      by left.
    - rewrite Hsid. by eexists. }
  destruct E as [ci' ->]. apply IH. intros u Hu. apply Hk, in_app_iff. by right.
Qed.

(** X15: a registry out of step raises.  When the state maps a URL to a
    short id under [url_to_short_id] but has no Source under that id in
    [sources] (the two keys are read independently, each with its own
    default), and the first event has only chunks with known URLs, one
    of them with that URL, and its first support refers to that chunk
    first, then the callback raises [KeyError] with the short id, at
    the subscript [sources[short_id]], whatever events come later. *)
Theorem missing_source_raises (st : State) (gm : genai.GroundingMetadata)
    (chunks : list genai.GroundingChunk) (support : genai.GroundingSupport)
    (supports : list genai.GroundingSupport) (i : nat) (rest : list Z)
    (chunk : genai.GroundingChunk) (w : genai.GroundingChunkWeb) (sid : str)
    (later : list genai.Event) :
  genai.grounding_chunks gm = Some chunks ->
  (forall u, In u (chunk_urls (enumerate chunks)) -> known (load st) u) ->
  chunks !! i = Some chunk ->
  genai.web chunk = Some w ->
  l_url_to_short_id (load st) !! genai.uri w = Some sid ->
  l_sources (load st) !! sid = None ->
  genai.grounding_supports gm = Some (support :: supports) ->
  genai.grounding_chunk_indices support = Some (Z.of_nat i :: rest) ->
  collect_research_sources_callback
    ({| genai.grounding_metadata := Some gm |} :: later) st
  = Raise (KeyError sid).
Proof.
  intros Hgm Hk Hi Hw Hu Hs Hsup Hidx.
  unfold collect_research_sources_callback. cbn [for_each].
  assert (E : event_step (load st) {| genai.grounding_metadata := Some gm |}
              = Raise (KeyError sid)); [|by rewrite E].
  unfold event_step. cbn [genai.grounding_metadata]. rewrite Hgm, Hsup.
  assert (list_truthy (Some chunks) = true) as -> by (by destruct chunks).
  cbn [negb list_truthy].
  change (or_empty (Some chunks)) with chunks.
  change (or_empty (Some (support :: supports))) with (support :: supports).
  pose proof (chunk_loop_known (enumerate chunks) (load st) ∅ Hk) as E1.
  destruct (chunk_loop_spec chunks (load st)) as (Hci & _). specialize (Hci i chunk Hi).
  destruct (fold_left chunk_step (enumerate chunks) (load st, ∅)) as [l1 chunks_info].
  cbn [fst snd] in *. subst l1. rewrite Hw, Hu in Hci.
  cbn [for_each].
  change (support_step chunks_info (l_sources (load st)) support)
    with (for_each (index_step chunks_info support)
            (enumerate (or_empty (genai.grounding_chunk_indices support)))
            (l_sources (load st))).
  rewrite Hidx.
  change (or_empty (Some (Z.of_nat i :: rest))) with (Z.of_nat i :: rest).
  cbn [enumerate length seq combine for_each].
  change (index_step chunks_info support (l_sources (load st)) (0, Z.of_nat i))
    with (match chunks_info !! Z.of_nat i with
          | Some sid => append_claim sid (claim_of support 0) (l_sources (load st))
          | None => Ok (l_sources (load st))
          end).
  rewrite Hci. unfold append_claim. rewrite Hs. reflexivity.
Qed.

(** A state with [url_to_short_id] but without [sources]. *)
Lemma missing_source_raises_witness :
  collect_research_sources_callback [example_event]
    {| url_to_short_id := Some {[ Some (txt "http://a") := txt "src-1" ]}; sources := None;
       research_evaluation := None; final_cited_report := None;
       final_report_with_citations := None |}
  = Raise (KeyError (txt "src-1")).
Proof.
  refine (missing_source_raises _
            {| genai.grounding_chunks :=
                 Some [{| genai.web := Some {| genai.uri := Some (txt "http://a");
                                               genai.title := Some (txt "A");
                                               genai.domain := Some (txt "a.com") |} |}];
               genai.grounding_supports :=
                 Some [{| genai.segment := Some {| genai.text := Some (txt "seg") |};
                          genai.confidence_scores := Some [0.75%float];
                          genai.grounding_chunk_indices := Some [0%Z] |}] |}
            _ _ [] 0 [] _ _ (txt "src-1") [] eq_refl _ eq_refl eq_refl _ _ eq_refl eq_refl).
  - intros u [<-|[]]. by exists (txt "src-1").
  - reflexivity.
  - reflexivity.
Defined.

End SourceContents.

(** ** The warnings of a rewrite *)

Section Warnings.

Lemma warnings_of_markers registry ps :
  warnings_of registry ps
  = map warning
      (List.filter (fun m => negb (found registry m))
         (omap (fun p => match p with Hit m => Some m | Lit _ => None end) ps)).
Proof.
  induction ps as [|[c|m] ps IH]; [done|exact IH|].
  cbn [warnings_of flat_map omap list_omap List.filter]. fold (warnings_of registry ps).
  rewrite IH. unfold found, tag_replacer.
  destruct (registry !! (group1 m)) as [info|]; [|done].
  destruct (source_truthy info); [|done].
  by destruct (url info).
Qed.

(** X17: the log of a rewrite.  With every found Source carrying a url,
    the warnings logged are, in the order of the draft, one for each
    marker whose short id has no Source or an empty one, and none for
    any other marker. *)
Theorem warnings_in_order (registry : gmap str Source) (draft : str) :
  has_urls registry ->
  (rewrite_draft draft registry).2
  = map warning (List.filter (fun m => negb (found registry m)) (markers draft)).
Proof.
  intros Hu. rewrite rewrite_unfold. unfold substitute, markers.
  rewrite replace_pieces_render by done. cbn [snd]. apply warnings_of_markers.
Qed.

(** A draft with a marker for a known source between two for unknown
    ones, the first with an Arabic-Indic digit one as its number. *)
Lemma warnings_in_order_witness :
  (rewrite_draft
     (txt "<cite source=src-" ++ [1633%N]
      ++ txt "/> A <cite source=src-1/> B <cite source=src-9/>")
     example_registry).2
  = [ txt "Invalid citation tag found and removed: <cite source=src-" ++ [1633%N]
      ++ txt "/>";
      txt "Invalid citation tag found and removed: <cite source=src-9/>" ].
Proof.
  refine (eq_trans (warnings_in_order example_registry _ _) _).
  - intros sid info H _. unfold example_registry in H.
    apply lookup_singleton_Some in H as [_ <-]. by eexists.
  - vm_compute. reflexivity.
Defined.

End Warnings.

(** ** The rewriter, marker by marker *)

Section MarkerTexts.

Lemma lexemes_accepted p ls :
  Forall2 lexeme_ok p ls ->
  Forall (fun c => exists a, In a p /\ accepts (cls a) c = true) (concat ls).
Proof.
  induction 1 as [|a l p ls [Hacc _] _ IH]; simpl; [constructor|].
  apply List.Forall_app. split.
  - eapply List.Forall_impl; [|exact Hacc]. intros c Hc. exists a. split; [by left|done].
  - eapply List.Forall_impl; [|exact IH]. intros c (a' & Ha' & Hc).
    exists a'. split; [by right|done].
Qed.

Lemma accepted_not_rejected p x c :
  rejects x p -> (exists a, In a p /\ accepts (cls a) c = true) -> c <> x.
Proof.
  intros Hr (a & Ha & Hc) ->. unfold rejects in Hr. rewrite List.Forall_forall in Hr.
  rewrite (Hr a Ha) in Hc. done.
Qed.

Lemma punct_cases c :
  is_punct c = true -> c = 46%N \/ c = 44%N \/ c = 59%N \/ c = 58%N.
Proof.
  unfold is_punct. simpl. rewrite !orb_true_iff, !N.eqb_eq.
  intros [->|[->|[->|[->|?]]]]; auto. done.
Qed.

(** The text of a marker: [<], then characters the body of the pattern
    takes, among which are no [<], no [>], no bracket and none of
    [.,;:], then [>]. *)
Lemma cite_match_text s m :
  re_match cite_re s = Some m ->
  exists body, group0 m = lt_char :: body ++ [gt_char]
    /\ ~ In lt_char body /\ ~ In gt_char body /\ ~ In 91%N body
    /\ Forall (fun c => is_punct c = false) body.
Proof.
  unfold re_match.
  destruct (match_atoms (re_atoms cite_re) s) as [[ls rst]|] eqn:E; [|done].
  intros [= <-]. apply match_atoms_sound in E as [_ E]. cbn [fst] in E.
  rewrite cite_atoms in E.
  apply Forall2_app_inv_l in E as (l1 & l2 & H1 & H2 & ->).
  inversion H1 as [|? lx ? lm Hlt Hm]; subst.
  inversion H2 as [|? ly ? le Hgt He]; subst. inversion He; subst.
  apply lexeme_one in Hlt as ->. apply lexeme_one in Hgt as ->.
  apply lexemes_accepted in Hm. rewrite List.Forall_forall in Hm.
  assert (Hno : forall x, rejects x cite_body -> ~ In x (concat lm)).
  { intros x Hx Hin. by apply (accepted_not_rejected _ x x Hx (Hm x Hin)). }
  exists (concat lm). cbn [group0]. split; [|split; [|split; [|split]]].
  - rewrite concat_app. simpl. by rewrite ?app_nil_r.
  - apply Hno. repeat constructor.
  - apply Hno. repeat constructor.
  - apply Hno. repeat constructor.
  - apply List.Forall_forall. intros c Hc. destruct (is_punct c) eqn:Hp; [exfalso|done].
    revert Hc. apply Hno.
    apply punct_cases in Hp as [->|[->|[->| ->]]]; repeat constructor.
Qed.

(** A match anywhere in a text shows in its scan. *)
Lemma match_somewhere r a t m :
  re_match r t = Some m -> exists m', In (Hit m') (scan r 0 (a ++ t)).
Proof.
  intros Hm. induction a as [|c a IH]; cbn [app].
  - destruct t as [|c t]; cbn [scan]; rewrite Hm.
    + exists m. by left.
    + exists m. destruct (length (group0 m)); by left.
  - cbn [scan]. destruct (re_match r (c :: a ++ t)) as [m0|].
    + exists m0. destruct (length (group0 m0)); by left.
    + destruct IH as [m' H]. exists m'. by right.
Qed.

Lemma markers_cons_nil c s :
  markers (c :: s) = [] -> re_match cite_re (c :: s) = None /\ markers s = [].
Proof.
  unfold markers. cbn [scan].
  destruct (re_match cite_re (c :: s)) as [m|]; [|done].
  by destruct (length (group0 m)).
Qed.

(** The marker pattern at a marker, whatever follows it. *)
Lemma cite_match_here mk m post :
  re_match cite_re mk = Some m -> group0 m = mk ->
  re_match cite_re (mk ++ post) = Some m.
Proof.
  intros Hm Hg. destruct (cite_match_text _ _ Hm) as (body & Hb & _).
  rewrite Hg in Hb. rewrite Hb in Hm |- *.
  replace ((lt_char :: body ++ [gt_char]) ++ post)
    with ((lt_char :: body) ++ gt_char :: post)
    by (cbn [app]; by rewrite <- app_assoc).
  rewrite (cite_until (lt_char :: body) post). exact Hm.
Qed.

(** The scan around a marker: the text before it and the text after it
    are scanned as if each stood alone. *)
Lemma scan_marker pre mk post m :
  re_match cite_re mk = Some m -> group0 m = mk ->
  scan cite_re 0 (pre ++ mk ++ post) = scan cite_re 0 pre ++ Hit m :: scan cite_re 0 post.
Proof.
  intros Hm Hg. pose proof (cite_match_here mk m post Hm Hg) as Hhere.
  destruct (cite_match_text _ _ Hm) as (body & Hb & _). rewrite Hg in Hb.
  rewrite Hb in Hhere |- *. cbn [app] in Hhere |- *.
  rewrite (scan_split cite_re lt_char _ cite_nil cite_local pre 0) by lia.
  f_equal. cbn [scan]. rewrite Hhere, Hg, Hb. cbn [length].
  by rewrite scan_skip.
Qed.

End MarkerTexts.

Section NormaliseTexts.

(** A text without [.,;:] that heads the result of the pass heads its
    input. *)
Lemma normalise_prefix g : forall r b,
  Forall (fun c => is_punct c = false) g ->
  normalise r = g ++ b -> exists b0, r = g ++ b0.
Proof.
  induction g as [|x g IH]; intros r b Hg Hr; [by exists r|].
  inversion Hg as [|? ? Hx Hg']; subst.
  destruct r as [|c r1]; [done|].
  destruct (re_match punct_re (c :: r1)) as [m|] eqn:E.
  - destruct (punct_match_shape _ _ E) as (w & p & r' & Hs & Hne & Hw & Hp & _).
    rewrite Hs, normalise_hit in Hr by done. injection Hr as -> _. congruence.
  - rewrite normalise_miss in Hr by done. injection Hr as -> Hr.
    destruct (IH r1 b Hg' Hr) as [b0 ->]. by exists b0.
Qed.

(** The pass makes no such text: what stands in its result stands in
    its input. *)
Lemma normalise_infix g a : forall s b,
  Forall (fun c => is_punct c = false) g ->
  normalise s = a ++ g ++ b -> exists a0 b0, s = a0 ++ g ++ b0.
Proof.
  induction a as [|y a IH]; intros s b Hg Hs.
  - destruct (normalise_prefix g s b Hg Hs) as [b0 ->]. by exists [], b0.
  - destruct s as [|c s1]; [done|].
    destruct (re_match punct_re (c :: s1)) as [m|] eqn:E.
    + destruct (punct_match_shape _ _ E) as (w & p & r' & Hs' & Hne & Hw & Hp & _).
      rewrite Hs', normalise_hit in Hs by done. injection Hs as -> Hs.
      destruct (IH r' b Hg Hs) as (a0 & b0 & ->).
      exists (w ++ y :: a0), b0. rewrite Hs'. by rewrite <- app_assoc.
    + rewrite normalise_miss in Hs by done. injection Hs as -> Hs.
      destruct (IH s1 b Hg Hs) as (a0 & b0 & ->). by exists (y :: a0), b0.
Qed.

(** A character other than [.,;:] at the end of a text stays there. *)
Lemma normalise_snoc x :
  is_punct x = false ->
  forall n s, length s <= n -> normalise (s ++ [x]) = normalise s ++ [x].
Proof.
  intros Hx.
  assert (Hnil : normalise [x] = [x]).
  { rewrite normalise_miss; [done|].
    destruct (re_match punct_re [x]) as [m|] eqn:E; [exfalso|done].
    destruct (punct_match_shape _ _ E) as (w & p & r & Hs & Hne & _).
    destruct w as [|? [|? ?]]; simplify_eq/=. }
  induction n as [|n IH]; intros s Hn.
  { destruct s; [done|simpl in Hn; lia]. }
  destruct s as [|c s]; [done|]. simpl in Hn.
  destruct (re_match punct_re (c :: s)) as [m|] eqn:E.
  - destruct (punct_match_shape _ _ E) as (w & p & r & Hs & Hne & Hw & Hp & _).
    rewrite Hs, <- app_assoc. cbn [app].
    rewrite (normalise_hit w p (r ++ [x])), (normalise_hit w p r) by done.
    rewrite IH; [done|].
    apply (f_equal length) in Hs. rewrite length_app in Hs. simpl in Hs.
    destruct w; [done|]. simpl in Hs. lia.
  - assert (E2 : re_match punct_re ((c :: s) ++ [x]) = None).
    { destruct (re_match punct_re ((c :: s) ++ [x])) as [m|] eqn:E2; [exfalso|done].
      destruct (punct_match_shape _ _ E2) as (w & p & r & Hs & Hne & Hw & Hp & _).
      destruct (decide (r = [])) as [->|Hr].
      - change (w ++ [p]) with (w ++ [p]) in Hs. apply app_inj_tail in Hs as [_ ->].
        congruence.
      - destruct (exists_last Hr) as (r3 & z & ->).
        change (w ++ p :: r3 ++ [z]) with (w ++ (p :: r3) ++ [z]) in Hs.
        rewrite app_assoc in Hs. apply app_inj_tail in Hs as [Hs ->].
        pose proof (punct_match_run w (p :: r3) Hne Hw (punct_not_space p Hp)) as Hm.
        rewrite <- Hs, Hp, E in Hm. done. }
    cbn [app] in E2 |- *. rewrite !normalise_miss by done.
    rewrite IH by lia. done.
Qed.

(** The pass around a link: the text before the link, the link and the
    text after it are normalised each by itself. *)
Lemma normalise_link a display u b :
  normalise (a ++ link display u ++ b)
  = normalise a ++ normalise (link display u) ++ normalise b.
Proof.
  assert (P91 : plain 91%N) by by split.
  assert (P41 : plain 41%N) by by split.
  assert (El : exists M, link display u = 32%N :: 91%N :: M ++ [41%N]).
  { exists (fmt display ++ txt "](" ++ fmt u). unfold link. eval_txt. cbn [app].
    by rewrite <- !app_assoc. }
  destruct El as [M ->].
  replace (a ++ (32%N :: 91%N :: M ++ [41%N]) ++ b)
    with ((a ++ [32%N]) ++ 91%N :: (M ++ 41%N :: b))
    by (rewrite <- !app_assoc; cbn [app]; by rewrite <- !app_assoc).
  rewrite (normalise_split 91%N _ _ P91), (normalise_split 41%N M b P41).
  rewrite (normalise_snoc 32%N eq_refl (length a) a) by lia.
  change (32%N :: 91%N :: M ++ [41%N]) with ([32%N] ++ 91%N :: (M ++ 41%N :: [])).
  rewrite (normalise_split 91%N [32%N] _ P91), (normalise_split 41%N M [] P41).
  change (normalise [32%N]) with [32%N]. change (normalise []) with (@nil char).
  rewrite <- !app_assoc. cbn [app]. by rewrite <- !app_assoc.
Qed.

End NormaliseTexts.

(** ** What the removal of markers leaves *)

Section MarkersLeft.

Lemma render_hit_shape registry m :
  render registry (Hit m) = [] \/ exists L, render registry (Hit m) = 32%N :: 91%N :: L.
Proof.
  unfold render. destruct (registry !! group1 m) as [info|]; [|by left].
  destruct (source_truthy info); [|by left]. right. eexists. reflexivity.
Qed.

(** The end of a marker that heads the text the substitution returns
    heads the text with the markers deleted: a link cannot stand in
    it. *)
Lemma deleted_prefix registry ps : forall g b,
  (g = [] \/ exists g', g = g' ++ [gt_char]) ->
  ~ In 91%N g ->
  flat_map (render registry) ps = g ++ b ->
  exists b', flat_map (fun p => match p with Lit c => [c] | Hit _ => [] end) ps = g ++ b'.
Proof.
  induction ps as [|[c|m] ps IH]; intros g b Hend H91 Heq.
  - simpl in Heq. symmetry in Heq. apply app_eq_nil in Heq as [-> _]. by exists [].
  - destruct g as [|x g]; [by eexists|].
    cbn [flat_map render app] in Heq |- *. injection Heq as -> Heq.
    destruct (IH g b) as [b' ->]; [| |done|by exists b'].
    + destruct Hend as [?|[g' Hg]]; [done|].
      destruct g' as [|y g']; simplify_eq/=; [by left|right; by exists g'].
    + intros Hin. apply H91. by right.
  - cbn [flat_map] in Heq |- *.
    destruct (render_hit_shape registry m) as [E|[L E]]; rewrite E in Heq.
    + by apply (IH g b).
    + destruct g as [|x [|y g]]; [by eexists| |].
      * exfalso. destruct Hend as [?|[g' Hg]]; [done|].
        cbn [app] in Heq. injection Heq as <- _.
        destruct g' as [|? [|? ?]]; simplify_eq/=.
      * exfalso. cbn [app] in Heq. injection Heq as _ <- _. apply H91. right. by left.
Qed.

(** A marker in the text the substitution returns stands in the text
    with the markers deleted, when no link holds a [<]. *)
Lemma deleted_infix registry ps : forall a g b,
  (forall m, In (Hit m) ps -> ~ In lt_char (render registry (Hit m))) ->
  (exists g', g = g' ++ [gt_char]) -> ~ In 91%N g ->
  flat_map (render registry) ps = a ++ (lt_char :: g) ++ b ->
  exists a' b',
    flat_map (fun p => match p with Lit c => [c] | Hit _ => [] end) ps
    = a' ++ (lt_char :: g) ++ b'.
Proof.
  induction ps as [|[c|m] ps IH]; intros a g b Hlinks Hend H91 Heq.
  - destruct a; discriminate.
  - assert (Hlinks' : forall m, In (Hit m) ps -> ~ In lt_char (render registry (Hit m)))
      by (intros m Hm; apply Hlinks; by right).
    cbn [flat_map render] in Heq |- *. destruct a as [|x a].
    + cbn [app] in Heq. injection Heq as -> Heq.
      destruct (deleted_prefix registry ps g b) as [b' ->]; [by right|done|done|].
      by exists [], b'.
    + cbn [app] in Heq. injection Heq as -> Heq.
      destruct (IH a g b Hlinks' Hend H91 Heq) as (a' & b' & ->).
      by exists (x :: a'), b'.
  - assert (Hlinks' : forall m, In (Hit m) ps -> ~ In lt_char (render registry (Hit m)))
      by (intros m' Hm; apply Hlinks; by right).
    cbn [flat_map] in Heq |- *.
    apply app_eq_app in Heq as [l [[E1 E2]|[E1 E2]]].
    + destruct l as [|z l].
      * cbn [app] in E2. symmetry in E2.
        apply (IH [] g b Hlinks' Hend H91). exact E2.
      * exfalso. cbn [app] in E2. injection E2 as <- _.
        apply (Hlinks m); [by left|]. rewrite E1. apply in_app_iff. right. by left.
    + subst a. by apply (IH l g b).
Qed.

(** The report holds no marker when deleting the markers of the draft
    leaves none and no link written holds a [<]. *)
Lemma report_without_markers registry draft :
  markers (without_markers draft) = [] ->
  (forall m, In m (markers draft) -> ~ In lt_char (render registry (Hit m))) ->
  markers (normalise (flat_map (render registry) (scan cite_re 0 draft))) = [].
Proof.
  intros Hdel Hlinks.
  destruct (markers (normalise _)) as [|m ms] eqn:E; [done|]. exfalso.
  assert (Hm : In m (markers (normalise (flat_map (render registry)
                                           (scan cite_re 0 draft)))))
    by (rewrite E; by left).
  apply markers_scan, scan_chars in Hm as (a & b & Heq & Hm).
  destruct (cite_match_text _ _ Hm) as (body & Hg & Hlt & Hgt & H91 & Hp).
  rewrite Hg in Heq, Hm.
  assert (Hpg : Forall (fun c => is_punct c = false) (lt_char :: body ++ [gt_char])).
  { constructor; [done|]. apply List.Forall_app. split; [done|]. by constructor. }
  destruct (normalise_infix _ _ _ _ Hpg Heq) as (a0 & b0 & Hpre).
  destruct (deleted_infix registry (scan cite_re 0 draft) a0 (body ++ [gt_char]) b0)
    as (a' & b' & Hdeleted); [| | |exact Hpre|].
  - intros m' Hm'. apply Hlinks. by apply markers_scan.
  - by exists body.
  - intros Hin. apply in_app_iff in Hin as [Hin|[Hin|[]]]; [done|discriminate].
  - assert (Hhere : re_match cite_re ((lt_char :: body ++ [gt_char]) ++ b')
                    = Some m).
    { replace ((lt_char :: body ++ [gt_char]) ++ b')
        with ((lt_char :: body) ++ gt_char :: b')
        by (cbn [app]; by rewrite <- app_assoc).
      replace ((lt_char :: body ++ [gt_char]) ++ b)
        with ((lt_char :: body) ++ gt_char :: b) in Hm
        by (cbn [app]; by rewrite <- app_assoc).
      rewrite cite_until in Hm |- *. exact Hm. }
    destruct (match_somewhere cite_re a' _ m Hhere) as [m' Hin].
    change (flat_map (fun p => match p with Lit c => [c] | Hit _ => [] end)
              (scan cite_re 0 draft))
      with (without_markers draft) in Hdeleted.
    rewrite <- Hdeleted in Hin.
    apply markers_scan in Hin. by rewrite Hdel in Hin.
Qed.

End MarkersLeft.

(** ** Claims on the CitationRewriter *)

Section RewriterResults.

Lemma tag_replacer_render_here registry m :
  ~ lacks_url registry m ->
  (tag_replacer registry m).1 = Ok (render registry (Hit m)).
Proof.
  intros Hm. unfold tag_replacer, render, display_text.
  destruct (registry !! group1 m) as [info|] eqn:E; [|done].
  destruct (source_truthy info) eqn:Ht; [|done].
  destruct (url info) as [u|] eqn:Hu.
  - simpl. by destruct (title info), (domain info).
  - destruct Hm. by exists info.
Qed.

Lemma replace_pieces_render_here registry ps :
  (forall m, In (Hit m) ps -> ~ lacks_url registry m) ->
  replace_pieces registry ps = (Ok (flat_map (render registry) ps), warnings_of registry ps).
Proof.
  induction ps as [|[c|m] ps IH]; intros Hps; simpl; [done| |].
  - rewrite IH; [done|]. intros m Hm. apply Hps. by right.
  - pose proof (tag_replacer_render_here registry m (Hps m ltac:(by left))) as Hm.
    destruct (tag_replacer registry m) as [[t|e] w]; simpl in Hm; [|done].
    injection Hm as ->. rewrite IH; [done|]. intros m' Hm'. apply Hps. by right.
Qed.

(** C7, as the code behaves: when no marker of the draft names a Source
    that is found but has no [url], the rewrite returns normally, and
    each recognized marker whose short id is not in the registry is
    replaced by the empty text while a warning naming it is logged.
    The substitution is one pass over the draft: text that a removal
    joins is not scanned again, so a marker can be left in the final
    report.  None is left whenever the draft with its markers deleted
    holds no marker and no link written holds a [<]. *)
Theorem unknown_marker_removed (registry : gmap str Source) (draft : str) :
  (forall m, In m (markers draft) -> ~ lacks_url registry m) ->
  exists out log,
    rewrite_draft draft registry = (Ok out, log)
    /\ out = normalise (flat_map (render registry) (scan cite_re 0 draft))
    /\ (forall m,
          In m (markers draft) ->
          registry !! group1 m = None ->
          tag_replacer registry m = (Ok [], [warning m])
          /\ render registry (Hit m) = []
          /\ In (warning m) log)
    /\ (markers (without_markers draft) = [] ->
        (forall m, In m (markers draft) -> ~ In lt_char (render registry (Hit m))) ->
        markers out = []).
Proof.
  intros Hurls. rewrite rewrite_unfold. unfold substitute.
  rewrite replace_pieces_render_here
    by (intros m Hm; apply Hurls; by apply markers_scan).
  eexists _, _. split; [reflexivity|]. split; [reflexivity|]. split.
  - intros m Hm Hnone. unfold tag_replacer, render. rewrite Hnone.
    split; [done|]. split; [done|].
    unfold warnings_of. apply in_flat_map. exists (Hit m).
    split; [by apply markers_scan|]. unfold tag_replacer. rewrite Hnone. by left.
  - apply report_without_markers.
Qed.

(** A draft with a [<] that opens no tag and a marker that names the
    unknown short id src-99: the marker goes, the report holds none. *)
Lemma unknown_marker_removed_witness :
  exists out log,
    rewrite_draft (txt "if a<b then <cite source=" ++ quoted (txt "src-99")
                   ++ txt "/> holds .") example_registry
    = (Ok out, log)
    /\ out = txt "if a<b then  holds."
    /\ log = [txt "Invalid citation tag found and removed: <cite source="
              ++ quoted (txt "src-99") ++ txt "/>"]
    /\ markers out = [].
Proof.
  destruct (unknown_marker_removed example_registry
              (txt "if a<b then <cite source=" ++ quoted (txt "src-99")
               ++ txt "/> holds .")) as (out & log & H1 & H2 & _ & H4).
  - intros m _ (info & Hinfo & _ & Hurl). unfold example_registry in Hinfo.
    apply lookup_singleton_Some in Hinfo as [_ <-]. discriminate Hurl.
  - exists out, log. split; [exact H1|]. split; [exact H2|]. split.
    + rewrite rewrite_unfold in H1. vm_compute in H1. by injection H1 as _ <-.
    + apply H4; [vm_compute; reflexivity|].
      vm_compute. intros m [<-|[]]. by intros [].
Defined.

(** C7, as stated, fails.  In the draft
    [<cite source=<cite source="src-99"/>"src-99"/>] the inner marker is
    recognized and removed; the text around it closes up to
    [<cite source="src-99"/>], which is the final report: a marker of
    the unknown short id src-99. *)
Lemma unknown_marker_survives :
  let out := txt "<cite source=" ++ quoted (txt "src-99") ++ txt "/>" in
  rewrite_draft (txt "<cite source=<cite source=" ++ quoted (txt "src-99") ++ txt "/>"
                 ++ quoted (txt "src-99") ++ txt "/>")
          example_registry
  = (Ok out, [warning {| group0 := out; group1 := txt "src-99" |}])
  /\ markers out = [{| group0 := out; group1 := txt "src-99" |}]
  /\ example_registry !! txt "src-99" = None.
Proof. vm_compute. done. Qed.

(** C9, as the code behaves: wherever a recognized marker stands in a
    draft, when its short id is found in the registry with a Source
    that is not empty and has a [url], [tag_replacer] replaces it by a
    space and the link [[display](url)], and the final report is the
    rewritten text before the marker, the link as the
    punctuation-spacing pass leaves it, and the rewritten text after
    it; the link is left as it is when no whitespace stands in it
    directly before one of [.,;:].  The link text is what stands under
    [title] when the Source has that key, else what stands under
    [domain], else the short id; what stands there is written as an
    f-string writes it, so [None] gives the text None.  A Source the
    registry built always has the key [title], so its link text is its
    title, or None, and never the domain or the short id. *)
Theorem found_marker_becomes_link (registry : gmap str Source)
    (pre mk post a b : str) (la lb : list str) (m : rmatch) (info : Source) (u : value) :
  re_match cite_re mk = Some m -> group0 m = mk ->
  registry !! group1 m = Some info ->
  source_truthy info = true ->
  url info = Some u ->
  rewrite_draft pre registry = (Ok a, la) ->
  rewrite_draft post registry = (Ok b, lb) ->
  let display :=
    match title info, domain info with
    | Some t, _ => t
    | None, Some d => d
    | None, None => Some (group1 m)
    end in
  tag_replacer registry m = (Ok (link display u), [])
  /\ rewrite_draft (pre ++ mk ++ post) registry
     = (Ok (a ++ normalise (link display u) ++ b), la ++ lb)
  /\ (space_before_punct (link display u) = false ->
      normalise (link display u) = link display u)
  /\ (forall batches st sid built,
        record_all batches empty_state = Ok st ->
        l_sources (load st) !! sid = Some built ->
        exists t, title built = Some t /\ display_text built sid = t).
Proof.
  intros Hm Hg Hinfo Ht Hu Ha Hb display.
  assert (Htag : tag_replacer registry m = (Ok (link display u), [])).
  { unfold tag_replacer, display_text, link. rewrite Hinfo, Ht, Hu. subst display.
    by destruct (title info), (domain info). }
  split; [exact Htag|]. split; [|split].
  - apply rewrite_ok_inv in Ha as (pa & Ha & ->).
    apply rewrite_ok_inv in Hb as (pb & Hb & ->).
    rewrite rewrite_unfold. unfold substitute in *.
    rewrite (scan_marker pre mk post m Hm Hg).
    rewrite (replace_pieces_app registry _ (Hit m :: scan cite_re 0 post)
               pa la (link display u ++ pb) lb Ha).
    + by rewrite normalise_link.
    + cbn [replace_pieces]. rewrite Htag, Hb. reflexivity.
  - apply normalise_fixed.
  - intros batches st sid built Hrun Hbuilt.
    destruct (record_all_follows batches empty_state reach_start)
      as (st0 & Hrun0 & (Hr & _) & _).
    rewrite Hrun in Hrun0. injection Hrun0 as <-.
    destruct (reachable_complete _ Hr _ _ Hbuilt) as ([t Htitle] & _).
    exists t. split; [done|]. unfold display_text. by rewrite Htitle.
Qed.

(** The marker of the example draft, in its place. *)
Lemma found_marker_becomes_link_witness :
  rewrite_draft (txt "Fee " ++ (txt "<cite source=" ++ quoted (txt "src-1") ++ txt "/>")
                 ++ txt " , Bar.") example_registry
  = (Ok (txt "Fee " ++ txt " [Example](http://x)" ++ txt ", Bar."), []).
Proof.
  refine (eq_trans
            (proj1 (proj2
               (found_marker_becomes_link example_registry
                  (txt "Fee ") (txt "<cite source=" ++ quoted (txt "src-1") ++ txt "/>")
                  (txt " , Bar.") (txt "Fee ") (txt ", Bar.") [] []
                  {| group0 := txt "<cite source=" ++ quoted (txt "src-1") ++ txt "/>";
                     group1 := txt "src-1" |}
                  {| short_id := None; title := Some (Some (txt "Example"));
                     url := Some (Some (txt "http://x"));
                     domain := None; supported_claims := None |}
                  (Some (txt "http://x")) _ _ _ _ _ _ _))) _).
  - vm_compute. reflexivity.
  - reflexivity.
  - vm_compute. reflexivity.
  - reflexivity.
  - reflexivity.
  - vm_compute. reflexivity.
  - vm_compute. reflexivity.
  - vm_compute. reflexivity.
Defined.

(** C9, as stated, fails on both counts.  A chunk without a title gives
    a Source whose [title] is [None]: its marker becomes a link with
    the text None, not the domain.  And the link is not left as written
    when its text holds a space before a colon: the
    punctuation-spacing pass removes the space. *)
Lemma link_text_not_as_claimed :
  (st ← record_all
          [[ {| genai.grounding_metadata :=
                  Some {| genai.grounding_chunks :=
                            Some [{| genai.web :=
                                       Some {| genai.uri := Some (txt "http://a");
                                               genai.title := None;
                                               genai.domain := Some (txt "a.com") |} |}];
                          genai.grounding_supports := None |} |} ]] empty_state;
   Ok (rewrite_draft (txt "<cite source=" ++ quoted (txt "src-1") ++ txt " />")
         (default ∅ (sources st))))
  = Ok (Ok (txt " [None](http://a)"), [])
  /\ rewrite_draft (txt "<cite source=" ++ quoted (txt "src-1") ++ txt " />")
       {[ txt "src-1" := {| short_id := Some (txt "src-1");
                            title := Some (Some (txt "Legal Aid : Help"));
                            url := Some (Some (txt "http://x"));
                            domain := Some (Some (txt "x.org"));
                            supported_claims := Some [] |} ]}
     = (Ok (txt " [Legal Aid: Help](http://x)"), []).
Proof. vm_compute. done. Qed.

(** The scan of a text that ends in [>] and holds no marker, with more
    text behind it. *)
Lemma scan_no_marker x post :
  markers (x ++ [gt_char]) = [] ->
  scan cite_re 0 (x ++ gt_char :: post) = map Lit (x ++ [gt_char]) ++ scan cite_re 0 post.
Proof.
  induction x as [|c x IH]; intros Hno.
  - cbn [app scan map]. by rewrite cite_head.
  - cbn [app] in Hno. apply markers_cons_nil in Hno as [Hc Hx].
    cbn [app scan map].
    rewrite (cite_until (c :: x) post : re_match cite_re (c :: x ++ gt_char :: post) = _).
    cbn [app]. rewrite Hc. f_equal. by apply IH.
Qed.

(** C10, as the code behaves: a tag [<body>] in which the marker
    pattern matches nowhere (the tag is no marker and holds none, as
    [<cite source="abc"/>]) is neither resolved nor removed.  Wherever
    it stands in a draft, the final report is the rewritten text before
    it, the tag as the punctuation-spacing pass leaves it, and the
    rewritten text after it; no warning is logged for it; and a tag
    without any of [.,;:] is left exactly as it is. *)
Theorem unrecognised_tag_kept (registry : gmap str Source)
    (pre body post a b : str) (la lb : list str) :
  let t := txt "<" ++ body ++ txt ">" in
  markers t = [] ->
  rewrite_draft pre registry = (Ok a, la) ->
  rewrite_draft post registry = (Ok b, lb) ->
  rewrite_draft (pre ++ t ++ post) registry = (Ok (a ++ normalise t ++ b), la ++ lb)
  /\ (Forall (fun c => is_punct c = false) t -> normalise t = t).
Proof.
  intros t Hno Ha Hb. split.
  - apply rewrite_ok_inv in Ha as (pa & Ha & ->).
    apply rewrite_ok_inv in Hb as (pb & Hb & ->).
    rewrite rewrite_unfold. subst t.
    change (txt "<" ++ body ++ txt ">") with (lt_char :: body ++ [gt_char]) in *.
    unfold substitute in *.
    replace (pre ++ (lt_char :: body ++ [gt_char]) ++ post)
      with (pre ++ lt_char :: (body ++ gt_char :: post))
      by (cbn [app]; by rewrite <- app_assoc).
    rewrite (scan_split cite_re lt_char _ cite_nil cite_local pre 0) by lia.
    rewrite (scan_no_marker (lt_char :: body) post Hno
             : scan cite_re 0 (lt_char :: body ++ gt_char :: post) = _).
    rewrite (replace_pieces_app registry _ _ pa la ((lt_char :: body ++ [gt_char]) ++ pb) lb Ha).
    + by rewrite normalise_tag.
    + rewrite <- (app_nil_l lb). apply replace_pieces_app; [|done].
      apply replace_pieces_lits.
  - intros Hp. by apply normalise_id.
Qed.

(** The tag [<cite source="a<b"/>] between two sentences. *)
Lemma unrecognised_tag_kept_witness :
  rewrite_draft (txt "One ." ++ (txt "<" ++ (txt "cite source=" ++ quoted (txt "a<b") ++ txt "/")
                                 ++ txt ">") ++ txt " Two ;")
          example_registry
  = (Ok (txt "One." ++ (txt "<cite source=" ++ quoted (txt "a<b") ++ txt "/>") ++ txt " Two;"),
     []).
Proof.
  pose proof (unrecognised_tag_kept example_registry (txt "One .")
                (txt "cite source=" ++ quoted (txt "a<b") ++ txt "/") (txt " Two ;")
                (txt "One.") (txt " Two;") [] []) as H.
  cbv zeta in H.
  destruct H as [H1 H2].
  - vm_compute. reflexivity.
  - vm_compute. reflexivity.
  - vm_compute. reflexivity.
  - rewrite H1. rewrite H2; [reflexivity|].
    vm_compute. repeat constructor.
Defined.

(** C10, as stated, fails: the value of the outer cite tag below is not
    src- followed by digits, yet the rewrite alters the tag, resolving
    the marker that stands inside it. *)
Lemma nested_tag_altered :
  rewrite_draft (txt "A <cite source=" ++ dquote ++ txt "x<cite source='src-1'/>y"
                 ++ dquote ++ txt "/> B") example_registry
  = (Ok (txt "A <cite source=" ++ dquote ++ txt "x [Example](http://x)y"
         ++ dquote ++ txt "/> B"), []).
Proof. vm_compute. reflexivity. Qed.

End RewriterResults.
